(** * Lifeboard data-ingestion engine: a shallow embedding of the sync code

    The development follows the backend sources
    [services/dataIngestion/BaseConnector.js], [LimitlessConnector.js],
    [BeeConnector.js], [services/processing/DataProcessor.js],
    [services/storage/DatabaseManager.js] and the schema of [init.sql].

    JavaScript objects received from the remote APIs are records whose
    fields may be absent; asynchronous methods that read or write the
    PostgreSQL store are functions in a state-and-exception monad over the
    store; the remote APIs are functions from a request to a response. *)

From stdpp Require Import gmap strings list fin_maps.
From Stdlib Require Import ZArith Lia.

Set Warnings "-register-all".

Open Scope Z_scope.

(** ** JavaScript values *)

Module JS.

(** A property of a JSON object: not there ([undefined]), [null], or a
    value of the type the API documents for it. *)
Inductive field (A : Type) : Type :=
| Absent
| Null
| Val (a : A).
Arguments Absent {A}.
Arguments Null {A}.
Arguments Val {A} a.

(** Text that the code hands to [new Date(...)].  It is kept by what
    [Date] reads in it: the ISO date-time text of an instant (milliseconds
    since the epoch, as [toISOString] prints it), the date-only text
    [YYYY-MM-DD] of a day (days since the epoch), or any other text, which
    [Date] cannot parse. *)
Inductive jstext : Type :=
| IsoInstant (ms : Z)
| IsoDay (day : Z)
| Text (s : string).

Class Truthy (A : Type) := truthy : A -> bool.

#[export] Instance truthy_bool : Truthy bool := fun b => b.
#[export] Instance truthy_Z : Truthy Z := fun z => negb (z =? 0).
#[export] Instance truthy_nat : Truthy nat := fun n => negb (Nat.eqb n 0).
#[export] Instance truthy_string : Truthy string :=
  fun s => match s with EmptyString => false | _ => true end.
#[export] Instance truthy_jstext : Truthy jstext :=
  fun t => match t with Text s => truthy s | _ => true end.
#[export] Instance truthy_field {A} `{Truthy A} : Truthy (field A) :=
  fun x => match x with Val a => truthy a | _ => false end.

(** [x || y] *)
Definition or_else {A} `{Truthy A} (x y : A) : A :=
  if truthy x then x else y.

(** [x || d] where [d] is a literal of the payload type. *)
Definition or_default {A} `{Truthy A} (x : field A) (d : A) : A :=
  match x with
  | Val a => if truthy a then a else d
  | _ => d
  end.

(** [x !== undefined ? x : d] *)
Definition unless_undefined {A} (x : field A) (d : A) : field A :=
  match x with
  | Absent => Val d
  | _ => x
  end.

(** [x === undefined] *)
Definition is_undefined {A} (x : field A) : bool :=
  match x with
  | Absent => true
  | _ => false
  end.

(** A [Date] object: [Invalid Date], or an instant in milliseconds. *)
Inductive Date : Type :=
| InvalidDate
| ValidDate (ms : Z).

Definition msPerDay : Z := 86400000.

(** [new Date(v)] for a property [v]. *)
Definition newDate (v : field jstext) : Date :=
  match v with
  | Absent => InvalidDate
  | Null => ValidDate 0
  | Val (IsoInstant ms) => ValidDate ms
  | Val (IsoDay d) => ValidDate (d * msPerDay)
  | Val (Text _) => InvalidDate
  end.

(** [new Date(0)] *)
Definition epoch : Date := ValidDate 0.

(** [isNaN(d.getTime())] *)
Definition isNaN_getTime (d : Date) : bool :=
  match d with
  | InvalidDate => true
  | ValidDate _ => false
  end.

(** [a > b] on two [Date] objects: a comparison with [NaN] is false. *)
Definition date_gt (a b : Date) : bool :=
  match a, b with
  | ValidDate x, ValidDate y => y <? x
  | _, _ => false
  end.

(** Exceptions that the modelled code can raise. *)
Inductive exn : Type :=
| RangeError_invalid_time
| ReferenceError_db
| PoolNotInitialized
| PgError (detail : string)
| NetworkError (detail : string).

(** [error.message] *)
Definition message (e : exn) : string :=
  match e with
  | RangeError_invalid_time => "Invalid time value"
  | ReferenceError_db => "db is not defined"
  | PoolNotInitialized => "Database pool not initialized."
  | PgError d => d
  | NetworkError d => d
  end.

Inductive result (A : Type) : Type :=
| Return (a : A)
| Throw (e : exn).
Arguments Return {A} a.
Arguments Throw {A} e.

(** [d.toISOString()]: the instant of a valid date, [RangeError] otherwise. *)
Definition toISOString (d : Date) : result Z :=
  match d with
  | InvalidDate => Throw RangeError_invalid_time
  | ValidDate ms => Return ms
  end.

(** The day of [d.toISOString().split('T')[0]], counted from the epoch. *)
Definition isoDayOf (ms : Z) : Z := ms / msPerDay.

(** [x ? new Date(x).toISOString() : null], as the code does in two steps. *)
Definition optional_instant (x : field jstext) : result (option Z) :=
  if truthy x then
    match toISOString (newDate x) with
    | Return ms => Return (Some ms)
    | Throw e => Throw e
    end
  else Return None.

(** [new Date(v).toISOString().split('T')[0]] *)
Definition isoDay (v : field jstext) : result Z :=
  match toISOString (newDate v) with
  | Return ms => Return (isoDayOf ms)
  | Throw e => Throw e
  end.

(** [xs.map(f)] for an [f] that may throw. *)
Fixpoint map_throwing {A B} (f : A -> result B) (xs : list A) : result (list B) :=
  match xs with
  | [] => Return []
  | x :: xs' =>
    match f x with
    | Throw e => Throw e
    | Return y =>
      match map_throwing f xs' with
      | Throw e => Throw e
      | Return ys => Return (y :: ys)
      end
    end
  end.

(** [new Set(days)], in insertion order. *)
Definition new_Set (days : list Z) : list Z :=
  fold_left (fun seen d => if existsb (Z.eqb d) seen then seen else seen ++ [d])
    days [].

End JS.
Import JS.

(** ** The store, and computations over it *)

(** Nullable columns hold [None] for SQL [NULL]; the driver sends both
    [undefined] and [null] as [NULL]. *)
Definition pg_param {A} (x : field A) : option A :=
  match x with
  | Val a => Some a
  | _ => None
  end.

(** The rows of [init.sql], with the columns the sync code writes.  The
    generated [id] is a number taken from a counter; a [TIMESTAMP WITH TIME
    ZONE] is the instant in milliseconds; the payload numbers are integers
    (the scale of the [DECIMAL] columns is not modelled); the columns
    [created_at] and [updated_at], which only the server clock fills, are
    left out. *)
Record LimitlessEntryRow : Type := mkLimitlessEntryRow {
  le_id : nat;
  le_title : option string;
  le_markdown_content : option string;
  le_start_time : Z;
  le_end_time : Z;
  le_is_starred : option bool
}.

Record ContentNodeRow : Type := mkContentNodeRow {
  cn_id : nat;
  cn_entry_id : nat;
  cn_parent_id : option nat;
  cn_node_type : string;
  cn_content : option string;
  cn_start_time : option Z;
  cn_end_time : option Z;
  cn_start_offset_ms : option Z;
  cn_end_offset_ms : option Z;
  cn_speaker_name : option string;
  cn_speaker_identifier : option string
}.

Record ConversationRow : Type := mkConversationRow {
  bc_id : nat;
  bc_start_time : Z;
  bc_end_time : Z;
  bc_device_type : option string;
  bc_summary : option string;
  bc_short_summary : option string;
  bc_state : option string;
  bc_primary_location : option string
}.

Record UtteranceRow : Type := mkUtteranceRow {
  bu_id : nat;
  bu_speaker : string;
  bu_text : string;
  bu_start_seconds : option Z;
  bu_end_seconds : option Z;
  bu_spoken_at : Z;
  bu_is_realtime : option bool
}.

Record FactRow : Type := mkFactRow {
  bf_id : nat;
  bf_content : string;
  bf_is_confirmed : option bool
}.

Record TodoRow : Type := mkTodoRow {
  bt_id : nat;
  bt_text : string;
  bt_alarm_at : option Z;
  bt_completed : option bool
}.

Record LocationRow : Type := mkLocationRow {
  bl_id : nat;
  bl_latitude : Z;
  bl_longitude : Z;
  bl_address : option string;
  bl_recorded_at : option Z
}.

Record DailyRow : Type := mkDailyRow {
  has_limitless_data : option bool;
  has_bee_data : option bool;
  has_weather_data : option bool;
  has_mood_data : option bool;
  limitless_entry_count : option Z;
  bee_conversation_count : option Z
}.

(** The PostgreSQL database behind [DatabaseManager]: whether the pool was
    created, a counter standing for [gen_random_uuid()], and the tables of
    [init.sql] that the sync code touches.  A table with a [UNIQUE]
    constraint is a map from the constrained columns to the row. *)
Record Db : Type := mkDb {
  pool : bool;
  next_id : nat;
  limitless_entries : gmap string LimitlessEntryRow;
  limitless_content_nodes : list ContentNodeRow;
  bee_conversations : gmap Z ConversationRow;
  bee_utterances : gmap (nat * Z) UtteranceRow;
  bee_facts : gmap Z FactRow;
  bee_todos : gmap Z TodoRow;
  bee_locations : gmap Z LocationRow;
  daily_aggregations : gmap Z DailyRow;
  system_metadata : gmap string jstext
}.

Definition emptyDb : Db :=
  mkDb true 0 ∅ [] ∅ ∅ ∅ ∅ ∅ ∅ ∅.

(** An asynchronous method: it runs from a store, leaves a store (also when
    it throws: nothing is rolled back) and returns or throws. *)
Definition M (A : Type) : Type := Db -> Db * result A.

Definition ret {A} (a : A) : M A := fun s => (s, Return a).

Definition throw {A} (e : exn) : M A := fun s => (s, Throw e).

Definition bind {A B} (m : M A) (k : A -> M B) : M B :=
  fun s =>
    match m s with
    | (s', Return a) => k a s'
    | (s', Throw e) => (s', Throw e)
    end.

(** [try { m } catch (e) { h e }] *)
Definition try_catch {A} (m : M A) (h : exn -> M A) : M A :=
  fun s =>
    match m s with
    | (s', Return a) => (s', Return a)
    | (s', Throw e) => h e s'
    end.

(** A pure expression that may throw, evaluated inside a method. *)
Definition lift {A} (r : result A) : M A := fun s => (s, r).

Notation "'let*' x ':=' m 'in' k" := (bind m (fun x => k))
  (at level 10, x pattern, m at level 200, k at level 200).
Notation "m ';;' k" := (bind m (fun _ => k))
  (at level 100, k at level 200, right associativity).

(** [for (const x of l) { acc = body acc x }] *)
Fixpoint for_of {A St} (body : St -> A -> M St) (acc : St) (l : list A) : M St :=
  match l with
  | [] => ret acc
  | x :: l' => let* acc' := body acc x in for_of body acc' l'
  end.

Definition store_after {A} (r : Db * result A) : Db := fst r.
Definition outcome {A} (r : Db * result A) : result A := snd r.

(** ** DatabaseManager.js and the statements the connectors send *)

Module DatabaseManager.

Definition set_next_id (n : nat) (s : Db) : Db :=
  mkDb (pool s) n (limitless_entries s) (limitless_content_nodes s)
    (bee_conversations s) (bee_utterances s) (bee_facts s) (bee_todos s)
    (bee_locations s) (daily_aggregations s) (system_metadata s).

Definition set_limitless_entries (t : gmap string LimitlessEntryRow) (s : Db) : Db :=
  mkDb (pool s) (next_id s) t (limitless_content_nodes s)
    (bee_conversations s) (bee_utterances s) (bee_facts s) (bee_todos s)
    (bee_locations s) (daily_aggregations s) (system_metadata s).

Definition set_limitless_content_nodes (t : list ContentNodeRow) (s : Db) : Db :=
  mkDb (pool s) (next_id s) (limitless_entries s) t
    (bee_conversations s) (bee_utterances s) (bee_facts s) (bee_todos s)
    (bee_locations s) (daily_aggregations s) (system_metadata s).

Definition set_bee_conversations (t : gmap Z ConversationRow) (s : Db) : Db :=
  mkDb (pool s) (next_id s) (limitless_entries s) (limitless_content_nodes s)
    t (bee_utterances s) (bee_facts s) (bee_todos s)
    (bee_locations s) (daily_aggregations s) (system_metadata s).

Definition set_bee_utterances (t : gmap (nat * Z) UtteranceRow) (s : Db) : Db :=
  mkDb (pool s) (next_id s) (limitless_entries s) (limitless_content_nodes s)
    (bee_conversations s) t (bee_facts s) (bee_todos s)
    (bee_locations s) (daily_aggregations s) (system_metadata s).

Definition set_bee_facts (t : gmap Z FactRow) (s : Db) : Db :=
  mkDb (pool s) (next_id s) (limitless_entries s) (limitless_content_nodes s)
    (bee_conversations s) (bee_utterances s) t (bee_todos s)
    (bee_locations s) (daily_aggregations s) (system_metadata s).

Definition set_bee_todos (t : gmap Z TodoRow) (s : Db) : Db :=
  mkDb (pool s) (next_id s) (limitless_entries s) (limitless_content_nodes s)
    (bee_conversations s) (bee_utterances s) (bee_facts s) t
    (bee_locations s) (daily_aggregations s) (system_metadata s).

Definition set_bee_locations (t : gmap Z LocationRow) (s : Db) : Db :=
  mkDb (pool s) (next_id s) (limitless_entries s) (limitless_content_nodes s)
    (bee_conversations s) (bee_utterances s) (bee_facts s) (bee_todos s)
    t (daily_aggregations s) (system_metadata s).

Definition set_daily_aggregations (t : gmap Z DailyRow) (s : Db) : Db :=
  mkDb (pool s) (next_id s) (limitless_entries s) (limitless_content_nodes s)
    (bee_conversations s) (bee_utterances s) (bee_facts s) (bee_todos s)
    (bee_locations s) t (system_metadata s).

Definition set_system_metadata (t : gmap string jstext) (s : Db) : Db :=
  mkDb (pool s) (next_id s) (limitless_entries s) (limitless_content_nodes s)
    (bee_conversations s) (bee_utterances s) (bee_facts s) (bee_todos s)
    (bee_locations s) (daily_aggregations s) t.

(** [query(text, params)]: throws when the pool was never created,
    otherwise runs the statement; an error of the server is re-thrown. *)
Definition query {A} (statement : M A) : M A :=
  fun s => if pool s then statement s else (s, Throw PoolNotInitialized).

(** Column checks of the schema: [VARCHAR(n)], [INTEGER], [BIGINT]; the
    statements below also check [NOT NULL].  The foreign key of
    [bee_utterances] needs no check: the conversation id the code sends
    comes from the [RETURNING] clause of the statement that wrote the
    conversation.  Those of [limitless_content_nodes] are checked by
    [insert_content_node]. *)
Definition varchar (n : nat) (v : option string) : bool :=
  match v with
  | Some t => Nat.leb (String.length t) n
  | None => true
  end.

Definition integer (v : option Z) : bool :=
  match v with
  | Some z => (-2147483648 <=? z) && (z <=? 2147483647)
  | None => true
  end.

Definition bigint (z : Z) : bool :=
  (-9223372036854775808 <=? z) && (z <=? 9223372036854775807).

Definition pg_reject {A} (why : string) : M A := throw (PgError why).

(** [INSERT INTO limitless_entries ... ON CONFLICT (limitless_id) DO UPDATE
    SET ... RETURNING id, (xmax = 0) AS inserted] *)
Definition upsert_limitless_entry (limitless_id : field string)
    (title markdown_content : field string) (start_time end_time : Z)
    (is_starred : bool) : M (nat * bool) :=
  query (fun s =>
    match pg_param limitless_id with
    | None => pg_reject "null value in column limitless_id" s
    | Some k =>
      if negb (varchar 255 (Some k)) then pg_reject "value too long" s
      else
        match limitless_entries s !! k with
        | Some old =>
          let row := mkLimitlessEntryRow (le_id old) (pg_param title)
                       (pg_param markdown_content) start_time end_time
                       (Some is_starred) in
          (set_limitless_entries (<[k := row]> (limitless_entries s)) s,
           Return (le_id old, false))
        | None =>
          let row := mkLimitlessEntryRow (next_id s) (pg_param title)
                       (pg_param markdown_content) start_time end_time
                       (Some is_starred) in
          (set_limitless_entries (<[k := row]> (limitless_entries s))
             (set_next_id (S (next_id s)) s),
           Return (next_id s, true))
        end
    end).

(** [entry_id UUID REFERENCES limitless_entries(id)]: some entry has the
    id. *)
Definition references_entry (entry_id : nat) (s : Db) : bool :=
  existsb (fun entry => Nat.eqb (le_id (snd entry)) entry_id)
    (map_to_list (limitless_entries s)).

(** [parent_id UUID REFERENCES limitless_content_nodes(id)]: the id is
    [NULL], or some content node has it. *)
Definition references_content_node (parent_id : option nat) (s : Db) : bool :=
  match parent_id with
  | None => true
  | Some id => existsb (fun row => Nat.eqb (cn_id row) id) (limitless_content_nodes s)
  end.

(** [INSERT INTO limitless_content_nodes (...) VALUES (...) RETURNING id]:
    the table has no unique constraint besides its generated id. *)
Definition insert_content_node (entry_id : nat) (parent_id : option nat)
    (node_type : string) (content : field string)
    (start_time end_time : option Z) (start_offset_ms end_offset_ms : field Z)
    (speaker_name speaker_identifier : field string) : M nat :=
  query (fun s =>
    if negb (varchar 50 (Some node_type)
             && varchar 255 (pg_param speaker_name)
             && varchar 50 (pg_param speaker_identifier))
    then pg_reject "value too long" s
    else if negb (integer (pg_param start_offset_ms)
                  && integer (pg_param end_offset_ms))
    then pg_reject "integer out of range" s
    else if negb (references_entry entry_id s && references_content_node parent_id s)
    then pg_reject "violates foreign key constraint" s
    else
      let row := mkContentNodeRow (next_id s) entry_id parent_id node_type
                   (pg_param content) start_time end_time
                   (pg_param start_offset_ms) (pg_param end_offset_ms)
                   (pg_param speaker_name) (pg_param speaker_identifier) in
      (set_limitless_content_nodes (limitless_content_nodes s ++ [row])
         (set_next_id (S (next_id s)) s),
       Return (next_id s))).

(** [INSERT INTO bee_conversations ... ON CONFLICT (bee_id) DO UPDATE SET
    ... RETURNING id, (xmax = 0) AS inserted] *)
Definition upsert_conversation (bee_id : field Z) (start_time end_time : Z)
    (device_type summary short_summary state : field string)
    (primary_location : option string) : M (nat * bool) :=
  query (fun s =>
    match pg_param bee_id with
    | None => pg_reject "null value in column bee_id" s
    | Some k =>
      if negb (bigint k) then pg_reject "bigint out of range" s
      else if negb (varchar 50 (pg_param device_type)
                    && varchar 50 (pg_param state))
      then pg_reject "value too long" s
      else
        match bee_conversations s !! k with
        | Some old =>
          let row := mkConversationRow (bc_id old) start_time end_time
                       (pg_param device_type) (pg_param summary)
                       (pg_param short_summary) (pg_param state)
                       primary_location in
          (set_bee_conversations (<[k := row]> (bee_conversations s)) s,
           Return (bc_id old, false))
        | None =>
          let row := mkConversationRow (next_id s) start_time end_time
                       (pg_param device_type) (pg_param summary)
                       (pg_param short_summary) (pg_param state)
                       primary_location in
          (set_bee_conversations (<[k := row]> (bee_conversations s))
             (set_next_id (S (next_id s)) s),
           Return (next_id s, true))
        end
    end).

(** [INSERT INTO bee_utterances (...) VALUES (...)
    ON CONFLICT (conversation_id, bee_utterance_id) DO NOTHING] *)
Definition insert_utterance (conversation_id : nat) (bee_utterance_id : field Z)
    (speaker text : field string) (start_seconds end_seconds : field Z)
    (spoken_at : Z) (is_realtime : field bool) : M unit :=
  query (fun s =>
    match pg_param bee_utterance_id, pg_param speaker, pg_param text with
    | Some k, Some sp, Some tx =>
      if negb (bigint k) then pg_reject "bigint out of range" s
      else if negb (varchar 10 (Some sp)) then pg_reject "value too long" s
      else
        match bee_utterances s !! (conversation_id, k) with
        | Some _ => (s, Return tt)
        | None =>
          let row := mkUtteranceRow (next_id s) sp tx (pg_param start_seconds)
                       (pg_param end_seconds) spoken_at (pg_param is_realtime) in
          (set_bee_utterances (<[(conversation_id, k) := row]> (bee_utterances s))
             (set_next_id (S (next_id s)) s),
           Return tt)
        end
    | _, _, _ => pg_reject "null value in a NOT NULL column" s
    end).

(** [INSERT INTO bee_facts ... ON CONFLICT (bee_id) DO UPDATE SET ...
    RETURNING (xmax = 0) AS inserted] *)
Definition upsert_fact (bee_id : field Z) (content : field string)
    (is_confirmed : field bool) : M bool :=
  query (fun s =>
    match pg_param bee_id, pg_param content with
    | Some k, Some c =>
      if negb (bigint k) then pg_reject "bigint out of range" s
      else
        match bee_facts s !! k with
        | Some old =>
          (set_bee_facts
             (<[k := mkFactRow (bf_id old) c (pg_param is_confirmed)]> (bee_facts s)) s,
           Return false)
        | None =>
          (set_bee_facts
             (<[k := mkFactRow (next_id s) c (pg_param is_confirmed)]> (bee_facts s))
             (set_next_id (S (next_id s)) s),
           Return true)
        end
    | _, _ => pg_reject "null value in a NOT NULL column" s
    end).

(** [INSERT INTO bee_todos ... ON CONFLICT (bee_id) DO UPDATE SET ...
    RETURNING (xmax = 0) AS inserted] *)
Definition upsert_todo (bee_id : field Z) (text : field string)
    (alarm_at : option Z) (completed : bool) : M bool :=
  query (fun s =>
    match pg_param bee_id, pg_param text with
    | Some k, Some t =>
      if negb (bigint k) then pg_reject "bigint out of range" s
      else
        match bee_todos s !! k with
        | Some old =>
          (set_bee_todos
             (<[k := mkTodoRow (bt_id old) t alarm_at (Some completed)]> (bee_todos s)) s,
           Return false)
        | None =>
          (set_bee_todos
             (<[k := mkTodoRow (next_id s) t alarm_at (Some completed)]> (bee_todos s))
             (set_next_id (S (next_id s)) s),
           Return true)
        end
    | _, _ => pg_reject "null value in a NOT NULL column" s
    end).

(** [INSERT INTO bee_locations ... ON CONFLICT (bee_id) DO UPDATE SET ...
    RETURNING (xmax = 0) AS inserted]: the answer always has one row. *)
Definition upsert_location (bee_id : field Z) (latitude longitude : field Z)
    (address : field string) (recorded_at : Z) : M (nat * bool) :=
  query (fun s =>
    match pg_param bee_id, pg_param latitude, pg_param longitude with
    | Some k, Some la, Some lo =>
      if negb (bigint k) then pg_reject "bigint out of range" s
      else
        match bee_locations s !! k with
        | Some old =>
          (set_bee_locations
             (<[k := mkLocationRow (bl_id old) la lo (pg_param address)
                       (Some recorded_at)]> (bee_locations s)) s,
           Return (1%nat, false))
        | None =>
          (set_bee_locations
             (<[k := mkLocationRow (next_id s) la lo (pg_param address)
                       (Some recorded_at)]> (bee_locations s))
             (set_next_id (S (next_id s)) s),
           Return (1%nat, true))
        end
    | _, _, _ => pg_reject "null value in a NOT NULL column" s
    end).

(** [SELECT value FROM system_metadata WHERE key = $1] *)
Definition select_metadata (key : string) : M (option jstext) :=
  query (fun s => (s, Return (system_metadata s !! key))).

(** [INSERT INTO system_metadata (key, value) VALUES ($1, $2)
    ON CONFLICT (key) DO UPDATE SET value = $2, updated_at = NOW()] *)
Definition upsert_metadata (key : string) (value : jstext) : M unit :=
  query (fun s =>
    if negb (varchar 255 (Some key)) then pg_reject "value too long" s
    else (set_system_metadata (<[key := value]> (system_metadata s)) s, Return tt)).

End DatabaseManager.

(** ** BaseConnector.js *)

Module BaseConnector.
Import DatabaseManager.

(** [config.dataSources.<name>]: the parts the connectors read. *)
Record SourceConfig : Type := mkSourceConfig {
  enabled : field bool;
  apiKey : field string;
  sub_conversations : bool;
  sub_facts : bool;
  sub_todos : bool;
  sub_locations : bool
}.

(** The [options] object of [sync], [fetchData] and [processData]. *)
Record Options : Type := mkOptions {
  forceFullSync : bool;
  cursor : field string;
  limit : field nat;
  maxPages : field nat;
  page : field nat
}.

Definition noOptions : Options := mkOptions false Absent Absent Absent Absent.

(** What [processData] returns. *)
Record ProcessResult : Type := mkProcessResult {
  newEntries : nat;
  updatedEntries : nat;
  errors : nat
}.

(** What [sync] returns. *)
Record SyncResult : Type := mkSyncResult {
  success : bool;
  sync_message : option string;
  counts : ProcessResult
}.

Definition count_new (c : ProcessResult) : ProcessResult :=
  mkProcessResult (S (newEntries c)) (updatedEntries c) (errors c).

Definition count_updated (c : ProcessResult) : ProcessResult :=
  mkProcessResult (newEntries c) (S (updatedEntries c)) (errors c).

Definition count_error (c : ProcessResult) : ProcessResult :=
  mkProcessResult (newEntries c) (updatedEntries c) (S (errors c)).

(** [isEnabled()]: [this.sourceConfig.enabled === true] *)
Definition isEnabled (cfg : SourceConfig) : bool :=
  match enabled cfg with
  | Val true => true
  | _ => false
  end.

Definition metadata_key (sourceName : string) : string :=
  "last_sync_time_" +:+ sourceName.

(** [getLastSyncTime()] *)
Definition getLastSyncTime (sourceName : string) : M Date :=
  let* rows := select_metadata (metadata_key sourceName) in
  match rows with
  | Some value => ret (newDate (Val value))
  | None => ret epoch
  end.

(** [updateLastSyncTime(syncTime)]: the stored value is overwritten with
    the text of [syncTime]; nothing compares it with the value in place. *)
Definition updateLastSyncTime (sourceName : string) (syncTime : Date) : M unit :=
  let* iso := lift (toISOString syncTime) in
  upsert_metadata (metadata_key sourceName) (IsoInstant iso).

(** [sync(options)], for a subclass that supplies [fetchData] and
    [processData]. *)
Definition sync {Raw : Type} (sourceName : string) (cfg : SourceConfig)
    (fetchData : Options -> M (option Raw))
    (processData : Raw -> Options -> M ProcessResult)
    (options : Options) : M SyncResult :=
  if negb (isEnabled cfg) then
    ret (mkSyncResult false (Some (sourceName +:+ " is disabled."))
           (mkProcessResult 0 0 0))
  else
    try_catch
      (let* rawData := fetchData options in
       match rawData with
       | Some data =>
         let* processResult := processData data options in
         ret (mkSyncResult true None processResult)
       | None =>
         ret (mkSyncResult true (Some "No new data fetched.")
                (mkProcessResult 0 0 0))
       end)
      (fun error =>
         ret (mkSyncResult false (Some (message error)) (mkProcessResult 0 0 1))).

End BaseConnector.

(** ** DataProcessor.js *)

Module DataProcessor.
Import DatabaseManager.

(** Whether a module has a binding for the identifier [db].  In
    [DataProcessor.js] the line
    [// const db = require('../storage/DatabaseManager');] is a comment, and
    nothing else declares [db]. *)
Inductive binding : Type :=
| Unbound
| Bound.

Definition db : binding := Unbound.

Inductive flag_column : Type :=
| has_limitless_data_col
| has_bee_data_col
| has_weather_data_col
| has_mood_data_col.

Inductive count_column : Type :=
| limitless_entry_count_col
| bee_conversation_count_col.

(** The [switch (sourceType)]: the columns to update, or [None] for the
    [default] case. *)
Definition columns_of (sourceType : string)
    : option (flag_column * option count_column) :=
  if String.eqb sourceType "limitless" then
    Some (has_limitless_data_col, Some limitless_entry_count_col)
  else if String.eqb sourceType "bee" then
    Some (has_bee_data_col, Some bee_conversation_count_col)
  else if String.eqb sourceType "weather" then
    Some (has_weather_data_col, None)
  else if String.eqb sourceType "mood" then
    Some (has_mood_data_col, None)
  else None.

(** A fresh row of [daily_aggregations] with the column defaults. *)
Definition default_row : DailyRow :=
  mkDailyRow (Some false) (Some false) (Some false) (Some false) (Some 0) (Some 0).

Definition set_flag (c : flag_column) (v : option bool) (r : DailyRow) : DailyRow :=
  match c with
  | has_limitless_data_col =>
    mkDailyRow v (has_bee_data r) (has_weather_data r) (has_mood_data r)
      (limitless_entry_count r) (bee_conversation_count r)
  | has_bee_data_col =>
    mkDailyRow (has_limitless_data r) v (has_weather_data r) (has_mood_data r)
      (limitless_entry_count r) (bee_conversation_count r)
  | has_weather_data_col =>
    mkDailyRow (has_limitless_data r) (has_bee_data r) v (has_mood_data r)
      (limitless_entry_count r) (bee_conversation_count r)
  | has_mood_data_col =>
    mkDailyRow (has_limitless_data r) (has_bee_data r) (has_weather_data r) v
      (limitless_entry_count r) (bee_conversation_count r)
  end.

Definition get_count (c : count_column) (r : DailyRow) : option Z :=
  match c with
  | limitless_entry_count_col => limitless_entry_count r
  | bee_conversation_count_col => bee_conversation_count r
  end.

Definition set_count (c : count_column) (v : option Z) (r : DailyRow) : DailyRow :=
  match c with
  | limitless_entry_count_col =>
    mkDailyRow (has_limitless_data r) (has_bee_data r) (has_weather_data r)
      (has_mood_data r) v (bee_conversation_count r)
  | bee_conversation_count_col =>
    mkDailyRow (has_limitless_data r) (has_bee_data r) (has_weather_data r)
      (has_mood_data r) (limitless_entry_count r) v
  end.

(** [COALESCE(x, 0)] *)
Definition coalesce0 (x : option Z) : Z :=
  match x with
  | Some z => z
  | None => 0
  end.

(** The statement built in [updateQuery]:
    [INSERT INTO daily_aggregations (date, flag [, count]) VALUES ($1, $2 [, $3])
    ON CONFLICT (date) DO UPDATE SET flag = EXCLUDED.flag
    [, count = GREATEST(COALESCE(daily_aggregations.count, 0), EXCLUDED.count)]]. *)
Definition updateQuery (formattedDate : Z) (fieldToUpdate : flag_column)
    (countFieldToUpdate : option count_column) (flag : bool) (count : Z) : M unit :=
  query (fun s =>
    if match countFieldToUpdate with
       | Some _ => negb (integer (Some count))
       | None => false
       end
    then pg_reject "integer out of range" s
    else
      let row :=
        match daily_aggregations s !! formattedDate with
        | None =>
          let r := set_flag fieldToUpdate (Some flag) default_row in
          match countFieldToUpdate with
          | Some c => set_count c (Some count) r
          | None => r
          end
        | Some old =>
          let r := set_flag fieldToUpdate (Some flag) old in
          match countFieldToUpdate with
          | Some c => set_count c (Some (Z.max (coalesce0 (get_count c old)) count)) r
          | None => r
          end
        end in
      (set_daily_aggregations (<[formattedDate := row]> (daily_aggregations s)) s,
       Return tt)).

(** [updateDailyAggregation(date, sourceType, itemCount)], in a module
    whose identifier [db] has the given binding. *)
Definition updateDailyAggregation_in (db : binding) (date : field jstext)
    (sourceType : field string) (itemCount : Z) : M unit :=
  if negb (truthy date) || negb (truthy sourceType) then ret tt
  else
    let* instant := lift (toISOString (newDate date)) in
    let formattedDate := isoDayOf instant in
    match columns_of (or_default sourceType "") with
    | None => ret tt
    | Some (fieldToUpdate, countFieldToUpdate) =>
      try_catch
        (let count := if 0 <? itemCount then itemCount else 0 in
         match db with
         | Unbound => throw ReferenceError_db
         | Bound => updateQuery formattedDate fieldToUpdate countFieldToUpdate true count
         end)
        (fun _ => ret tt)
    end.

(** [updateDailyAggregation] as [DataProcessor.js] has it. *)
Definition updateDailyAggregation : field jstext -> field string -> Z -> M unit :=
  updateDailyAggregation_in db.

(** The [for (const date of affectedDates)] loop with which both connectors
    call [updateDailyAggregation]: the count of the batch's records on that
    day goes to the rollup. *)
Fixpoint rollup_days (source : string) (days : list Z) (affectedDates : list Z) : M unit :=
  match affectedDates with
  | [] => ret tt
  | date :: rest =>
    let entriesOnDate := Z.of_nat (List.length (List.filter (Z.eqb date) days)) in
    (if 0 <? entriesOnDate
     then updateDailyAggregation (Val (IsoDay date)) (Val source)
            entriesOnDate
     else ret tt) ;;
    rollup_days source days rest
  end.

End DataProcessor.

(** ** LimitlessConnector.js *)

Module LimitlessConnector.
Import DatabaseManager BaseConnector.

Definition sourceName : string := "limitless".

(** The scalar properties of a content node that the connector reads. *)
Record NodeFields : Type := mkNodeFields {
  n_node_type : field string;
  n_type : field string;
  n_content : field string;
  n_text : field string;
  n_start_time : field jstext;
  n_end_time : field jstext;
  n_start_offset_ms : field Z;
  n_startOffsetMs : field Z;
  n_end_offset_ms : field Z;
  n_endOffsetMs : field Z;
  n_speaker_name : field string;
  n_speakerName : field string;
  n_speaker_identifier : field string;
  n_speakerIdentifier : field string
}.

(** A content node with its [children] array (empty when the node has
    none: the code treats a missing and an empty array alike). *)
Inductive ContentNode : Type :=
| Node (f : NodeFields) (children : list ContentNode).

(** A lifelog as [GET /lifelogs] delivers it. *)
Record Lifelog : Type := mkLifelog {
  l_id : field string;
  l_title : field string;
  l_markdown_content : field string;
  l_contents : list ContentNode;
  l_start_time : field jstext;
  l_startTime : field jstext;
  l_created_at : field jstext;
  l_end_time : field jstext;
  l_endTime : field jstext;
  l_updated_at : field jstext;
  l_is_starred : field bool;
  l_isStarred : field bool
}.

(** The body of a response: the array found under [lifelogs], [data] or
    at the top, and the two places a next cursor may be in. *)
Record LifelogsResponse : Type := mkLifelogsResponse {
  r_lifelogs : list Lifelog;
  r_nextCursor : field string;
  r_pagination_next_cursor : field string
}.

Inductive http (A : Type) : Type :=
| Failed (detail : string)
| Ok (data : A).
Arguments Failed {A} detail.
Arguments Ok {A} data.

(** [apiClient.get('/lifelogs', { params: { limit, cursor } })] *)
Definition Api : Type := field string -> nat -> http LifelogsResponse.

(** What the pagination loop did: the requests it sent (their cursors, in
    order) and how it ended. *)
Record Walk : Type := mkWalk {
  requests : list (field string);
  fetched : result (list Lifelog)
}.

Definition sent (c : field string) (w : Walk) : Walk :=
  mkWalk (c :: requests w) (fetched w).

(** The [do { ... } while (cursor)] loop of [fetchData].  [fuel] bounds the
    iterations of the model; [fetch_loop_fuel] shows that [maxPages] of it
    is never used up. *)
Fixpoint fetch_loop (api : Api) (limit maxPages : nat) (fuel : nat)
    (cursor : field string) (page : nat) (allLifelogs : list Lifelog)
    : option Walk :=
  match fuel with
  | O => None
  | S fuel' =>
    match api cursor limit with
    | Failed detail => Some (mkWalk [cursor] (Throw (NetworkError detail)))
    | Ok response =>
      let lifelogs := r_lifelogs response in
      match lifelogs with
      | [] => Some (mkWalk [cursor] (Return allLifelogs))
      | _ :: _ =>
        let allLifelogs := allLifelogs ++ lifelogs in
        let cursor' := or_else (r_nextCursor response)
                         (r_pagination_next_cursor response) in
        if negb (truthy cursor') && Nat.ltb (List.length lifelogs) limit
        then Some (mkWalk [cursor] (Return allLifelogs))
        else
          let page := S page in
          if Nat.ltb maxPages page
          then Some (mkWalk [cursor] (Return allLifelogs))
          else if truthy cursor'
          then sent cursor <$> fetch_loop api limit maxPages fuel' cursor' page allLifelogs
          else Some (mkWalk [cursor] (Return allLifelogs))
      end
    end
  end.

(** The loop as [fetchData] starts it: [page = 1], nothing accumulated.
    The second branch of the [match] is never taken ([fetch_loop_fuel]). *)
Definition fetch_walk (api : Api) (options : Options) : Walk :=
  let limit := or_default (limit options) 50%nat in
  let maxPages := or_default (maxPages options) 10%nat in
  match fetch_loop api limit maxPages maxPages (cursor options) 1 [] with
  | Some w => w
  | None => mkWalk [] (Return [])
  end.

(** [fetchData(options)] *)
Definition fetchData (cfg : SourceConfig) (api : Api) (options : Options)
    : M (option (list Lifelog)) :=
  if negb (isEnabled cfg) || negb (truthy (apiKey cfg)) then ret None
  else
    let* lastSyncTime :=
      if forceFullSync options then ret epoch else getLastSyncTime sourceName in
    let* _ := lift (toISOString lastSyncTime) in
    match fetched (fetch_walk api options) with
    | Return allLifelogs => ret (Some allLifelogs)
    | Throw error => throw error
    end.

(** One turn of the loop of [processContentNodes]: the node, then its
    children under the id the store gave it. *)
Fixpoint processContentNode (entryId : nat) (parentNodeDbId : option nat)
    (node : ContentNode) {struct node} : M unit :=
  match node with
  | Node f children =>
    try_catch
      (let node_type := or_default (or_else (n_node_type f) (n_type f)) "unknown" in
       let content := or_else (n_content f) (n_text f) in
       let* start_time := lift (optional_instant (n_start_time f)) in
       let* end_time := lift (optional_instant (n_end_time f)) in
       let start_offset_ms := or_else (n_start_offset_ms f) (n_startOffsetMs f) in
       let end_offset_ms := or_else (n_end_offset_ms f) (n_endOffsetMs f) in
       let speaker_name := or_else (n_speaker_name f) (n_speakerName f) in
       let speaker_identifier :=
         or_else (n_speaker_identifier f) (n_speakerIdentifier f) in
       let* contentNodeDbId :=
         insert_content_node entryId parentNodeDbId node_type content
           start_time end_time start_offset_ms end_offset_ms
           speaker_name speaker_identifier in
       (fix each (nodes : list ContentNode) : M unit :=
          match nodes with
          | [] => ret tt
          | child :: rest =>
            processContentNode entryId (Some contentNodeDbId) child ;; each rest
          end) children)
      (fun _ => ret tt)
  end.

(** [processContentNodes(contentNodes, entryId, parentNodeDbId)] *)
Fixpoint processContentNodes (contentNodes : list ContentNode) (entryId : nat)
    (parentNodeDbId : option nat) : M unit :=
  match contentNodes with
  | [] => ret tt
  | node :: rest =>
    processContentNode entryId parentNodeDbId node ;;
    processContentNodes rest entryId parentNodeDbId
  end.

(** [lifelog.start_time || lifelog.startTime || lifelog.created_at] *)
Definition start_of (lifelog : Lifelog) : field jstext :=
  or_else (or_else (l_start_time lifelog) (l_startTime lifelog)) (l_created_at lifelog).

(** [lifelog.end_time || lifelog.endTime || lifelog.updated_at] *)
Definition end_of (lifelog : Lifelog) : field jstext :=
  or_else (or_else (l_end_time lifelog) (l_endTime lifelog)) (l_updated_at lifelog).

(** [lifelog.contents?.find(c => c.type === 'markdown')?.content] *)
Definition markdown_of (contents : list ContentNode) : field string :=
  match
    List.find (fun c => match c with
                        | Node f _ =>
                          match n_type f with
                          | Val t => String.eqb t "markdown"
                          | _ => false
                          end
                        end) contents
  with
  | Some (Node f _) => n_content f
  | None => Absent
  end.

(** [lifelog.is_starred || lifelog.isStarred || false] *)
Definition is_starred_of (lifelog : Lifelog) : bool :=
  or_default (or_else (l_is_starred lifelog) (l_isStarred lifelog)) false.

(** The body of [for (const lifelog of lifelogs)] in [processData]: the
    counters go in and come out.  [processContentNodes] never throws
    ([processContentNodes_returns]), so no counter has moved when the
    [catch] runs. *)
Definition processLifelog (c : ProcessResult) (lifelog : Lifelog) : M ProcessResult :=
  try_catch
    (let limitless_id := l_id lifelog in
     let title := l_title lifelog in
     let markdown_content :=
       or_else (l_markdown_content lifelog) (markdown_of (l_contents lifelog)) in
     let start_time := newDate (start_of lifelog) in
     let end_time := newDate (end_of lifelog) in
     let is_starred := is_starred_of lifelog in
     if negb (truthy limitless_id) then ret (count_error c)
     else if isNaN_getTime start_time || isNaN_getTime end_time
     then ret (count_error c)
     else
       let* start_iso := lift (toISOString start_time) in
       let* end_iso := lift (toISOString end_time) in
       let* (dbEntryId, inserted) :=
         upsert_limitless_entry limitless_id title markdown_content
           start_iso end_iso is_starred in
       let c := if inserted : bool then count_new c else count_updated c in
       processContentNodes (l_contents lifelog) dbEntryId None ;;
       ret c)
    (fun _ => ret (count_error c)).

(** [new Date(item.updated_at || item.created_at || item.end_time || 0)] *)
Definition itemTime (item : Lifelog) : Date :=
  let v := or_else (or_else (l_updated_at item) (l_created_at item)) (l_end_time item) in
  if truthy v then newDate v else epoch.

(** The [reduce] that picks the latest [itemTime], from [new Date(0)]. *)
Definition latestEntryTime (lifelogs : list Lifelog) : Date :=
  fold_left (fun latest item =>
               if date_gt (itemTime item) latest then itemTime item else latest)
    lifelogs epoch.

(** [processData(lifelogs, options)] *)
Definition processData (lifelogs : list Lifelog) (options : Options) : M ProcessResult :=
  match lifelogs with
  | [] => ret (mkProcessResult 0 0 0)
  | _ :: _ =>
    let* c := for_of processLifelog (mkProcessResult 0 0 0) lifelogs in
    (if Nat.ltb 0 (List.length lifelogs)
        && (Nat.ltb 0 (newEntries c) || Nat.ltb 0 (updatedEntries c))
     then
       let latest := latestEntryTime lifelogs in
       (if date_gt latest epoch then updateLastSyncTime sourceName latest else ret tt) ;;
       let* days := lift (map_throwing (fun l => isoDay (start_of l)) lifelogs) in
       DataProcessor.rollup_days sourceName days (new_Set days)
     else ret tt) ;;
    ret c
  end.

(** [sync(options)], inherited from [BaseConnector]. *)
Definition sync (cfg : SourceConfig) (api : Api) (options : Options) : M SyncResult :=
  BaseConnector.sync sourceName cfg (fetchData cfg api) processData options.

End LimitlessConnector.

(** ** BeeConnector.js *)

Module BeeConnector.
Import DatabaseManager BaseConnector.

Definition sourceName : string := "bee".

Record Utterance : Type := mkUtterance {
  u_id : field Z;
  u_utterance_id : field Z;
  u_speaker : field string;
  u_text : field string;
  u_start_seconds : field Z;
  u_startOffsetSeconds : field Z;
  u_end_seconds : field Z;
  u_endOffsetSeconds : field Z;
  u_spoken_at : field jstext;
  u_timestamp : field jstext;
  u_is_realtime : field bool
}.

(** A conversation; [c_primary_location] is the JSON text of the object
    when there is one, and the two arrays are [None] when absent. *)
Record Conversation : Type := mkConversation {
  c_id : field Z;
  c_start_time : field jstext;
  c_startTime : field jstext;
  c_end_time : field jstext;
  c_endTime : field jstext;
  c_updated_at : field jstext;
  c_device_type : field string;
  c_deviceType : field string;
  c_summary : field string;
  c_short_summary : field string;
  c_shortSummary : field string;
  c_state : field string;
  c_primary_location : option string;
  c_transcriptions : option (list Utterance);
  c_utterances : option (list Utterance)
}.

Record Fact : Type := mkFact {
  f_id : field Z;
  f_content : field string;
  f_is_confirmed : field bool;
  f_updated_at : field jstext;
  f_created_at : field jstext
}.

Record Todo : Type := mkTodo {
  t_id : field Z;
  t_text : field string;
  t_alarm_at : field jstext;
  t_completed : field bool;
  t_updated_at : field jstext;
  t_created_at : field jstext
}.

Record Location : Type := mkLocation {
  loc_id : field Z;
  loc_latitude : field Z;
  loc_longitude : field Z;
  loc_address : field string;
  loc_recorded_at : field jstext;
  loc_timestamp : field jstext;
  loc_created_at : field jstext
}.

(** The [results] object of [fetchData]. *)
Record Data : Type := mkData {
  conversations : list Conversation;
  facts : list Fact;
  todos : list Todo;
  locations : list Location
}.

Inductive http (A : Type) : Type :=
| Failed (detail : string)
| Ok (data : A).
Arguments Failed {A} detail.
Arguments Ok {A} data.

(** The endpoints: the four lists by [page] and [limit], and
    [/conversations/<id>]. *)
Record Api : Type := mkApi {
  get_conversations : nat -> nat -> http (list Conversation);
  get_conversation : field Z -> http Conversation;
  get_facts : nat -> nat -> http (list Fact);
  get_todos : nat -> nat -> http (list Todo);
  get_locations : nat -> nat -> http (list Location)
}.

(** What the pagination loop did: the pages it asked for, in order, and
    the data it returns. *)
Record Walk (A : Type) : Type := mkWalk {
  requests : list nat;
  allData : list A
}.
Arguments mkWalk {A} requests allData.
Arguments requests {A} w.
Arguments allData {A} w.

Definition sent {A} (p : nat) (w : Walk A) : Walk A :=
  mkWalk (p :: requests w) (allData w).

(** The [while (keepFetching)] loop of [_fetchPaginatedData].  [fuel]
    bounds the iterations of the model; [paginate_fuel] shows that the
    amount [_fetchPaginatedData_walk] gives is never used up. *)
Fixpoint paginate {A} (get : nat -> nat -> http (list A)) (limit maxPages : nat)
    (fuel : nat) (page : nat) (allData : list A) : option (Walk A) :=
  match fuel with
  | O => None
  | S fuel' =>
    match get page limit with
    | Failed _ => Some (mkWalk [page] allData)
    | Ok responseData =>
      match responseData with
      | [] => Some (mkWalk [page] allData)
      | _ :: _ =>
        let allData := allData ++ responseData in
        if Nat.ltb (List.length responseData) limit
        then Some (mkWalk [page] allData)
        else
          let page' := S page in
          if Nat.ltb maxPages page'
          then Some (mkWalk [page] allData)
          else sent page <$> paginate get limit maxPages fuel' page' allData
      end
    end
  end.

(** The loop as [_fetchPaginatedData] starts it.  The second branch of the
    [match] is never taken ([paginate_fuel]). *)
Definition _fetchPaginatedData_walk {A} (get : nat -> nat -> http (list A))
    (options : Options) : Walk A :=
  let page := or_default (page options) 1%nat in
  let limit := or_default (limit options) 50%nat in
  let maxPages := or_default (maxPages options) 10%nat in
  match paginate get limit maxPages (S (maxPages - page)) page [] with
  | Some w => w
  | None => mkWalk [] []
  end.

(** [_fetchPaginatedData(endpoint, sinceTime, options, dataType)]; the
    text of [sinceTime] is only logged. *)
Definition _fetchPaginatedData {A} (get : nat -> nat -> http (list A))
    (sinceTime : Date) (options : Options) : result (list A) :=
  match toISOString sinceTime with
  | Throw e => Throw e
  | Return _ => Return (allData (_fetchPaginatedData_walk get options))
  end.

(** The loop that replaces each conversation by its detail, keeping the
    basic record when the detail request fails. *)
Definition detailedConversations (api : Api) (convos : list Conversation)
    : list Conversation :=
  map (fun convo =>
         match get_conversation api (c_id convo) with
         | Ok detail => detail
         | Failed _ => convo
         end) convos.

(** [fetchData(options)] *)
Definition fetchData (cfg : SourceConfig) (api : Api) (options : Options)
    : M (option Data) :=
  if negb (isEnabled cfg) || negb (truthy (apiKey cfg)) then ret None
  else
    let* lastSyncTime :=
      if forceFullSync options then ret epoch else getLastSyncTime sourceName in
    let* _ := lift (toISOString lastSyncTime) in
    let* convos :=
      if sub_conversations cfg then
        let* fetched := lift (_fetchPaginatedData (get_conversations api)
                                lastSyncTime options) in
        ret (detailedConversations api fetched)
      else ret [] in
    let* facts :=
      if sub_facts cfg
      then lift (_fetchPaginatedData (get_facts api) lastSyncTime options)
      else ret [] in
    let* todos :=
      if sub_todos cfg
      then lift (_fetchPaginatedData (get_todos api) lastSyncTime options)
      else ret [] in
    let* locations :=
      if sub_locations cfg
      then lift (_fetchPaginatedData (get_locations api) lastSyncTime options)
      else ret [] in
    ret (Some (mkData convos facts todos locations)).

(** [_getTimestamp(item, fields)], on the item's properties in the order
    of [fields]. *)
Fixpoint _getTimestamp (values : list (field jstext)) : Date :=
  match values with
  | [] => epoch
  | v :: rest => if truthy v then newDate v else _getTimestamp rest
  end.

(** The counters of a [_process...] method and its [latestItemTimestamp]. *)
Definition Stats : Type := (ProcessResult * Date)%type.

Definition later (a b : Date) : Date := if date_gt a b then a else b.

(** The utterance as [_processUtterances] normalises it. *)
Record UtteranceEntry : Type := mkUtteranceEntry {
  ue_bee_utterance_id : field Z;
  ue_speaker : field string;
  ue_text : field string;
  ue_start_seconds : field Z;
  ue_end_seconds : field Z;
  ue_spoken_at : Date;
  ue_is_realtime : field bool
}.

Definition utteranceEntry (utt : Utterance) : UtteranceEntry :=
  mkUtteranceEntry
    (or_else (u_id utt) (u_utterance_id utt))
    (u_speaker utt)
    (u_text utt)
    (or_else (u_start_seconds utt) (u_startOffsetSeconds utt))
    (or_else (u_end_seconds utt) (u_endOffsetSeconds utt))
    (newDate (or_else (u_spoken_at utt) (u_timestamp utt)))
    (unless_undefined (u_is_realtime utt) true).

(** One turn of the loop of [_processUtterances]. *)
Definition processUtterance (dbConvoId : nat) (utt : Utterance) : M unit :=
  try_catch
    (let e := utteranceEntry utt in
     if negb (truthy (ue_bee_utterance_id e)) || isNaN_getTime (ue_spoken_at e)
     then ret tt
     else
       let* spoken_iso := lift (toISOString (ue_spoken_at e)) in
       insert_utterance dbConvoId (ue_bee_utterance_id e) (ue_speaker e)
         (ue_text e) (ue_start_seconds e) (ue_end_seconds e) spoken_iso
         (ue_is_realtime e))
    (fun _ => ret tt).

(** [_processUtterances(utterances, dbConvoId)] *)
Fixpoint _processUtterances (utterances : list Utterance) (dbConvoId : nat) : M unit :=
  match utterances with
  | [] => ret tt
  | utt :: rest => processUtterance dbConvoId utt ;; _processUtterances rest dbConvoId
  end.

(** [convo.start_time || convo.startTime] *)
Definition start_of (convo : Conversation) : field jstext :=
  or_else (c_start_time convo) (c_startTime convo).

(** [convo.end_time || convo.endTime] *)
Definition end_of (convo : Conversation) : field jstext :=
  or_else (c_end_time convo) (c_endTime convo).

(** [convo.transcriptions || convo.utterances]: an array is truthy even
    when it is empty. *)
Definition utterances_of (convo : Conversation) : option (list Utterance) :=
  match c_transcriptions convo with
  | Some us => Some us
  | None => c_utterances convo
  end.

(** The body of the loop of [_processConversations].
    [latestItemTimestamp] moves before the [try] can throw;
    [_processUtterances] never throws ([_processUtterances_returns]). *)
Definition processConversation (st : Stats) (convo : Conversation) : M Stats :=
  let (c, latestItemTimestamp) := st in
  let itemTimestamp :=
    _getTimestamp [c_updated_at convo; c_end_time convo; c_start_time convo] in
  let latestItemTimestamp := later itemTimestamp latestItemTimestamp in
  try_catch
    (let start_time := newDate (start_of convo) in
     let end_time := newDate (end_of convo) in
     if negb (truthy (c_id convo)) || isNaN_getTime start_time
        || isNaN_getTime end_time
     then ret (count_error c, latestItemTimestamp)
     else
       let* start_iso := lift (toISOString start_time) in
       let* end_iso := lift (toISOString end_time) in
       let* (dbConvoId, inserted) :=
         upsert_conversation (c_id convo) start_iso end_iso
           (or_else (c_device_type convo) (c_deviceType convo))
           (c_summary convo)
           (or_else (c_short_summary convo) (c_shortSummary convo))
           (c_state convo) (c_primary_location convo) in
       let c := if inserted : bool then count_new c else count_updated c in
       match utterances_of convo with
       | Some utterances => _processUtterances utterances dbConvoId
       | None => ret tt
       end ;;
       ret (c, latestItemTimestamp))
    (fun _ => ret (count_error c, latestItemTimestamp)).

(** The [return] of each [_process...] method. *)
Definition finish (currentLatestTimestamp : Date) (st : Stats) : Stats :=
  (fst st, later (snd st) currentLatestTimestamp).

(** [_processConversations(conversations, currentLatestTimestamp)] *)
Definition _processConversations (conversations : list Conversation)
    (currentLatestTimestamp : Date) : M Stats :=
  let* st := for_of processConversation (mkProcessResult 0 0 0, epoch) conversations in
  ret (finish currentLatestTimestamp st).

(** [fact.is_confirmed !== undefined ? fact.is_confirmed : true] *)
Definition is_confirmed_of (fact : Fact) : field bool :=
  unless_undefined (f_is_confirmed fact) true.

(** [todo.completed || false] *)
Definition completed_of (todo : Todo) : bool :=
  or_default (t_completed todo) false.

(** The body of the loop of [_processFacts]. *)
Definition processFact (st : Stats) (fact : Fact) : M Stats :=
  let (c, latestItemTimestamp) := st in
  let itemTimestamp := _getTimestamp [f_updated_at fact; f_created_at fact] in
  let latestItemTimestamp := later itemTimestamp latestItemTimestamp in
  try_catch
    (let is_confirmed := is_confirmed_of fact in
     if negb (truthy (f_id fact)) then ret (count_error c, latestItemTimestamp)
     else
       let* inserted := upsert_fact (f_id fact) (f_content fact) is_confirmed in
       ret (if inserted : bool then count_new c else count_updated c,
            latestItemTimestamp))
    (fun _ => ret (count_error c, latestItemTimestamp)).

(** [_processFacts(facts, currentLatestTimestamp)] *)
Definition _processFacts (facts : list Fact) (currentLatestTimestamp : Date) : M Stats :=
  let* st := for_of processFact (mkProcessResult 0 0 0, epoch) facts in
  ret (finish currentLatestTimestamp st).

(** The body of the loop of [_processTodos]. *)
Definition processTodo (st : Stats) (todo : Todo) : M Stats :=
  let (c, latestItemTimestamp) := st in
  let itemTimestamp :=
    _getTimestamp [t_updated_at todo; t_created_at todo; t_alarm_at todo] in
  let latestItemTimestamp := later itemTimestamp latestItemTimestamp in
  try_catch
    (let completed := completed_of todo in
     if negb (truthy (t_id todo)) then ret (count_error c, latestItemTimestamp)
     else
       let* alarm_at := lift (optional_instant (t_alarm_at todo)) in
       let* inserted := upsert_todo (t_id todo) (t_text todo) alarm_at completed in
       ret (if inserted : bool then count_new c else count_updated c,
            latestItemTimestamp))
    (fun _ => ret (count_error c, latestItemTimestamp)).

(** [_processTodos(todos, currentLatestTimestamp)] *)
Definition _processTodos (todos : list Todo) (currentLatestTimestamp : Date) : M Stats :=
  let* st := for_of processTodo (mkProcessResult 0 0 0, epoch) todos in
  ret (finish currentLatestTimestamp st).

(** The body of the loop of [_processLocations]. *)
Definition processLocation (st : Stats) (loc : Location) : M Stats :=
  let (c, latestItemTimestamp) := st in
  let recordedAt :=
    newDate (or_else (or_else (loc_recorded_at loc) (loc_timestamp loc))
               (loc_created_at loc)) in
  let latestItemTimestamp := later recordedAt latestItemTimestamp in
  try_catch
    (if negb (truthy (loc_id loc)) || is_undefined (loc_latitude loc)
        || is_undefined (loc_longitude loc) || isNaN_getTime recordedAt
     then ret (count_error c, latestItemTimestamp)
     else
       let* recorded_iso := lift (toISOString recordedAt) in
       let* (rowCount, inserted) :=
         upsert_location (loc_id loc) (loc_latitude loc) (loc_longitude loc)
           (loc_address loc) recorded_iso in
       ret (if Nat.ltb 0 rowCount
            then if inserted : bool then count_new c else count_updated c
            else c,
            latestItemTimestamp))
    (fun _ => ret (count_error c, latestItemTimestamp)).

(** [_processLocations(locations, currentLatestTimestamp)] *)
Definition _processLocations (locations : list Location)
    (currentLatestTimestamp : Date) : M Stats :=
  let* st := for_of processLocation (mkProcessResult 0 0 0, epoch) locations in
  ret (finish currentLatestTimestamp st).

(** One [if (data.xs && data.xs.length > 0) { ... }] block of
    [processData]: the totals and [latestSyncTimestamp] after it. *)
Definition add_stats {A} (process : list A -> Date -> M Stats) (xs : list A)
    (acc : Stats) : M Stats :=
  let (total, latestSyncTimestamp) := acc in
  match xs with
  | [] => ret acc
  | _ :: _ =>
    let* stats := process xs latestSyncTimestamp in
    let total :=
      mkProcessResult (newEntries total + newEntries (fst stats))
        (updatedEntries total + updatedEntries (fst stats))
        (errors total + errors (fst stats)) in
    ret (total, later (snd stats) latestSyncTimestamp)
  end.

(** [processData(data, options)] *)
Definition processData (data : Data) (options : Options) : M ProcessResult :=
  let* latestSyncTimestamp := getLastSyncTime sourceName in
  let* acc := add_stats _processConversations (conversations data)
                (mkProcessResult 0 0 0, latestSyncTimestamp) in
  let* acc := add_stats _processFacts (facts data) acc in
  let* acc := add_stats _processTodos (todos data) acc in
  let* acc := add_stats _processLocations (locations data) acc in
  let (total, latestSyncTimestamp) := acc in
  let* stored := getLastSyncTime sourceName in
  (if date_gt latestSyncTimestamp stored
   then updateLastSyncTime sourceName latestSyncTimestamp
   else ret tt) ;;
  let* days := lift (map_throwing (fun c => isoDay (start_of c)) (conversations data)) in
  DataProcessor.rollup_days sourceName days (new_Set days) ;;
  ret total.

(** [sync(options)], inherited from [BaseConnector]. *)
Definition sync (cfg : SourceConfig) (api : Api) (options : Options) : M SyncResult :=
  BaseConnector.sync sourceName cfg (fetchData cfg api) processData options.

End BeeConnector.

(** ** Calendar helpers for writing instants and days *)

Module Calendar.

(** Days from 1970-01-01 to the civil date [y]-[m]-[d] (proleptic
    Gregorian calendar). *)
Definition ymd (y m d : Z) : Z :=
  let y' := if m <=? 2 then y - 1 else y in
  let era := y' / 400 in
  let yoe := y' - era * 400 in
  let doy := (153 * (m + (if 2 <? m then -3 else 9)) + 2) / 5 + d - 1 in
  let doe := yoe * 365 + yoe / 4 - yoe / 100 + doy in
  era * 146097 + doe - 719468.

(** The instant [y]-[m]-[d]T[hh]:[mm]:00Z in milliseconds. *)
Definition utc (y m d hh mm : Z) : Z :=
  ((ymd y m d * 24 + hh) * 60 + mm) * 60000.

End Calendar.

(** ** Inputs of the scenarios *)

Module Scenario.
Import DatabaseManager BaseConnector Calendar.

Definition enabledConfig : SourceConfig :=
  mkSourceConfig (Val true) (Val "secret") true true true true.

Definition day_2025_06_01 : Z := ymd 2025 6 1.


(** A lifelog with an id, a start and an end, and nothing else. *)
Definition lifelog (id : string) (start_time end_time : field jstext)
    : LimitlessConnector.Lifelog :=
  LimitlessConnector.mkLifelog (Val id) Absent Absent [] start_time Absent Absent
    end_time Absent Absent Absent Absent.

Definition noon_2025_06_01 : field jstext := Val (IsoInstant (utc 2025 6 1 12 0)).
Definition one_pm_2025_06_01 : field jstext := Val (IsoInstant (utc 2025 6 1 13 0)).

Definition page_of (n : nat) : list LimitlessConnector.Lifelog :=
  repeat (lifelog "entry" noon_2025_06_01 one_pm_2025_06_01) n.

(** Three pages of 50, 50 and 12 lifelogs, chained by the cursors [c1] and
    [c2]; the third page names no next cursor. *)
Definition threePagesLimitless : LimitlessConnector.Api :=
  fun cursor _ =>
    match cursor with
    | Absent =>
      LimitlessConnector.Ok
        (LimitlessConnector.mkLifelogsResponse (page_of 50) (Val "c1") Absent)
    | Val "c1" =>
      LimitlessConnector.Ok
        (LimitlessConnector.mkLifelogsResponse (page_of 50) (Val "c2") Absent)
    | Val "c2" =>
      LimitlessConnector.Ok
        (LimitlessConnector.mkLifelogsResponse (page_of 12) Absent Absent)
    | _ => LimitlessConnector.Failed "no such cursor"
    end.

(** Three pages of 50, 50 and 12 records by page number, nothing after. *)
Definition threePagesBee : nat -> nat -> BeeConnector.http (list nat) :=
  fun page _ =>
    match page with
    | 1%nat => BeeConnector.Ok (seq 0 50)
    | 2%nat => BeeConnector.Ok (seq 50 50)
    | 3%nat => BeeConnector.Ok (seq 100 12)
    | _ => BeeConnector.Ok []
    end.

(** A first page of 12 lifelogs that names a next cursor, then a page of 5
    that names none. *)
Definition shortPageWithCursor : LimitlessConnector.Api :=
  fun cursor _ =>
    match cursor with
    | Absent =>
      LimitlessConnector.Ok
        (LimitlessConnector.mkLifelogsResponse (page_of 12) (Val "c1") Absent)
    | Val "c1" =>
      LimitlessConnector.Ok
        (LimitlessConnector.mkLifelogsResponse (page_of 5) Absent Absent)
    | _ => LimitlessConnector.Failed "no such cursor"
    end.


Definition limitlessResponse (lifelogs : list LimitlessConnector.Lifelog)
    (nextCursor : field string) : LimitlessConnector.http LimitlessConnector.LifelogsResponse :=
  LimitlessConnector.Ok (LimitlessConnector.mkLifelogsResponse lifelogs nextCursor Absent).

(** A store whose Limitless watermark is 2025-06-10T00:00Z. *)
Definition syncedUntilJune10 : Db :=
  set_system_metadata
    {[ "last_sync_time_limitless" := IsoInstant (utc 2025 6 10 0 0) ]} emptyDb.

(** A lifelog of 2025-06-01, last modified at 13:00 that day. *)
Definition lifelogOfJune1 : LimitlessConnector.Lifelog :=
  LimitlessConnector.mkLifelog (Val "log-1") (Val "Walk") Absent []
    noon_2025_06_01 Absent Absent one_pm_2025_06_01 Absent one_pm_2025_06_01
    Absent Absent.

Definition serveLifelogOfJune1 : LimitlessConnector.Api :=
  fun _ _ => limitlessResponse [lifelogOfJune1] Absent.



(** A lifelog whose start is [null]: the API sends [created_at: null] and
    neither [start_time] nor [startTime]; and the same lifelog without
    [created_at]. *)
Definition lifelogWithNullStart : LimitlessConnector.Lifelog :=
  LimitlessConnector.mkLifelog (Val "log-2") (Val "Untimed") Absent []
    Absent Absent Null one_pm_2025_06_01 Absent Absent Absent Absent.

Definition lifelogWithoutStart : LimitlessConnector.Lifelog :=
  LimitlessConnector.mkLifelog (Val "log-2") (Val "Untimed") Absent []
    Absent Absent Absent one_pm_2025_06_01 Absent Absent Absent Absent.

Definition serveLifelogWithNullStart : LimitlessConnector.Api :=
  fun _ _ => limitlessResponse [lifelogWithNullStart] Absent.



(** A lifelog with one content node. *)
Definition headingNode : LimitlessConnector.ContentNode :=
  LimitlessConnector.Node
    (LimitlessConnector.mkNodeFields Absent (Val "heading1") (Val "Morning walk")
       Absent Absent Absent Absent Absent Absent Absent Absent Absent Absent Absent)
    [].

Definition lifelogWithNode : LimitlessConnector.Lifelog :=
  LimitlessConnector.mkLifelog (Val "log-1") (Val "Walk") Absent [headingNode]
    noon_2025_06_01 Absent Absent one_pm_2025_06_01 Absent Absent Absent Absent.

Definition serveLifelogWithNode : LimitlessConnector.Api :=
  fun _ _ => limitlessResponse [lifelogWithNode] Absent.

(** What is stored of a content node besides its generated id. *)
Definition node_content (r : ContentNodeRow) : nat * option nat * string * option string :=
  (cn_entry_id r, cn_parent_id r, cn_node_type r, cn_content r).

(** A batch of a good lifelog and one whose start time is no date. *)
Definition goodAndUnreadable : list LimitlessConnector.Lifelog :=
  [lifelog "a" noon_2025_06_01 one_pm_2025_06_01;
   lifelog "b" (Val (Text "garbage")) one_pm_2025_06_01].

Definition serveGoodAndUnreadable : LimitlessConnector.Api :=
  fun _ _ => limitlessResponse goodAndUnreadable Absent.

(** A full first page that names a next cursor, then a failing request. *)
Definition secondPageFails : LimitlessConnector.Api :=
  fun cursor _ =>
    match cursor with
    | Absent => limitlessResponse (page_of 50) (Val "c1")
    | _ => LimitlessConnector.Failed "ECONNRESET"
    end.



(** A conversation with an id, a start and an end, a summary, and nothing
    else. *)
Definition conversation (id : Z) (summary : string) (start_time end_time : field jstext)
    : BeeConnector.Conversation :=
  BeeConnector.mkConversation (Val id) start_time Absent end_time Absent Absent
    Absent Absent (Val summary) Absent Absent Absent None None None.

Definition firstConversation42 : BeeConnector.Conversation :=
  conversation 42 "first" noon_2025_06_01 one_pm_2025_06_01.



(** A conversation whose start time is no date. *)
Definition unreadableConversation : BeeConnector.Conversation :=
  conversation 43 "broken" (Val (Text "garbage")) one_pm_2025_06_01.


(** A Bee list endpoint: a full first page of 50 records, then a failing
    request. *)
Definition beeSecondPageFails {A} (record : nat -> A)
    : nat -> nat -> BeeConnector.http (list A) :=
  fun page _ =>
    match page with
    | 1%nat => BeeConnector.Ok (map record (seq 0 50))
    | _ => BeeConnector.Failed "ECONNRESET"
    end.

(** A Bee API whose conversation list fails at the second page, and whose
    other endpoints fail at once. *)
Definition beeFlakyApi : BeeConnector.Api :=
  BeeConnector.mkApi
    (beeSecondPageFails
       (fun n => conversation (Z.of_nat (S n)) "talk" noon_2025_06_01 one_pm_2025_06_01))
    (fun _ => BeeConnector.Failed "ECONNRESET")
    (fun _ _ => BeeConnector.Failed "ECONNRESET")
    (fun _ _ => BeeConnector.Failed "ECONNRESET")
    (fun _ _ => BeeConnector.Failed "ECONNRESET").

Definition fullSync : Options := mkOptions true Absent Absent Absent Absent.





Definition factWithoutId : BeeConnector.Fact :=
  BeeConnector.mkFact Absent (Val "likes tea") Absent Absent Absent.

Definition todoWithUnreadableAlarm : BeeConnector.Todo :=
  BeeConnector.mkTodo (Val 8) (Val "call back") (Val (Text "soon")) Absent Absent Absent.

Definition locationWithoutTime : BeeConnector.Location :=
  BeeConnector.mkLocation (Val 9) (Val 52) (Val 13) Absent Absent Absent Absent.


(** A conversation whose [startTime] is [null], and a Bee API that answers
    one page with it and nothing else. *)
Definition conversationWithNullStart : BeeConnector.Conversation :=
  BeeConnector.mkConversation (Val 44) Absent Null one_pm_2025_06_01 Absent Absent
    Absent Absent (Val "untimed") Absent Absent Absent None None None.

Definition serveConversationWithNullStart : BeeConnector.Api :=
  BeeConnector.mkApi
    (fun page _ => match page with
                   | 1%nat => BeeConnector.Ok [conversationWithNullStart]
                   | _ => BeeConnector.Ok []
                   end)
    (fun _ => BeeConnector.Failed "not found")
    (fun _ _ => BeeConnector.Ok [])
    (fun _ _ => BeeConnector.Ok [])
    (fun _ _ => BeeConnector.Ok []).

(** A todo whose [alarm_at] is [null]. *)
Definition todoWithNullAlarm : BeeConnector.Todo :=
  BeeConnector.mkTodo (Val 5) (Val "water the plants") Null Absent Absent Absent.

(** A Bee API that answers one page with a good conversation and one
    whose start time is no date, and nothing else. *)
Definition beeGoodAndUnreadable : list BeeConnector.Conversation :=
  [conversation 41 "fine" noon_2025_06_01 one_pm_2025_06_01; unreadableConversation].

Definition serveBeeGoodAndUnreadable : BeeConnector.Api :=
  BeeConnector.mkApi
    (fun page _ => match page with
                   | 1%nat => BeeConnector.Ok beeGoodAndUnreadable
                   | _ => BeeConnector.Ok []
                   end)
    (fun _ => BeeConnector.Failed "not found")
    (fun _ _ => BeeConnector.Ok [])
    (fun _ _ => BeeConnector.Ok [])
    (fun _ _ => BeeConnector.Ok []).



End Scenario.

(** ** Properties as stated, and the vocabulary of the theorems *)

Import DatabaseManager BaseConnector.

Module Stated.



(** [P] holds of every element of [l] but the last. *)
Fixpoint all_but_last {A} (P : A -> Prop) (l : list A) : Prop :=
  match l with
  | [] => True
  | x :: rest =>
    match rest with
    | [] => True
    | _ :: _ => P x /\ all_but_last P rest
    end
  end.

(** The records a Bee endpoint answers for a page ([[]] when it fails). *)
Definition pageData {A} (get : nat -> nat -> BeeConnector.http (list A))
    (limit : nat) (page : nat) : list A :=
  match get page limit with
  | BeeConnector.Ok d => d
  | BeeConnector.Failed _ => []
  end.

(** The lifelogs the Limitless endpoint answers for a cursor. *)
Definition pageLifelogs (api : LimitlessConnector.Api) (limit : nat)
    (cursor : field string) : list LimitlessConnector.Lifelog :=
  match api cursor limit with
  | LimitlessConnector.Ok r => LimitlessConnector.r_lifelogs r
  | LimitlessConnector.Failed _ => []
  end.

(** [response.data.nextCursor || response.data.pagination?.next_cursor] *)
Definition next_cursor (r : LimitlessConnector.LifelogsResponse) : field string :=
  or_else (LimitlessConnector.r_nextCursor r)
    (LimitlessConnector.r_pagination_next_cursor r).

(** The answer to the request for page [p] ends the Bee walk: the request
    failed, the page is empty or has fewer than [limit] records, or [p] is
    the last page allowed. *)
Definition bee_page_is_last {A} (get : nat -> nat -> BeeConnector.http (list A))
    (limit maxPages : nat) (p : nat) : Prop :=
  match get p limit with
  | BeeConnector.Failed _ => True
  | BeeConnector.Ok d => d = [] \/ (length d < limit)%nat \/ (maxPages <= p)%nat
  end.

(** The answer to the [n]-th request of the Limitless walk, sent with the
    cursor [c], ends the walk: the request failed, the response is empty or
    names no next cursor, or [n] requests are all that is allowed. *)
Definition limitless_page_is_last (api : LimitlessConnector.Api)
    (limit maxPages : nat) (c : field string) (n : nat) : Prop :=
  match api c limit with
  | LimitlessConnector.Failed _ => True
  | LimitlessConnector.Ok r =>
    LimitlessConnector.r_lifelogs r = [] \/ truthy (next_cursor r) = false
    \/ (maxPages <= n)%nat
  end.

(** In the Limitless walker, a page with fewer than [limit] lifelogs is the
    last one requested. *)
Definition short_page_ends_limitless_walk : Prop :=
  forall (api : LimitlessConnector.Api) (options : Options)
         (before after : list (field string)) (c : field string)
         (r : LimitlessConnector.LifelogsResponse),
    LimitlessConnector.requests (LimitlessConnector.fetch_walk api options)
      = before ++ c :: after ->
    api c (or_default (limit options) 50%nat) = LimitlessConnector.Ok r ->
    (length (LimitlessConnector.r_lifelogs r) < or_default (limit options) 50)%nat ->
    after = [].


(** The store without the rows of [limitless_content_nodes] and without
    the id counter: what [processContentNodes] leaves alone. *)
Definition without_content_nodes (s : Db) : Db :=
  set_limitless_content_nodes [] (set_next_id 0 s).

(** The store without the rows of [bee_utterances] and without the id
    counter: what [_processUtterances] leaves alone. *)
Definition without_utterances (s : Db) : Db :=
  set_bee_utterances ∅ (set_next_id 0 s).

(** The store without [system_metadata]: what [updateLastSyncTime] leaves
    alone. *)
Definition without_metadata (s : Db) : Db :=
  set_system_metadata ∅ s.






(** The key under which [_processUtterances] would store an utterance:
    [None] when the method skips it or the table refuses it. *)
Definition utterance_key (u : BeeConnector.Utterance) : option Z :=
  let e := BeeConnector.utteranceEntry u in
  if negb (truthy (BeeConnector.ue_bee_utterance_id e))
     || isNaN_getTime (BeeConnector.ue_spoken_at e)
  then None
  else
    match pg_param (BeeConnector.ue_bee_utterance_id e),
          pg_param (BeeConnector.ue_speaker e),
          pg_param (BeeConnector.ue_text e) with
    | Some k, Some sp, Some _ =>
      if bigint k && varchar 10 (Some sp) then Some k else None
    | _, _, _ => None
    end.



(** When a request fails after at least one page was fetched, the run
    still succeeds with the pages it has. *)
Definition fetch_error_gives_partial_batch : Prop :=
  forall (cfg : SourceConfig) (api : LimitlessConnector.Api) (options : Options)
         (s : Db) (before : list (field string)) (c : field string) (detail : string),
    isEnabled cfg = true -> truthy (apiKey cfg) = true -> pool s = true ->
    LimitlessConnector.requests (LimitlessConnector.fetch_walk api options)
      = before ++ [c] ->
    before <> [] ->
    api c (or_default (limit options) 50%nat) = LimitlessConnector.Failed detail ->
    exists r, outcome (LimitlessConnector.sync cfg api options s) = Return r
              /\ success r = true.

(** [loc.recorded_at || loc.timestamp || loc.created_at] *)
Definition recorded_of (loc : BeeConnector.Location) : field jstext :=
  or_else (or_else (BeeConnector.loc_recorded_at loc) (BeeConnector.loc_timestamp loc))
    (BeeConnector.loc_created_at loc).




(** The counters moved by [a] inserts, [b] updates and [e] errors. *)
Definition bump (a b e : nat) (c : ProcessResult) : ProcessResult :=
  mkProcessResult (a + newEntries c) (b + updatedEntries c) (e + errors c).

(** A lifelog without a usable id, or whose start or end cannot be read as
    a date. *)
Definition lifelog_rejected (l : LimitlessConnector.Lifelog) : Prop :=
  truthy (LimitlessConnector.l_id l) = false
  \/ newDate (LimitlessConnector.start_of l) = InvalidDate
  \/ newDate (LimitlessConnector.end_of l) = InvalidDate.

(** A conversation without a usable id, or whose start or end cannot be
    read as a date. *)
Definition conversation_rejected (c : BeeConnector.Conversation) : Prop :=
  truthy (BeeConnector.c_id c) = false
  \/ newDate (BeeConnector.start_of c) = InvalidDate
  \/ newDate (BeeConnector.end_of c) = InvalidDate.
















(** A rejected lifelog among the lifelogs of a batch: the loop ends in the
    store it would end in without the lifelog, with one more error; and
    the records that [processData] leaves in the store are the same with
    and without it. *)
Definition lifelog_skipped (before after : list LimitlessConnector.Lifelog)
    (bad : LimitlessConnector.Lifelog) (c : ProcessResult) (options : Options)
    (s : Db) : Prop :=
  (exists s' c',
     for_of LimitlessConnector.processLifelog c (before ++ after) s = (s', Return c')
     /\ for_of LimitlessConnector.processLifelog c (before ++ bad :: after) s
        = (s', Return (count_error c')))
  /\ without_metadata
       (store_after (LimitlessConnector.processData (before ++ bad :: after) options s))
     = without_metadata
         (store_after (LimitlessConnector.processData (before ++ after) options s)).

(** A rejected record among the records one [_process...] method of the
    Bee connector is given: the method ends in the store it would end in
    without the record, with one more error. *)
Definition record_skipped {A} (process : list A -> Date -> M BeeConnector.Stats)
    (before after : list A) (bad : A) (current : Date) (s : Db) : Prop :=
  exists s' c' t1 t2,
    process (before ++ after) current s = (s', Return (c', t1))
    /\ process (before ++ bad :: after) current s
       = (s', Return (count_error c', t2)).

(** A fact without a usable id. *)
Definition fact_rejected (f : BeeConnector.Fact) : Prop :=
  truthy (BeeConnector.f_id f) = false.

(** A todo without a usable id, or whose alarm time is there and cannot be
    read as a date. *)
Definition todo_rejected (t : BeeConnector.Todo) : Prop :=
  truthy (BeeConnector.t_id t) = false
  \/ (truthy (BeeConnector.t_alarm_at t) = true
      /\ newDate (BeeConnector.t_alarm_at t) = InvalidDate).

(** A location without a usable id, or whose recording time cannot be read
    as a date. *)
Definition location_rejected (loc : BeeConnector.Location) : Prop :=
  truthy (BeeConnector.loc_id loc) = false
  \/ newDate (recorded_of loc) = InvalidDate.


(** A run that ends as a failure and leaves the store [s] as it was. *)
Definition fatal_run (run : Db * result SyncResult) (s : Db) : Prop :=
  store_after run = s
  /\ exists msg,
       outcome run = Return (mkSyncResult false (Some msg) (mkProcessResult 0 0 1)).

(** The [results] of the Bee [fetchData]: what each enabled walk
    accumulated. *)
Definition bee_fetched (cfg : SourceConfig) (api : BeeConnector.Api)
    (options : Options) : BeeConnector.Data :=
  BeeConnector.mkData
    (if sub_conversations cfg
     then BeeConnector.detailedConversations api
            (BeeConnector.allData
               (BeeConnector._fetchPaginatedData_walk
                  (BeeConnector.get_conversations api) options))
     else [])
    (if sub_facts cfg
     then BeeConnector.allData
            (BeeConnector._fetchPaginatedData_walk (BeeConnector.get_facts api) options)
     else [])
    (if sub_todos cfg
     then BeeConnector.allData
            (BeeConnector._fetchPaginatedData_walk (BeeConnector.get_todos api) options)
     else [])
    (if sub_locations cfg
     then BeeConnector.allData
            (BeeConnector._fetchPaginatedData_walk (BeeConnector.get_locations api) options)
     else []).

(** The result [sync] makes of a run of [processData]. *)
Definition sync_of (run : Db * result ProcessResult) : Db * result SyncResult :=
  (store_after run,
   Return (match outcome run with
           | Return r => mkSyncResult true None r
           | Throw e => mkSyncResult false (Some (message e)) (mkProcessResult 0 0 1)
           end)).

(** The stored Bee watermark is not needed, or can be read. *)
Definition bee_watermark_readable (options : Options) (s : Db) : Prop :=
  forceFullSync options = true
  \/ exists ms, getLastSyncTime BeeConnector.sourceName s = (s, Return (ValidDate ms)).

(** A Bee run in which fetch errors stay inside the walkers: [fetchData]
    returns what was accumulated, and the run is the one of [processData]
    on it. *)
Definition bee_run_on_fetched (cfg : SourceConfig) (api : BeeConnector.Api)
    (options : Options) (s : Db) : Prop :=
  BeeConnector.fetchData cfg api options s
  = (s, Return (Some (bee_fetched cfg api options)))
  /\ BeeConnector.sync cfg api options s
     = sync_of (BeeConnector.processData (bee_fetched cfg api options) options s).






(** A method that leaves [system_metadata] and the pool alone. *)
Definition keeps_watermarks {A} (m : M A) : Prop :=
  forall s, system_metadata (store_after (m s)) = system_metadata s
            /\ pool (store_after (m s)) = pool s.


End Stated.

(** ** DataProcessor.js: the text helper *)

Module DataProcessorText.

(** A JavaScript string is the sequence of its UTF-16 code units. *)
Definition jsstring : Type := list N.

(** The class [\s] of a regular expression without the [u] flag, which is
    also what [trim] strips: the white space and the line terminators of
    ECMAScript (tab, line feed, vertical tab, form feed, carriage return,
    space, no-break space, U+1680, U+2000 to U+200A, U+2028, U+2029,
    U+202F, U+205F, U+3000 and U+FEFF). *)
Definition isWhiteSpace (c : N) : bool :=
  ((c =? 9) || (c =? 10) || (c =? 11) || (c =? 12) || (c =? 13) || (c =? 32)
   || (c =? 160) || (c =? 5760) || ((8192 <=? c) && (c <=? 8202))
   || (c =? 8232) || (c =? 8233) || (c =? 8239) || (c =? 8287)
   || (c =? 12288) || (c =? 65279))%N.

(** The code unit of [' ']. *)
Definition space : N := 32%N.

(** [text.replace(/\s+/g, ' ')]: every maximal run of white space becomes
    one space, written here where the run ends. *)
Fixpoint replace_runs (text : jsstring) : jsstring :=
  match text with
  | [] => []
  | c :: rest =>
    if isWhiteSpace c then
      match rest with
      | c' :: _ =>
        if isWhiteSpace c' then replace_runs rest else space :: replace_runs rest
      | [] => [space]
      end
    else c :: replace_runs rest
  end.

(** [text.trimStart()] *)
Fixpoint trimStart (text : jsstring) : jsstring :=
  match text with
  | [] => []
  | c :: rest => if isWhiteSpace c then trimStart rest else text
  end.

(** [text.trimEnd()] *)
Fixpoint trimEnd (text : jsstring) : jsstring :=
  match text with
  | [] => []
  | c :: rest =>
    match trimEnd rest with
    | [] => if isWhiteSpace c then [] else [c]
    | kept => c :: kept
    end
  end.

(** [text.trim()] *)
Definition trim (text : jsstring) : jsstring := trimEnd (trimStart text).

(** [cleanText(text)]: [!text] holds of [undefined], of [null] and of the
    empty string, which are returned as they are. *)
Definition cleanText (text : field jsstring) : field jsstring :=
  match text with
  | Val ((_ :: _) as t) => Val (trim (replace_runs t))
  | _ => text
  end.

End DataProcessorText.

(** ** DatabaseManager.js: closing the pool *)

Module Shutdown.

Definition set_pool (p : bool) (s : Db) : Db :=
  mkDb p (next_id s) (limitless_entries s) (limitless_content_nodes s)
    (bee_conversations s) (bee_utterances s) (bee_facts s) (bee_todos s)
    (bee_locations s) (daily_aggregations s) (system_metadata s).

(** [close()]: [if (this.pool) { await this.pool.end(); this.pool = null; }] *)
Definition close : M unit :=
  fun s => if pool s then (set_pool false s, Return tt) else (s, Return tt).

End Shutdown.

(** ** DataSyncManager.js *)

Module DataSyncManager.

(** What the manager calls on a connector object: [isEnabled()] and
    [sync(options)]. *)
Record Connector : Type := mkConnector {
  connector_isEnabled : bool;
  connector_sync : Options -> M SyncResult
}.

(** [new LimitlessConnector()] and [new BeeConnector()], for the
    configuration and the remote API they are given. *)
Definition limitlessConnector (cfg : SourceConfig) (api : LimitlessConnector.Api)
    : Connector :=
  mkConnector (isEnabled cfg) (LimitlessConnector.sync cfg api).

Definition beeConnector (cfg : SourceConfig) (api : BeeConnector.Api) : Connector :=
  mkConnector (isEnabled cfg) (BeeConnector.sync cfg api).

(** [this.connectors]: the own properties of the object, in the order in
    which they were added. *)
Definition Connectors : Type := list (string * Connector).

(** [_initializeConnectors()] *)
Definition _initializeConnectors (limitless bee weather : Connector) : Connectors :=
  (if connector_isEnabled limitless then [("limitless", limitless)] else [])
  ++ (if connector_isEnabled bee then [("bee", bee)] else [])
  ++ (if connector_isEnabled weather then [("weather", weather)] else []).

(** The properties that an object literal inherits from
    [Object.prototype]; each of them is a function or an object. *)
Definition Object_prototype : list string :=
  ["constructor"; "__defineGetter__"; "__defineSetter__"; "hasOwnProperty";
   "__lookupGetter__"; "__lookupSetter__"; "isPrototypeOf";
   "propertyIsEnumerable"; "toString"; "valueOf"; "__proto__";
   "toLocaleString"].

(** What [object[name]] finds. *)
Inductive property (A : Type) : Type :=
| Own (a : A)
| Inherited
| Missing.
Arguments Own {A} a.
Arguments Inherited {A}.
Arguments Missing {A}.

(** [this.connectors[sourceName]] *)
Definition get_connector (connectors : Connectors) (sourceName : string)
    : property Connector :=
  match List.find (fun entry => String.eqb (fst entry) sourceName) connectors with
  | Some entry => Own (snd entry)
  | None =>
    if existsb (String.eqb sourceName) Object_prototype then Inherited else Missing
  end.

(** How the promise of an [async] method of the manager settles: with a
    value, or with the [TypeError] of a call on something that is not a
    connector. *)
Inductive settled (A : Type) : Type :=
| Fulfilled (a : A)
| TypeError (detail : string).
Arguments Fulfilled {A} a.
Arguments TypeError {A} detail.

(** The object that [syncSource] returns: the result of the connector, or
    one that the manager makes, which has no counters. *)
Record SourceResult : Type := mkSourceResult {
  sr_success : bool;
  sr_message : option string;
  sr_counts : option ProcessResult;
  sr_error_details : option exn
}.

Definition of_sync (result : SyncResult) : SourceResult :=
  mkSourceResult (success result) (sync_message result) (Some (counts result)) None.

(** [syncSource(sourceName, options)] *)
Definition syncSource (connectors : Connectors) (sourceName : string)
    (options : Options) : Db -> Db * settled SourceResult :=
  fun s =>
    match get_connector connectors sourceName with
    | Missing =>
      (s, Fulfilled (mkSourceResult false
                       (Some ("Connector " +:+ sourceName +:+ " not found."))
                       None None))
    | Inherited => (s, TypeError "connector.isEnabled is not a function")
    | Own connector =>
      if negb (connector_isEnabled connector) then
        (s, Fulfilled (mkSourceResult false (Some (sourceName +:+ " is disabled."))
                         None None))
      else
        match connector_sync connector options s with
        | (s', Return result) => (s', Fulfilled (of_sync result))
        | (s', Throw error) =>
          (s', Fulfilled (mkSourceResult false (Some (message error)) None
                            (Some error)))
        end
    end.

(** The [for (const sourceName of Object.keys(this.connectors))] loop of
    [syncAllSources]; [results] is the object built so far. *)
Fixpoint syncAllSources_loop (connectors : Connectors) (options : Options)
    (sourceNames : list string) (results : list (string * SourceResult))
    : Db -> Db * settled (list (string * SourceResult)) :=
  fun s =>
    match sourceNames with
    | [] => (s, Fulfilled results)
    | sourceName :: rest =>
      match get_connector connectors sourceName with
      | Own connector =>
        if connector_isEnabled connector then
          match syncSource connectors sourceName options s with
          | (s', Fulfilled result) =>
            syncAllSources_loop connectors options rest
              (results ++ [(sourceName, result)]) s'
          | (s', TypeError detail) => (s', TypeError detail)
          end
        else
          syncAllSources_loop connectors options rest
            (results ++ [(sourceName,
                          mkSourceResult true (Some "Disabled, skipped.") None None)])
            s
      | Inherited =>
        (s, TypeError "this.connectors[sourceName].isEnabled is not a function")
      | Missing =>
        (s, TypeError "Cannot read properties of undefined (reading 'isEnabled')")
      end
    end.

(** [syncAllSources(options)] *)
Definition syncAllSources (connectors : Connectors) (options : Options)
    : Db -> Db * settled (list (string * SourceResult)) :=
  syncAllSources_loop connectors options (map fst connectors) [].

(** The body of a response of [POST /api/data/sync/:source]. *)
Inductive Body : Type :=
| SourceRequired
| SyncInitiated (source : string) (details : SourceResult)
| SyncFailed (source : string) (details : string + SourceResult).

(** What the handler does with the request: it answers with a status and
    a JSON body, or hands the error to [next]. *)
Inductive Response : Type :=
| Json (status : nat) (body : Body)
| Next (detail : string).

(** The handler of [POST /api/data/sync/:source], for the route parameter
    and the [forceFullSync] parameter of the query. *)
Definition post_sync (connectors : Connectors) (source : string)
    (forceFullSync : field string) : Db -> Db * Response :=
  fun s =>
    let forceFullSync :=
      match forceFullSync with
      | Val text => String.eqb text "true"
      | _ => false
      end in
    if negb (truthy source) then (s, Json 400 SourceRequired)
    else
      match syncSource connectors source
              (mkOptions forceFullSync Absent Absent Absent Absent) s with
      | (s', Fulfilled result) =>
        if sr_success result then (s', Json 200 (SyncInitiated source result))
        else
          (s', Json 500
                 (SyncFailed source
                    (match sr_message result with
                     | Some text => if truthy text then inl text else inr result
                     | None => inr result
                     end)))
      | (s', TypeError detail) => (s', Next detail)
      end.

End DataSyncManager.

(** ** The vocabulary of the further properties *)

Module Terms.
Import Stated LimitlessConnector.

(** A method under which the store only moves along [R]. *)
Definition steps {A} (R : Db -> Db -> Prop) (m : M A) : Prop :=
  forall s, R s (store_after (m s)).

(** The tables of the Bee connector. *)
Definition bee_tables (s : Db) :=
  (bee_conversations s, bee_utterances s, bee_facts s, bee_todos s, bee_locations s).

(** The tables of the Limitless connector. *)
Definition limitless_tables (s : Db) :=
  (limitless_entries s, limitless_content_nodes s).

(** The watermarks of the sources other than [sourceName]. *)
Definition other_watermarks (sourceName : string) (s : Db) : gmap string jstext :=
  delete (metadata_key sourceName) (system_metadata s).

(** What a method of the Limitless connector may do to the store. *)
Definition limitless_run (s s' : Db) : Prop :=
  pool s' = pool s
  /\ bee_tables s' = bee_tables s
  /\ daily_aggregations s' = daily_aggregations s
  /\ other_watermarks LimitlessConnector.sourceName s'
     = other_watermarks LimitlessConnector.sourceName s
  /\ limitless_content_nodes s `prefix_of` limitless_content_nodes s'.

(** What a method of the Bee connector may do to the store. *)
Definition bee_run (s s' : Db) : Prop :=
  pool s' = pool s
  /\ limitless_tables s' = limitless_tables s
  /\ daily_aggregations s' = daily_aggregations s
  /\ other_watermarks BeeConnector.sourceName s'
     = other_watermarks BeeConnector.sourceName s
  /\ bee_utterances s ⊆ bee_utterances s'.


(** The number of nodes of a content tree, and of a list of them. *)
Fixpoint tree_size (node : ContentNode) : nat :=
  match node with
  | Node _ children => S (sum_list (List.map tree_size children))
  end.

Definition forest_size (nodes : list ContentNode) : nat :=
  sum_list (List.map tree_size nodes).

(** A node whose times can be read and whose values fit the columns of
    [limitless_content_nodes]. *)
Definition node_storable (f : NodeFields) : bool :=
  match optional_instant (n_start_time f), optional_instant (n_end_time f) with
  | Return _, Return _ =>
    varchar 50 (Some (or_default (or_else (n_node_type f) (n_type f)) "unknown"))
    && varchar 255 (pg_param (or_else (n_speaker_name f) (n_speakerName f)))
    && varchar 50 (pg_param (or_else (n_speaker_identifier f) (n_speakerIdentifier f)))
    && (integer (pg_param (or_else (n_start_offset_ms f) (n_startOffsetMs f)))
        && integer (pg_param (or_else (n_end_offset_ms f) (n_endOffsetMs f))))
  | _, _ => false
  end.

(** A tree all of whose nodes are storable. *)
Fixpoint tree_storable (node : ContentNode) : bool :=
  match node with
  | Node f children => node_storable f && forallb tree_storable children
  end.

(** The rows [added] to [limitless_content_nodes] between [s] and [s'] came
    from content nodes of the entry [entryId] under [parent]: they took the
    next ids in order, belong to the entry, and each points to [parent] or
    to a row added before it. *)
Definition stored_under (entryId : nat) (parent : option nat) (s s' : Db)
    (added : list ContentNodeRow) : Prop :=
  limitless_content_nodes s' = limitless_content_nodes s ++ added
  /\ next_id s' = (next_id s + length added)%nat
  /\ pool s' = pool s
  /\ cn_id <$> added = seq (next_id s) (length added)
  /\ Forall (fun r => cn_entry_id r = entryId) added
  /\ Forall (fun r => cn_parent_id r = parent
                      \/ exists r', r' ∈ added /\ cn_parent_id r = Some (cn_id r')
                                    /\ (cn_id r' < cn_id r)%nat) added.


(** The rows that one content node and its descendants leave. *)
Definition node_rows (node : ContentNode) : Prop :=
  forall entryId parent s,
    exists added,
      stored_under entryId parent s
        (store_after (processContentNode entryId parent node s)) added
      /\ (length added <= tree_size node)%nat.

(** The row that holds the values of a content node, as
    [processContentNodes] normalises them, under the id [id]; [None] when
    a time of the node cannot be read. *)
Definition row_of_node (id entryId : nat) (parent : option nat) (f : NodeFields)
    : option ContentNodeRow :=
  match optional_instant (n_start_time f), optional_instant (n_end_time f) with
  | Return start_time, Return end_time =>
    Some (mkContentNodeRow id entryId parent
            (or_default (or_else (n_node_type f) (n_type f)) "unknown")
            (pg_param (or_else (n_content f) (n_text f)))
            start_time end_time
            (pg_param (or_else (n_start_offset_ms f) (n_startOffsetMs f)))
            (pg_param (or_else (n_end_offset_ms f) (n_endOffsetMs f)))
            (pg_param (or_else (n_speaker_name f) (n_speakerName f)))
            (pg_param (or_else (n_speaker_identifier f) (n_speakerIdentifier f))))
  | _, _ => None
  end.

(** [rows] are the rows of the content nodes [nodes] of the entry
    [entryId] under [parent], one row per node: the row of a node holds the
    values of the node and names [parent]; it is followed by the rows of the
    descendants of the node, the rows of its children naming the id of the
    row of the node as their parent, and then by the rows of the nodes
    after it. *)
Inductive rows_of_forest (entryId : nat)
    : option nat -> list ContentNode -> list ContentNodeRow -> Prop :=
| rows_of_none (parent : option nat) : rows_of_forest entryId parent [] []
| rows_of_node (parent : option nat) (f : NodeFields) (children rest : list ContentNode)
    (id : nat) (row : ContentNodeRow) (below after : list ContentNodeRow) :
    row_of_node id entryId parent f = Some row ->
    rows_of_forest entryId (Some id) children below ->
    rows_of_forest entryId parent rest after ->
    rows_of_forest entryId parent (Node f children :: rest) (row :: below ++ after).

(** What the nodes of a forest leave when each of them can be stored: the
    rows of the forest, after the rows that were there; the pool and the
    entries stay. *)
Definition forest_stored (nodes : list ContentNode) : Prop :=
  forall entryId parent s,
    pool s = true ->
    forallb tree_storable nodes = true ->
    references_entry entryId s = true ->
    references_content_node parent s = true ->
    exists added,
      limitless_content_nodes
        (store_after (processContentNodes nodes entryId parent s))
      = limitless_content_nodes s ++ added
      /\ rows_of_forest entryId parent nodes added
      /\ pool (store_after (processContentNodes nodes entryId parent s)) = true
      /\ limitless_entries (store_after (processContentNodes nodes entryId parent s))
         = limitless_entries s.

(** What [processData] of the Bee connector may do to the watermarks when
    [getLastSyncTime] gave [stored] at its start: nothing, or write under
    the key of the connector an instant later than [stored]. *)
Definition watermark_moved_past (stored : Date) (s s' : Db) : Prop :=
  pool s' = pool s
  /\ (system_metadata s' = system_metadata s
      \/ exists later_ms,
           date_gt (ValidDate later_ms) stored = true
           /\ system_metadata s'
              = <[metadata_key BeeConnector.sourceName := IsoInstant later_ms]>
                  (system_metadata s)).

(** The text stored as the watermark of [sourceName] cannot be read as a
    date. *)
Definition watermark_unreadable (sourceName : string) (s : Db) : Prop :=
  pool s = true
  /\ exists text, system_metadata s !! metadata_key sourceName = Some (Text text).

(** The watermark of the Limitless connector is not needed, or can be
    read. *)
Definition limitless_watermark_readable (options : Options) (s : Db) : Prop :=
  forceFullSync options = true
  \/ exists ms,
       getLastSyncTime LimitlessConnector.sourceName s = (s, Return (ValidDate ms)).

(** The first page a Bee walk asks for holds no record, or fails. *)
Definition first_page_empty {A} (get : nat -> nat -> BeeConnector.http (list A))
    (options : Options) : Prop :=
  pageData get (or_default (limit options) 50%nat) (or_default (page options) 1%nat)
  = [].

(** The store keeps its watermarks and its pool. *)
Definition same_watermarks (s s' : Db) : Prop :=
  system_metadata s' = system_metadata s /\ pool s' = pool s.

(** The value of a flag column of a row of [daily_aggregations]. *)
Definition get_flag (c : DataProcessor.flag_column) (r : DailyRow) : option bool :=
  match c with
  | DataProcessor.has_limitless_data_col => has_limitless_data r
  | DataProcessor.has_bee_data_col => has_bee_data r
  | DataProcessor.has_weather_data_col => has_weather_data r
  | DataProcessor.has_mood_data_col => has_mood_data r
  end.

(** A row of the rollup table did not lose anything from [before] to
    [after]: a flag that was set is set, and no count is lower. *)
Definition nothing_lost (before after : DailyRow) : Prop :=
  (forall f, get_flag f before = Some true -> get_flag f after = Some true)
  /\ (forall c, DataProcessor.coalesce0 (DataProcessor.get_count c before)
                <= DataProcessor.coalesce0 (DataProcessor.get_count c after)).

(** The store without the rollup table: what [updateDailyAggregation]
    leaves alone. *)
Definition without_rollups (s : Db) : Db := set_daily_aggregations ∅ s.

(** The characters of a text that are not white space, in order. *)
Definition words_of (text : DataProcessorText.jsstring) : DataProcessorText.jsstring :=
  List.filter (fun c => negb (DataProcessorText.isWhiteSpace c)) text.

(** Every white space character of the text is a space, and the character
    after it, if there is one, is not white space. *)
Fixpoint single_spaces (text : DataProcessorText.jsstring) : bool :=
  match text with
  | [] => true
  | c :: rest =>
    (if DataProcessorText.isWhiteSpace c
     then N.eqb c DataProcessorText.space
          && match rest with
             | c' :: _ => negb (DataProcessorText.isWhiteSpace c')
             | [] => true
             end
     else true)
    && single_spaces rest
  end.

Definition begins_with_space (text : DataProcessorText.jsstring) : bool :=
  match text with
  | c :: _ => DataProcessorText.isWhiteSpace c
  | [] => false
  end.

Fixpoint ends_with_space (text : DataProcessorText.jsstring) : bool :=
  match text with
  | [] => false
  | c :: rest =>
    match rest with
    | [] => DataProcessorText.isWhiteSpace c
    | _ :: _ => ends_with_space rest
    end
  end.

(** A tidy text: single spaces only, and none at either end. *)
Definition tidy (text : DataProcessorText.jsstring) : bool :=
  single_spaces text && negb (begins_with_space text) && negb (ends_with_space text).


(** The sources of [names] are synced one after the other, each on the
    store that the one before left, and each promise is fulfilled;
    [results] has their results in that order and [s'] is the store at
    the end. *)
Inductive runs_in_turn (connectors : DataSyncManager.Connectors) (options : Options)
    : list string -> Db -> list (string * DataSyncManager.SourceResult) -> Db -> Prop :=
| runs_in_turn_nil (s : Db) : runs_in_turn connectors options [] s [] s
| runs_in_turn_cons (name : string) (rest : list string) (s s1 s' : Db)
    (result : DataSyncManager.SourceResult)
    (results : list (string * DataSyncManager.SourceResult)) :
    DataSyncManager.syncSource connectors name options s
    = (s1, DataSyncManager.Fulfilled result) ->
    runs_in_turn connectors options rest s1 results s' ->
    runs_in_turn connectors options (name :: rest) s ((name, result) :: results) s'.

(** The names under which the manager can register a connector. *)
Definition known_sources (limitless bee weather : DataSyncManager.Connector)
    : DataSyncManager.Connectors :=
  [("limitless", limitless); ("bee", bee); ("weather", weather)].

(** The source is none of the connectors that are enabled. *)
Definition unknown_or_disabled (limitless bee weather : DataSyncManager.Connector)
    (source : string) : bool :=
  forallb (fun entry => negb (String.eqb (fst entry) source)
                        || negb (DataSyncManager.connector_isEnabled (snd entry)))
    (known_sources limitless bee weather).

End Terms.

(** ** Inputs of the further examples *)

Module Examples.
Import Scenario.

(** Stores in which the watermark of a source holds a text that is not a
    date. *)
Definition limitlessWatermarkGarbled : Db :=
  set_system_metadata {[ "last_sync_time_limitless" := Text "yesterday" ]} emptyDb.

Definition beeWatermarkGarbled : Db :=
  set_system_metadata {[ "last_sync_time_bee" := Text "yesterday" ]} emptyDb.

(** A store that holds the entry of a lifelog, under the id 0, and a
    forest of content nodes for it: a heading with two children, the second
    of which has a child of its own, and a second heading. *)
Definition walkStored : Db :=
  store_after
    (LimitlessConnector.processLifelog (mkProcessResult 0 0 0) lifelogOfJune1 emptyDb).

Definition noteNode (node_type content : string)
    (children : list LimitlessConnector.ContentNode) : LimitlessConnector.ContentNode :=
  LimitlessConnector.Node
    (LimitlessConnector.mkNodeFields Absent (Val node_type) (Val content)
       Absent Absent Absent Absent Absent Absent Absent Absent Absent Absent Absent)
    children.

Definition walkNotes : list LimitlessConnector.ContentNode :=
  [noteNode "heading1" "Morning walk"
     [noteNode "blockquote" "Left at nine" [];
      noteNode "heading2" "By the river" [noteNode "blockquote" "Saw a heron" []]];
   noteNode "heading1" "Afternoon" []].

(** A content node whose start time cannot be read, with one child. *)
Definition unreadableNode : LimitlessConnector.NodeFields :=
  LimitlessConnector.mkNodeFields (Val "heading1") Absent (Val "Morning walk") Absent
    (Val (Text "soon")) Absent Absent Absent Absent Absent Absent Absent Absent Absent.

(** Remote APIs that have nothing: the Limitless endpoint answers an empty
    page; of the Bee endpoints two answer an empty page and two fail. *)
Definition limitlessServesNothing : LimitlessConnector.Api :=
  fun _ _ => LimitlessConnector.Ok (LimitlessConnector.mkLifelogsResponse [] Absent Absent).

Definition beeServesNothing : BeeConnector.Api :=
  BeeConnector.mkApi
    (fun _ _ => BeeConnector.Ok [])
    (fun _ => BeeConnector.Failed "Request failed with status code 404")
    (fun _ _ => BeeConnector.Failed "ETIMEDOUT")
    (fun _ _ => BeeConnector.Ok [])
    (fun _ _ => BeeConnector.Failed "ETIMEDOUT").

(** A store whose rollup table has a row: three Limitless entries on
    2025-06-01. *)
Definition rowOfJune1 : DailyRow :=
  mkDailyRow (Some true) (Some false) (Some false) (Some false) (Some 3) (Some 0).

Definition rolledUpJune1 : Db :=
  set_daily_aggregations {[ day_2025_06_01 := rowOfJune1 ]} emptyDb.

End Examples.

(** * Properties *)

(** ** The monad *)

Lemma try_catch_swallow_outcome {A} (m : M A) (a : A) (s : Db) :
  (forall s' x, m s = (s', Return x) -> x = a) ->
  outcome (try_catch m (fun _ => ret a) s) = Return a.
Proof.
  intros Hx. unfold outcome, try_catch, ret.
  destruct (m s) as [s' [x|e]] eqn:E; simpl; [|reflexivity].
  f_equal. eauto.
Qed.

Lemma try_catch_unit_returns (m : M unit) (s : Db) :
  outcome (try_catch m (fun _ => ret tt) s) = Return tt.
Proof. apply try_catch_swallow_outcome. intros ? []. reflexivity. Qed.

(** ** DataProcessor.updateDailyAggregation *)

Module DataProcessorFacts.
Import DataProcessor.

(** With [db] unbound the method never reaches the store. *)
Lemma updateDailyAggregation_store (date : field jstext) (sourceType : field string)
    (itemCount : Z) (s : Db) :
  store_after (updateDailyAggregation date sourceType itemCount s) = s.
Proof.
  unfold updateDailyAggregation, updateDailyAggregation_in, store_after.
  destruct (negb (truthy date) || negb (truthy sourceType)); [reflexivity|].
  unfold bind, lift. destruct (toISOString (newDate date)); simpl; [|reflexivity].
  destruct (columns_of _) as [[fl ct]|]; reflexivity.
Qed.

(** A day written by a connector is always a date the method can read:
    the call returns, whatever the source name. *)
Lemma updateDailyAggregation_of_day (day : Z) (source : string) (n : Z) (s : Db) :
  updateDailyAggregation (Val (IsoDay day)) (Val source) n s = (s, Return tt).
Proof.
  unfold updateDailyAggregation, updateDailyAggregation_in.
  destruct (negb (truthy (Val (IsoDay day))) || negb (truthy (Val source)));
    [reflexivity|].
  unfold bind, lift. simpl.
  destruct (columns_of _) as [[fl ct]|]; reflexivity.
Qed.

Lemma rollup_days_noop (source : string) (days affectedDates : list Z) (s : Db) :
  rollup_days source days affectedDates s = (s, Return tt).
Proof.
  induction affectedDates as [|d rest IH]; [reflexivity|].
  cbn [rollup_days]. unfold bind at 1.
  destruct (0 <? _).
  - rewrite updateDailyAggregation_of_day. exact IH.
  - exact IH.
Qed.

(** The statement itself merges with [GREATEST]: had [db] been bound, a
    count could only grow. *)
Lemma updateQuery_count_monotone (day : Z) (c : count_column) (n : Z) (s : Db)
    (old : DailyRow) :
  pool s = true ->
  daily_aggregations s !! day = Some old ->
  integer (Some n) = true ->
  exists row,
    daily_aggregations (store_after (updateQuery day
        (match c with
         | limitless_entry_count_col => has_limitless_data_col
         | bee_conversation_count_col => has_bee_data_col
         end) (Some c) true n s)) !! day = Some row
    /\ get_count c row = Some (Z.max (coalesce0 (get_count c old)) n).
Proof.
  intros Hp Hold Hn. unfold updateQuery, query, store_after.
  rewrite Hp, Hn, Hold. simpl.
  eexists. split; [apply lookup_insert_eq|].
  destruct c; reflexivity.
Qed.

End DataProcessorFacts.

Module RollupClaims.
Import DataProcessor DataProcessorFacts Scenario Stated.

(** Had the module a binding for [db], the scenario of the rollup would
    store 3: the larger of the two counts. *)
Lemma bound_rollup_keeps_larger_count :
  let run :=
    (updateDailyAggregation_in Bound (Val (IsoDay day_2025_06_01)) (Val "limitless") 3 ;;
     updateDailyAggregation_in Bound (Val (IsoDay day_2025_06_01)) (Val "limitless") 1)
      emptyDb in
  limitless_entry_count <$> (daily_aggregations (store_after run) !! day_2025_06_01)
  = Some (Some 3).
Proof. vm_compute. reflexivity. Qed.

(** C3. The daily rollup is meant to keep the larger of the stored and the
    newly observed count, so that [apply("2025-06-01", "limitless", true, 3)]
    followed by the same call with 1 leaves 3.  In [DataProcessor.js] the
    identifier [db] has no binding, so [db.query] raises a [ReferenceError]
    that the [catch] swallows: both calls return, and no row for the day is
    ever stored. *)
Theorem rollup_scenario_stores_nothing :
  let run :=
    (updateDailyAggregation (Val (IsoDay day_2025_06_01)) (Val "limitless") 3 ;;
     updateDailyAggregation (Val (IsoDay day_2025_06_01)) (Val "limitless") 1)
      emptyDb in
  outcome run = Return tt
  /\ daily_aggregations (store_after run) !! day_2025_06_01 = None.
Proof. vm_compute. split; reflexivity. Qed.




End RollupClaims.

(** ** The pagination walkers *)

Module PaginationFacts.
Import Stated Scenario.

Section Bee.
Import BeeConnector.
Context {A : Type} (get : nat -> nat -> http (list A)) (limit maxPages : nat).

(** The fuel [_fetchPaginatedData_walk] gives is enough. *)
Lemma paginate_fuel (fuel page : nat) (all : list A) :
  (S (maxPages - page) <= fuel)%nat ->
  is_Some (paginate get limit maxPages fuel page all).
Proof.
  revert page all. induction fuel as [|fuel IH]; intros page all Hf; [lia|].
  simpl. destruct (get page limit) as [d|[|x data]]; try (eexists; reflexivity).
  destruct (Nat.ltb (length (x :: data)) limit); [eexists; reflexivity|].
  destruct (Nat.ltb maxPages (S page)) eqn:Hm; [eexists; reflexivity|].
  apply Nat.ltb_ge in Hm.
  destruct (IH (S page) (all ++ x :: data)) as [w Hw]; [lia|].
  rewrite Hw. eexists; reflexivity.
Qed.

(** What a finished walk looks like. *)
Lemma paginate_spec (fuel page : nat) (all : list A) (w : Walk A) :
  paginate get limit maxPages fuel page all = Some w ->
  requests w = seq page (length (requests w))
  /\ (1 <= length (requests w) <= S (maxPages - page))%nat
  /\ all_but_last
       (fun p => exists d, get p limit = Ok d /\ (limit <= length d)%nat)
       (requests w)
  /\ allData w = all ++ concat (map (pageData get limit) (requests w)).
Proof.
  revert page all w. induction fuel as [|fuel IH]; intros page all w; [discriminate|].
  simpl. unfold pageData.
  destruct (get page limit) as [detail|[|x data]] eqn:Hget.
  - intros [= <-]. simpl. rewrite Hget. simpl. rewrite app_nil_r.
    repeat split; auto; lia.
  - intros [= <-]. simpl. rewrite Hget. simpl. rewrite app_nil_r.
    repeat split; auto; lia.
  - destruct (Nat.ltb (length (x :: data)) limit) eqn:Hshort.
    { intros [= <-]. simpl. rewrite Hget. simpl. rewrite app_nil_r.
      repeat split; auto; lia. }
    destruct (Nat.ltb maxPages (S page)) eqn:Hm.
    { intros [= <-]. simpl. rewrite Hget. simpl. rewrite app_nil_r.
      repeat split; auto; lia. }
    apply Nat.ltb_ge in Hm. apply Nat.ltb_ge in Hshort.
    destruct (paginate get limit maxPages fuel (S page) (all ++ x :: data))
      as [w'|] eqn:Hrec; [|discriminate].
    intros [= <-]. simpl.
    destruct (IH _ _ _ Hrec) as (Hseq & Hlen & Habl & Hdata).
    rewrite Hget. split; [|split; [|split]].
    + f_equal. exact Hseq.
    + lia.
    + destruct (requests w') as [|p rest]; [exact I|].
      split; [eauto|exact Habl].
    + rewrite Hdata. unfold pageData. rewrite <- app_assoc. reflexivity.
Qed.

(** A request of the walk is its last one exactly when its answer ends
    the walk. *)
Lemma paginate_goes_on (fuel page : nat) (all : list A) (w : Walk A) :
  paginate get limit maxPages fuel page all = Some w ->
  forall before p after,
    requests w = before ++ p :: after ->
    (after = [] <-> bee_page_is_last get limit maxPages p).
Proof.
  revert page all w. induction fuel as [|fuel IH]; intros page all w; [discriminate|].
  assert (Hone : forall w0 : Walk A,
            requests w0 = [page] -> bee_page_is_last get limit maxPages page ->
            forall before p after,
              requests w0 = before ++ p :: after ->
              (after = [] <-> bee_page_is_last get limit maxPages p)).
  { intros w0 -> Hlast before p after Hreq.
    destruct before as [|b before]; [|destruct before; discriminate Hreq].
    injection Hreq as <- <-. split; [intros _; exact Hlast|reflexivity]. }
  simpl. destruct (get page limit) as [detail|[|x data]] eqn:Hget.
  - intros [= <-]. apply Hone; [reflexivity|]. unfold bee_page_is_last.
    rewrite Hget. exact I.
  - intros [= <-]. apply Hone; [reflexivity|]. unfold bee_page_is_last.
    rewrite Hget. left. reflexivity.
  - destruct (Nat.ltb (length (x :: data)) limit) eqn:Hshort.
    { intros [= <-]. apply Hone; [reflexivity|]. unfold bee_page_is_last.
      rewrite Hget. apply Nat.ltb_lt in Hshort. right. left. exact Hshort. }
    destruct (Nat.ltb maxPages (S page)) eqn:Hm.
    { intros [= <-]. apply Hone; [reflexivity|]. unfold bee_page_is_last.
      rewrite Hget. apply Nat.ltb_lt in Hm. right. right. lia. }
    apply Nat.ltb_ge in Hm. apply Nat.ltb_ge in Hshort.
    destruct (paginate get limit maxPages fuel (S page) (all ++ x :: data))
      as [w'|] eqn:Hrec; [|discriminate].
    intros [= <-] before p after Hreq. cbn [sent requests] in Hreq.
    destruct before as [|b before].
    + injection Hreq as <- <-.
      destruct (paginate_spec fuel _ _ _ Hrec) as (_ & Hlen & _ & _).
      split.
      * intros Hnil. rewrite Hnil in Hlen. simpl in Hlen. lia.
      * unfold bee_page_is_last. rewrite Hget.
        intros [Hd|[Hd|Hd]]; [discriminate Hd|lia|lia].
    + injection Hreq as _ Hreq. exact (IH _ _ _ Hrec before p after Hreq).
Qed.

End Bee.

Section Limitless.
Import LimitlessConnector.
Context (api : Api) (limit maxPages : nat).

(** The fuel [fetch_walk] gives is enough. *)
Lemma fetch_loop_fuel (fuel : nat) (cursor : field string) (page : nat)
    (all : list Lifelog) :
  (S (maxPages - page) <= fuel)%nat ->
  is_Some (fetch_loop api limit maxPages fuel cursor page all).
Proof.
  revert cursor page all. induction fuel as [|fuel IH]; intros cursor page all Hf; [lia|].
  simpl. destruct (api cursor limit) as [d|[[|x data] c1 c2]]; try (eexists; reflexivity).
  simpl.
  destruct (negb _ && _); [eexists; reflexivity|].
  destruct (Nat.ltb maxPages (S page)) eqn:Hm; [eexists; reflexivity|].
  apply Nat.ltb_ge in Hm.
  destruct (truthy (or_else c1 c2)); [|eexists; reflexivity].
  destruct (IH (or_else c1 c2) (S page) (all ++ x :: data)) as [w Hw]; [lia|].
  rewrite Hw. eexists; reflexivity.
Qed.

(** What a finished walk looks like: every request but the last was
    answered by a page that is not empty and names a next cursor. *)
Lemma fetch_loop_spec (fuel : nat) (cursor : field string) (page : nat)
    (all : list Lifelog) (w : Walk) :
  fetch_loop api limit maxPages fuel cursor page all = Some w ->
  (1 <= length (requests w) <= S (maxPages - page))%nat
  /\ head (requests w) = Some cursor
  /\ all_but_last
       (fun c => exists r, api c limit = Ok r /\ r_lifelogs r <> []
                           /\ truthy (next_cursor r) = true)
       (requests w)
  /\ match fetched w with
     | Return l => l = all ++ concat (map (pageLifelogs api limit) (requests w))
     | Throw e =>
       exists before c detail,
         requests w = before ++ [c] /\ api c limit = Failed detail
         /\ e = NetworkError detail
     end.
Proof.
  revert cursor page all w.
  induction fuel as [|fuel IH]; intros cursor page all w; [discriminate|].
  simpl. unfold pageLifelogs.
  destruct (api cursor limit) as [detail|[[|x data] c1 c2]] eqn:Hget.
  - intros [= <-]. simpl. split; [lia|]. split; [reflexivity|]. split; [exact I|].
    exists [], cursor, detail. auto.
  - intros [= <-]. simpl. rewrite Hget. simpl. rewrite app_nil_r.
    split; [lia|]. auto.
  - simpl.
    assert (Hone : forall w0, w0 = mkWalk [cursor] (Return (all ++ x :: data)) ->
              (1 <= length (requests w0) <= S (maxPages - page))%nat
              /\ head (requests w0) = Some cursor
              /\ all_but_last
                   (fun c => exists r, api c limit = Ok r /\ r_lifelogs r <> []
                                       /\ truthy (next_cursor r) = true)
                   (requests w0)
              /\ match fetched w0 with
                 | Return l =>
                   l = all ++ concat (map (fun c => match api c limit with
                                                    | Ok r => r_lifelogs r
                                                    | Failed _ => []
                                                    end) (requests w0))
                 | Throw e =>
                   exists before c detail,
                     requests w0 = before ++ [c] /\ api c limit = Failed detail
                     /\ e = NetworkError detail
                 end).
    { intros w0 ->. simpl. rewrite Hget. simpl. rewrite app_nil_r.
      split; [lia|]. auto. }
    destruct (negb _ && _); [intros [= <-]; apply Hone; reflexivity|].
    destruct (Nat.ltb maxPages (S page)) eqn:Hm; [intros [= <-]; apply Hone; reflexivity|].
    apply Nat.ltb_ge in Hm.
    destruct (truthy (or_else c1 c2)) eqn:Hc; [|intros [= <-]; apply Hone; reflexivity].
    destruct (fetch_loop api limit maxPages fuel (or_else c1 c2) (S page)
                (all ++ x :: data)) as [w'|] eqn:Hrec; [|discriminate].
    intros [= <-]. simpl.
    destruct (IH _ _ _ _ Hrec) as (Hlen & Hhead & Habl & Hdata).
    split; [lia|]. split; [reflexivity|]. split.
    + destruct (requests w') as [|c' rest]; [exact I|].
      split; [|exact Habl].
      exists (mkLifelogsResponse (x :: data) c1 c2). split; [exact Hget|].
      split; [discriminate|exact Hc].
    + destruct (fetched w') as [l|e].
      * rewrite Hdata, Hget. simpl. rewrite <- app_assoc. reflexivity.
      * destruct Hdata as (before & c & detail & Hreq & Hfail & He).
        exists (cursor :: before), c, detail. rewrite Hreq. auto.
Qed.

(** A request that fails is the last of the walk, and the walk ends by
    throwing its error. *)
Lemma fetch_loop_fails (fuel : nat) (cursor : field string) (page : nat)
    (all : list Lifelog) (w : Walk) :
  fetch_loop api limit maxPages fuel cursor page all = Some w ->
  forall before c after detail,
    requests w = before ++ c :: after ->
    api c limit = Failed detail ->
    after = [] /\ fetched w = Throw (NetworkError detail).
Proof.
  revert cursor page all w.
  induction fuel as [|fuel IH]; intros cursor page all w; [discriminate|].
  assert (Hone : forall (w0 : Walk) r, api cursor limit = Ok r ->
            requests w0 = [cursor] ->
            forall before c after detail,
              requests w0 = before ++ c :: after ->
              api c limit = Failed detail ->
              after = [] /\ fetched w0 = Throw (NetworkError detail)).
  { intros w0 r Hok -> before c after detail Hreq Hfail.
    destruct before as [|b before]; [|destruct before; discriminate Hreq].
    injection Hreq as <- <-. congruence. }
  cbn [fetch_loop].
  destruct (api cursor limit) as [d0|[[|x data] c1 c2]] eqn:Hget;
    cbn [r_lifelogs r_nextCursor r_pagination_next_cursor].
  - intros [= <-] before c after detail Hreq Hfail. cbn [requests fetched] in *.
    destruct before as [|b before]; [|destruct before; discriminate Hreq].
    injection Hreq as <- <-. split; [reflexivity|congruence].
  - intros [= <-]. eapply Hone; reflexivity.
  - destruct (negb _ && _); [intros [= <-]; eapply Hone; reflexivity|].
    destruct (Nat.ltb maxPages (S page)); [intros [= <-]; eapply Hone; reflexivity|].
    destruct (truthy (or_else c1 c2)); [|intros [= <-]; eapply Hone; reflexivity].
    destruct (fetch_loop api limit maxPages fuel (or_else c1 c2) (S page)
                (all ++ x :: data)) as [w'|] eqn:Hrec; [|discriminate].
    intros [= <-] before c after detail Hreq Hfail. cbn [sent requests fetched] in *.
    destruct before as [|b before]; [injection Hreq as <- _; congruence|].
    injection Hreq as _ Hreq. exact (IH _ _ _ _ Hrec before c after detail Hreq Hfail).
Qed.

(** A request of the walk is its last one exactly when its answer ends
    the walk, and the request after it is sent with the cursor that the
    response names. *)
Lemma fetch_loop_goes_on (fuel : nat) (cursor : field string) (page : nat)
    (all : list Lifelog) (w : Walk) :
  fetch_loop api limit maxPages fuel cursor page all = Some w ->
  forall before c after,
    requests w = before ++ c :: after ->
    (after = [] <-> limitless_page_is_last api limit maxPages c (page + length before))
    /\ (forall c' rest, after = c' :: rest ->
          exists r, api c limit = Ok r /\ c' = next_cursor r).
Proof.
  revert cursor page all w.
  induction fuel as [|fuel IH]; intros cursor page all w; [discriminate|].
  assert (Hone : forall w0 : Walk,
            requests w0 = [cursor] ->
            limitless_page_is_last api limit maxPages cursor page ->
            forall before c after,
              requests w0 = before ++ c :: after ->
              (after = [] <->
               limitless_page_is_last api limit maxPages c (page + length before))
              /\ (forall c' rest, after = c' :: rest ->
                    exists r, api c limit = Ok r /\ c' = next_cursor r)).
  { intros w0 -> Hlast before c after Hreq.
    destruct before as [|b before]; [|destruct before; discriminate Hreq].
    injection Hreq as <- <-. cbn [length]. rewrite Nat.add_0_r.
    split; [split; [intros _; exact Hlast|reflexivity]|]. intros c' rest H.
    discriminate H. }
  cbn [fetch_loop].
  destruct (api cursor limit) as [detail|[[|x data] c1 c2]] eqn:Hget;
    cbn [r_lifelogs r_nextCursor r_pagination_next_cursor].
  - intros [= <-]. apply Hone; [reflexivity|]. unfold limitless_page_is_last.
    rewrite Hget. exact I.
  - intros [= <-]. apply Hone; [reflexivity|]. unfold limitless_page_is_last.
    rewrite Hget. left. reflexivity.
  - destruct (truthy (or_else c1 c2)) eqn:Hc.
    2:{ assert (Hlast : limitless_page_is_last api limit maxPages cursor page).
        { unfold limitless_page_is_last. rewrite Hget. right. left. exact Hc. }
        cbn [negb andb].
        destruct (Nat.ltb (length (x :: data)) limit);
          [intros [= <-]; apply Hone; [reflexivity|exact Hlast]|].
        destruct (Nat.ltb maxPages (S page));
          intros [= <-]; apply Hone; try reflexivity; exact Hlast. }
    cbn [negb andb].
    destruct (Nat.ltb maxPages (S page)) eqn:Hm.
    { intros [= <-]. apply Hone; [reflexivity|]. unfold limitless_page_is_last.
      rewrite Hget. apply Nat.ltb_lt in Hm. right. right. lia. }
    apply Nat.ltb_ge in Hm.
    destruct (fetch_loop api limit maxPages fuel (or_else c1 c2) (S page)
                (all ++ x :: data)) as [w'|] eqn:Hrec; [|discriminate].
    intros [= <-] before c after Hreq. cbn [sent requests] in Hreq.
    destruct before as [|b before].
    + injection Hreq as <- <-. cbn [length]. rewrite Nat.add_0_r.
      destruct (fetch_loop_spec fuel _ _ _ _ Hrec) as (Hlen & Hhead & _ & _).
      split; [split|].
      * intros Hnil. rewrite Hnil in Hlen. simpl in Hlen. lia.
      * unfold limitless_page_is_last. rewrite Hget. unfold next_cursor.
        cbn [r_lifelogs r_nextCursor r_pagination_next_cursor].
        intros [Hd|[Hd|Hd]]; [discriminate Hd|congruence|lia].
      * intros c' rest Hafter. rewrite Hafter in Hhead. cbn [head] in Hhead.
        injection Hhead as ->.
        exists (mkLifelogsResponse (x :: data) c1 c2). split; [exact Hget|reflexivity].
    + injection Hreq as _ Hreq. cbn [length].
      replace (page + S (length before))%nat with (S page + length before)%nat by lia.
      exact (IH _ _ _ _ Hrec before c after Hreq).
Qed.

End Limitless.

End PaginationFacts.

Module PaginationClaims.
Import Stated Scenario PaginationFacts.

Lemma or_default_nat_positive (x : field nat) (d : nat) :
  (1 <= d)%nat -> (1 <= or_default x d)%nat.
Proof.
  intros Hd. destruct x as [| |[|n]]; simpl; try exact Hd.
  unfold or_default, truthy, truthy_nat. simpl. lia.
Qed.

(** C6, as stated, fails for the Limitless walker: a first page of 12
    lifelogs (limit 50) that names a next cursor is followed by a second
    request. *)
Lemma short_page_with_cursor_is_followed : ~ short_page_ends_limitless_walk.
Proof.
  intros H.
  specialize (H shortPageWithCursor noOptions [] [Val "c1"] Absent
                (LimitlessConnector.mkLifelogsResponse (page_of 12) (Val "c1") Absent)).
  assert (Hnil : [Val "c1"] = @nil (field string)); [|discriminate Hnil].
  apply H.
  - vm_compute. reflexivity.
  - reflexivity.
  - vm_compute. lia.
Qed.

(** C6, amended. The Bee walker asks for consecutive pages and stops at the
    first page that has fewer than [limit] records (or none, or fails), and
    after page [maxPages] at the latest; it reads no cursor, and after every
    other page it asks for the next one.  The Limitless walker follows the
    next cursor and stops at the first response that is empty or names no
    next cursor (or fails), and after [maxPages] requests at the latest;
    after every other response it sends the next request, with the cursor
    that the response names: a page shorter than [limit] that names a next
    cursor does not stop it.  Each returns the concatenation of the pages
    it got.  For three pages of 50, 50 and 12 records with [limit = 50]
    both stop after the third page with 112 records. *)
Theorem pagination_stopping_rules :
  (forall (A : Type) (get : nat -> nat -> BeeConnector.http (list A))
          (options : Options),
     let page := or_default (page options) 1%nat in
     let limit := or_default (limit options) 50%nat in
     let maxPages := or_default (maxPages options) 10%nat in
     let w := BeeConnector._fetchPaginatedData_walk get options in
     BeeConnector.requests w = seq page (length (BeeConnector.requests w))
     /\ (1 <= length (BeeConnector.requests w) <= S (maxPages - page))%nat
     /\ all_but_last
          (fun p => exists d, get p limit = BeeConnector.Ok d
                              /\ (limit <= length d)%nat)
          (BeeConnector.requests w)
     /\ BeeConnector.allData w
        = concat (map (pageData get limit) (BeeConnector.requests w))
     /\ (forall before p after,
           BeeConnector.requests w = before ++ p :: after ->
           (after = [] <-> bee_page_is_last get limit maxPages p)))
  /\ (forall (api : LimitlessConnector.Api) (options : Options),
        let limit := or_default (limit options) 50%nat in
        let maxPages := or_default (maxPages options) 10%nat in
        let w := LimitlessConnector.fetch_walk api options in
        (1 <= length (LimitlessConnector.requests w) <= maxPages)%nat
        /\ head (LimitlessConnector.requests w) = Some (cursor options)
        /\ all_but_last
             (fun c => exists r, api c limit = LimitlessConnector.Ok r
                                 /\ LimitlessConnector.r_lifelogs r <> []
                                 /\ truthy (next_cursor r) = true)
             (LimitlessConnector.requests w)
        /\ match LimitlessConnector.fetched w with
           | Return l =>
             l = concat (map (pageLifelogs api limit) (LimitlessConnector.requests w))
           | Throw e =>
             exists before c detail,
               LimitlessConnector.requests w = before ++ [c]
               /\ api c limit = LimitlessConnector.Failed detail
               /\ e = NetworkError detail
           end
        /\ (forall before c after,
              LimitlessConnector.requests w = before ++ c :: after ->
              (after = []
               <-> limitless_page_is_last api limit maxPages c (S (length before)))
              /\ (forall c' rest, after = c' :: rest ->
                    exists r, api c limit = LimitlessConnector.Ok r
                              /\ c' = next_cursor r))
        /\ (forall before c after r,
              LimitlessConnector.requests w = before ++ c :: after ->
              api c limit = LimitlessConnector.Ok r ->
              LimitlessConnector.r_lifelogs r <> [] ->
              truthy (next_cursor r) = true ->
              (S (length before) < maxPages)%nat ->
              exists rest, after = next_cursor r :: rest))
  /\ BeeConnector._fetchPaginatedData_walk threePagesBee noOptions
     = BeeConnector.mkWalk [1; 2; 3]%nat (seq 0 112)
  /\ LimitlessConnector.requests
       (LimitlessConnector.fetch_walk threePagesLimitless noOptions)
     = [Absent; Val "c1"; Val "c2"]
  /\ LimitlessConnector.fetched
       (LimitlessConnector.fetch_walk threePagesLimitless noOptions)
     = Return (page_of 112).
Proof.
  split; [|split; [|split; [|split]]].
  - intros A get options page limit maxPages w.
    destruct (paginate_fuel get limit maxPages (S (maxPages - page)) page [])
      as [w0 Hw0]; [lia|].
    assert (Hw : w = w0).
    { subst w. unfold BeeConnector._fetchPaginatedData_walk.
      fold page limit maxPages. rewrite Hw0. reflexivity. }
    rewrite Hw.
    destruct (paginate_spec get limit maxPages _ _ _ _ Hw0) as (H1 & H2 & H3 & H4).
    split; [exact H1|]. split; [exact H2|]. split; [exact H3|]. split; [exact H4|].
    exact (paginate_goes_on get limit maxPages _ _ _ _ Hw0).
  - intros api options limit maxPages w.
    assert (Hmax : (1 <= maxPages)%nat) by (apply or_default_nat_positive; lia).
    destruct (fetch_loop_fuel api limit maxPages maxPages (cursor options) 1 [])
      as [w0 Hw0]; [lia|].
    assert (Hw : w = w0).
    { subst w. unfold LimitlessConnector.fetch_walk.
      fold limit maxPages. rewrite Hw0. reflexivity. }
    rewrite Hw.
    destruct (fetch_loop_spec api limit maxPages _ _ _ _ _ Hw0)
      as (Hlen & Hhead & Habl & Hdata).
    pose proof (fetch_loop_goes_on api limit maxPages _ _ _ _ _ Hw0) as Hon.
    split; [lia|]. split; [exact Hhead|]. split; [exact Habl|]. split; [exact Hdata|].
    split; [exact Hon|].
    intros before c after r Hreq Hget Hne Hc Hn.
    destruct (Hon before c after Hreq) as [Hlast Hnext].
    destruct after as [|c' rest].
    + exfalso. destruct Hlast as [Hlast _]. specialize (Hlast eq_refl).
      unfold limitless_page_is_last in Hlast. rewrite Hget in Hlast.
      destruct Hlast as [H|[H|H]]; [exact (Hne H)|congruence|lia].
    + destruct (Hnext c' rest eq_refl) as (r' & Hget' & ->).
      exists rest. congruence.
  - vm_compute. reflexivity.
  - vm_compute. reflexivity.
  - vm_compute. reflexivity.
Qed.

End PaginationClaims.

(** ** Children: content nodes and utterances *)

Module ChildFacts.
Import Stated.

Section Limitless.
Import LimitlessConnector.

Lemma insert_content_node_frame entryId parent node_type content st en so eo sn si s :
  without_content_nodes
    (store_after (insert_content_node entryId parent node_type content st en so eo sn si s))
  = without_content_nodes s.
Proof.
  unfold insert_content_node, query, pg_reject, throw, store_after.
  destruct (pool s); [|reflexivity].
  destruct (negb _); [reflexivity|].
  destruct (negb _); [reflexivity|].
  destruct (negb _); reflexivity.
Qed.

(** Induction on a content node with the property known of its children. *)
Lemma ContentNode_rect_children (P : ContentNode -> Prop) :
  (forall f children, Forall P children -> P (Node f children)) ->
  forall node, P node.
Proof.
  intros H. fix IH 1. intros [f children]. apply H.
  induction children as [|c rest IHrest]; constructor; [apply IH|exact IHrest].
Qed.

Lemma processContentNode_returns entryId parent node s :
  outcome (processContentNode entryId parent node s) = Return tt.
Proof. destruct node. apply try_catch_unit_returns. Qed.

Lemma processContentNodes_returns nodes entryId parent s :
  outcome (processContentNodes nodes entryId parent s) = Return tt.
Proof.
  revert s. induction nodes as [|n rest IH]; intros s; [reflexivity|].
  simpl. unfold bind.
  pose proof (processContentNode_returns entryId parent n s) as Hn.
  unfold outcome in Hn. destruct (processContentNode entryId parent n s) as [s' r].
  simpl in Hn. subst r. apply IH.
Qed.

Lemma processContentNode_frame node : forall entryId parent s,
  without_content_nodes (store_after (processContentNode entryId parent node s))
  = without_content_nodes s.
Proof.
  induction node as [f children IH] using ContentNode_rect_children.
  intros entryId parent s. simpl. unfold try_catch, store_after.
  match goal with |- context [match ?m s with _ => _ end] => destruct (m s) as [s1 r1] eqn:E end.
  assert (Hs1 : without_content_nodes s1 = without_content_nodes s).
  { revert E. unfold bind at 1, lift.
    destruct (optional_instant (n_start_time f)); [|intros [= <- _]; reflexivity].
    unfold bind at 1.
    destruct (optional_instant (n_end_time f)); [|intros [= <- _]; reflexivity].
    unfold bind at 1.
    match goal with |- context [insert_content_node ?a ?b ?c ?d ?e ?g ?h ?i ?j ?k s] =>
      pose proof (insert_content_node_frame a b c d e g h i j k s) as Hi;
      destruct (insert_content_node a b c d e g h i j k s) as [s0 [nid|e0]]
    end; unfold store_after in Hi; simpl in Hi; [|intros [= <- _]; exact Hi].
    rewrite <- Hi. clear Hi. revert s0 s1 r1.
    induction IH as [|c rest Hc _ IHrest]; intros s0 s1 r1.
    - intros [= <- _]. reflexivity.
    - unfold bind at 1.
      pose proof (Hc entryId (Some nid) s0) as Hc0. unfold store_after in Hc0.
      destruct (processContentNode entryId (Some nid) c s0) as [s2 [[]|e2]].
      + simpl in Hc0. intros E. rewrite <- Hc0. exact (IHrest _ _ _ E).
      + intros [= <- _]. exact Hc0. }
  destruct r1; simpl; exact Hs1.
Qed.

Lemma processContentNodes_frame nodes entryId parent s :
  without_content_nodes (store_after (processContentNodes nodes entryId parent s))
  = without_content_nodes s.
Proof.
  revert s. induction nodes as [|n rest IH]; intros s; [reflexivity|].
  simpl. unfold bind, store_after.
  pose proof (processContentNode_frame n entryId parent s) as Hn.
  unfold store_after in Hn.
  destruct (processContentNode entryId parent n s) as [s' [[]|e]]; simpl in *.
  - rewrite <- Hn. apply IH.
  - exact Hn.
Qed.

End Limitless.

Section Bee.
Import BeeConnector.
Context (dbConvoId : nat).

Lemma processUtterance_returns utt s :
  outcome (processUtterance dbConvoId utt s) = Return tt.
Proof. apply try_catch_unit_returns. Qed.

Lemma _processUtterances_returns utterances s :
  outcome (_processUtterances utterances dbConvoId s) = Return tt.
Proof.
  revert s. induction utterances as [|u rest IH]; intros s; [reflexivity|].
  simpl. unfold bind.
  pose proof (processUtterance_returns u s) as Hu. unfold outcome in Hu.
  destruct (processUtterance dbConvoId u s) as [s' r]. simpl in Hu. subst r.
  apply IH.
Qed.

(** One utterance: either the store is left as it was (the utterance has
    no key, the pool is missing, or its key is taken), or a row was added
    under a key that was free. *)
Lemma processUtterance_effect utt s :
  (processUtterance dbConvoId utt s = (s, Return tt)
   /\ forall k, utterance_key utt = Some k -> pool s = true ->
                is_Some (bee_utterances s !! (dbConvoId, k)))
  \/ exists k row,
       utterance_key utt = Some k
       /\ pool s = true
       /\ bee_utterances s !! (dbConvoId, k) = None
       /\ processUtterance dbConvoId utt s
          = (set_bee_utterances (<[(dbConvoId, k) := row]> (bee_utterances s))
               (set_next_id (S (next_id s)) s), Return tt)
       /\ bu_is_realtime row = pg_param (ue_is_realtime (utteranceEntry utt))
       /\ bu_start_seconds row = pg_param (ue_start_seconds (utteranceEntry utt))
       /\ bu_end_seconds row = pg_param (ue_end_seconds (utteranceEntry utt)).
Proof.
  unfold processUtterance, utterance_key, try_catch.
  destruct (utteranceEntry utt) as [id sp tx ss es spoken rt] eqn:Hentry.
  cbn [ue_bee_utterance_id ue_speaker ue_text ue_start_seconds ue_end_seconds
       ue_spoken_at ue_is_realtime].
  destruct (negb (truthy id) || isNaN_getTime spoken) eqn:Hskip;
    [left; split; [reflexivity|discriminate]|].
  apply orb_false_elim in Hskip as [Hid Hdate].
  destruct spoken as [|ms]; [discriminate|].
  unfold bind, lift, toISOString, insert_utterance, query, pg_reject, throw.
  destruct (pool s) eqn:Hp; [|left; split; [reflexivity|congruence]].
  destruct (pg_param id) as [k|]; [|left; split; [reflexivity|discriminate]].
  destruct (pg_param sp) as [spk|]; [|left; split; [reflexivity|discriminate]].
  destruct (pg_param tx) as [txt|]; [|left; split; [reflexivity|discriminate]].
  destruct (bigint k); cbn [negb andb]; [|left; split; [reflexivity|discriminate]].
  destruct (varchar 10 (Some spk)); cbn [negb andb];
    [|left; split; [reflexivity|discriminate]].
  destruct (bee_utterances s !! (dbConvoId, k)) eqn:Hk.
  - left. split; [reflexivity|]. intros k0 [= <-] _. rewrite Hk. eauto.
  - right. eexists k, _. split; [reflexivity|]. split; [reflexivity|].
    split; [exact Hk|]. split; [reflexivity|]. repeat split.
Qed.

(** When the key is taken, or the utterance has none, nothing happens. *)
Lemma processUtterance_settled utt s :
  (forall k, utterance_key utt = Some k -> pool s = true ->
             is_Some (bee_utterances s !! (dbConvoId, k))) ->
  processUtterance dbConvoId utt s = (s, Return tt).
Proof.
  intros Hk.
  destruct (processUtterance_effect utt s) as [[H _]|(k & row & Hkey & Hp & Hfree & _)];
    [exact H|].
  destruct (Hk k Hkey Hp) as [r Hr]. congruence.
Qed.

Lemma _processUtterances_settled utterances s :
  (forall utt k, utt ∈ utterances -> utterance_key utt = Some k -> pool s = true ->
                 is_Some (bee_utterances s !! (dbConvoId, k))) ->
  _processUtterances utterances dbConvoId s = (s, Return tt).
Proof.
  induction utterances as [|u rest IH]; intros H; [reflexivity|].
  simpl. unfold bind. rewrite processUtterance_settled.
  - apply IH. intros utt k Hin. apply H. right. exact Hin.
  - intros k. apply H. left.
Qed.

(** A pass keeps the pool and the rows already there, and leaves every
    utterance of the list that has a key with a row under it. *)
Lemma _processUtterances_pass utterances : forall s,
  let s' := store_after (_processUtterances utterances dbConvoId s) in
  pool s' = pool s
  /\ without_utterances s' = without_utterances s
  /\ (forall key, is_Some (bee_utterances s !! key) -> is_Some (bee_utterances s' !! key))
  /\ (forall utt k, utt ∈ utterances -> utterance_key utt = Some k -> pool s = true ->
                    is_Some (bee_utterances s' !! (dbConvoId, k))).
Proof.
  induction utterances as [|u rest IH]; intros s.
  - simpl. repeat split; auto. intros utt k Hin. inversion Hin.
  - simpl. unfold bind, store_after.
    destruct (processUtterance_effect u s)
      as [[H Hpresent]|(k & row & Hkey & Hp & Hfree & H & _)]; rewrite H; clear H.
    + destruct (IH s) as (Hpool & Hframe & Hkeep & Hall).
      unfold store_after in *. split; [exact Hpool|]. split; [exact Hframe|].
      split; [exact Hkeep|].
      intros utt k Hin Hkey Hp. apply elem_of_cons in Hin as [->|Hin]; [|eauto].
      apply Hkeep. apply Hpresent; assumption.
    + set (s1 := set_bee_utterances _ _).
      destruct (IH s1) as (Hpool & Hframe & Hkeep & Hall).
      unfold store_after in *. split; [exact Hpool|]. split; [exact Hframe|].
      split.
      * intros key Hsome. apply Hkeep. subst s1. simpl.
        destruct (decide ((dbConvoId, k) = key)) as [<-|Hne].
        -- rewrite lookup_insert_eq. eauto.
        -- rewrite lookup_insert_ne; assumption.
      * intros utt k0 Hin Hkey0 _. apply elem_of_cons in Hin as [->|Hin].
        -- apply Hkeep. subst s1. simpl.
           assert (k0 = k) as -> by congruence.
           rewrite lookup_insert_eq. eauto.
        -- apply (Hall utt k0 Hin Hkey0). subst s1. exact Hp.
Qed.

End Bee.

End ChildFacts.

(** ** Runs on the scenario inputs *)

Module ScenarioRuns.
Import Stated Scenario Calendar ChildFacts.

(** C1. The watermark is meant never to move back.  [updateLastSyncTime]
    overwrites the stored value, and the Limitless [processData] calls it
    with the latest modification time of the batch without reading the
    stored one (the Bee [processData] compares first).  With the watermark
    at 2025-06-10 and a batch whose only lifelog was modified on
    2025-06-01, the run succeeds and leaves the watermark at 2025-06-01. *)
Theorem limitless_sync_moves_watermark_back :
  let run :=
    LimitlessConnector.sync enabledConfig serveLifelogOfJune1 noOptions
      syncedUntilJune10 in
  outcome (getLastSyncTime "limitless" syncedUntilJune10)
  = Return (ValidDate (utc 2025 6 10 0 0))
  /\ outcome run = Return (mkSyncResult true None (mkProcessResult 1 0 0))
  /\ outcome (getLastSyncTime "limitless" (store_after run))
     = Return (ValidDate (utc 2025 6 1 13 0))
  /\ utc 2025 6 1 13 0 < utc 2025 6 10 0 0.
Proof. vm_compute. repeat split; reflexivity. Qed.

(** C4. A child delivered again is meant to leave no second row.  The Bee
    utterances are inserted with [ON CONFLICT ... DO NOTHING]; the
    Limitless content nodes are inserted with a plain [INSERT] into a
    table without a unique constraint.  Two runs that deliver the same
    lifelog with the same content node leave two rows for the node under
    the same entry. *)
Theorem redelivered_content_node_is_stored_twice :
  let first :=
    LimitlessConnector.sync enabledConfig serveLifelogWithNode noOptions emptyDb in
  let second :=
    LimitlessConnector.sync enabledConfig serveLifelogWithNode noOptions
      (store_after first) in
  outcome first = Return (mkSyncResult true None (mkProcessResult 1 0 0))
  /\ outcome second = Return (mkSyncResult true None (mkProcessResult 0 1 0))
  /\ map node_content (limitless_content_nodes (store_after first))
     = [(0%nat, None, "heading1", Some "Morning walk")]
  /\ map node_content (limitless_content_nodes (store_after second))
     = [(0%nat, None, "heading1", Some "Morning walk");
        (0%nat, None, "heading1", Some "Morning walk")].
Proof. vm_compute. repeat split; reflexivity. Qed.

(** The sibling path: a second pass over the same utterances of a
    conversation changes nothing and does not throw. *)
Lemma redelivered_utterances_are_a_noop (utterances : list BeeConnector.Utterance)
    (dbConvoId : nat) (s : Db) :
  let s1 := store_after (BeeConnector._processUtterances utterances dbConvoId s) in
  BeeConnector._processUtterances utterances dbConvoId s1 = (s1, Return tt).
Proof.
  intros s1. apply _processUtterances_settled.
  intros utt k Hin Hkey Hp.
  destruct (_processUtterances_pass dbConvoId utterances s) as (Hpool & _ & _ & Hall).
  apply (Hall utt k Hin Hkey). fold s1 in Hpool. congruence.
Qed.

(** C5. The counts of a run are meant to add up to the number of records
    fetched.  For a batch of a good lifelog and one whose start time is no
    date, the loop counts one new entry and one error; the computation of
    the affected days then calls [toISOString] on the unreadable start
    time, [processData] throws, and [sync] reports 0 new, 0 updated and 1
    error for the 2 records fetched.  The Bee [processData] computes the
    affected days of its conversations the same way, with the same end. *)
Theorem unreadable_start_time_breaks_the_counts :
  let run :=
    LimitlessConnector.sync enabledConfig serveGoodAndUnreadable noOptions emptyDb in
  let bee_data := bee_fetched enabledConfig serveBeeGoodAndUnreadable fullSync in
  let bee_run :=
    BeeConnector.sync enabledConfig serveBeeGoodAndUnreadable fullSync emptyDb in
  LimitlessConnector.fetched
    (LimitlessConnector.fetch_walk serveGoodAndUnreadable noOptions)
  = Return goodAndUnreadable
  /\ length goodAndUnreadable = 2%nat
  /\ outcome (for_of LimitlessConnector.processLifelog (mkProcessResult 0 0 0)
                goodAndUnreadable emptyDb)
     = Return (mkProcessResult 1 0 1)
  /\ outcome (LimitlessConnector.processData goodAndUnreadable noOptions emptyDb)
     = Throw RangeError_invalid_time
  /\ outcome run
     = Return (mkSyncResult false (Some "Invalid time value") (mkProcessResult 0 0 1))
  /\ bee_data = BeeConnector.mkData beeGoodAndUnreadable [] [] []
  /\ outcome (BeeConnector.processData bee_data fullSync emptyDb)
     = Throw RangeError_invalid_time
  /\ outcome bee_run
     = Return (mkSyncResult false (Some "Invalid time value") (mkProcessResult 0 0 1)).
Proof. vm_compute. repeat split; reflexivity. Qed.

(** C8. A record whose primary timestamp cannot be read as a date is meant
    to be rejected, not stored with a default.  The code rejects a lifelog
    without an id, and one whose start is not there or is a text that is no
    date: [new Date(undefined)] is no date.  But the test for a missing
    time, [!entry.start_time], is made on the [Date] object, which is never
    falsy, and [new Date(null)] is 1970-01-01T00:00:00Z: a lifelog whose
    start is [null] is accepted, counted as a new entry and stored with the
    start 1970-01-01 (the todos, whose [alarm_at] is tested before
    [new Date], keep a [null] as [NULL]).  The Bee conversations are
    normalised the same way, with the same end. *)
Theorem null_start_time_is_stored_as_1970 :
  let run :=
    LimitlessConnector.sync enabledConfig serveLifelogWithNullStart noOptions emptyDb in
  let bee_run :=
    BeeConnector.sync enabledConfig serveConversationWithNullStart fullSync emptyDb in
  let todo_run :=
    BeeConnector._processTodos [todoWithNullAlarm] epoch emptyDb in
  LimitlessConnector.fetched
    (LimitlessConnector.fetch_walk serveLifelogWithNullStart noOptions)
  = Return [lifelogWithNullStart]
  /\ LimitlessConnector.processLifelog (mkProcessResult 0 0 0) lifelogWithoutStart emptyDb
     = (emptyDb, Return (mkProcessResult 0 0 1))
  /\ outcome (LimitlessConnector.processData [lifelogWithNullStart] noOptions emptyDb)
     = Return (mkProcessResult 1 0 0)
  /\ outcome run = Return (mkSyncResult true None (mkProcessResult 1 0 0))
  /\ le_start_time <$> limitless_entries (store_after run) !! "log-2"
     = Some (utc 1970 1 1 0 0)
  /\ bee_fetched enabledConfig serveConversationWithNullStart fullSync
     = BeeConnector.mkData [conversationWithNullStart] [] [] []
  /\ outcome bee_run = Return (mkSyncResult true None (mkProcessResult 1 0 0))
  /\ bc_start_time <$> bee_conversations (store_after bee_run) !! 44
     = Some (utc 1970 1 1 0 0)
  /\ outcome todo_run = Return (mkProcessResult 1 0 0, epoch)
  /\ bt_alarm_at <$> bee_todos (store_after todo_run) !! 5 = Some None.
Proof. vm_compute. repeat split; reflexivity. Qed.


(** C7, as stated, fails for the Limitless connector: when the second
    request fails, the first page is dropped and the run is a failure. *)
Lemma limitless_fetch_error_is_fatal : ~ fetch_error_gives_partial_batch.
Proof.
  intros H.
  destruct (H enabledConfig secondPageFails noOptions emptyDb [Absent] (Val "c1")
              "ECONNRESET") as (r & Hr & Hs).
  - reflexivity.
  - reflexivity.
  - reflexivity.
  - vm_compute. reflexivity.
  - discriminate.
  - reflexivity.
  - vm_compute in Hr. injection Hr as <-. discriminate Hs.
Qed.


End ScenarioRuns.

(** ** Top-level records, one at a time *)

Module RecordFacts.
Import Stated ChildFacts DataProcessorFacts.

Lemma bump_bump a b e a' b' e' c :
  bump a b e (bump a' b' e' c) = bump (a + a') (b + b') (e + e') c.
Proof. unfold bump. simpl. f_equal; lia. Qed.

Lemma for_of_app {A St} (body : St -> A -> M St) (l1 l2 : list A) (acc : St) (s : Db) :
  for_of body acc (l1 ++ l2) s
  = match for_of body acc l1 s with
    | (s1, Return acc1) => for_of body acc1 l2 s1
    | (s1, Throw e) => (s1, Throw e)
    end.
Proof.
  revert acc s. induction l1 as [|x l1 IH]; intros acc s; [reflexivity|].
  simpl. unfold bind. destruct (body acc x s) as [s1 [acc1|e]]; [apply IH|reflexivity].
Qed.

Section Limitless.
Import LimitlessConnector.

Lemma processLifelog_rejects (c : ProcessResult) (l : Lifelog) (s : Db) :
  lifelog_rejected l ->
  processLifelog c l s = (s, Return (count_error c)).
Proof.
  intros Hrej. unfold processLifelog, try_catch.
  destruct (truthy (l_id l)) eqn:Hid; simpl; [|reflexivity].
  destruct Hrej as [H|[H|H]]; [congruence| |].
  - rewrite H. reflexivity.
  - rewrite H. rewrite orb_true_r. reflexivity.
Qed.


(** Every lifelog moves exactly one counter, and the loop body never
    throws. *)
Lemma processLifelog_counts_one (l : Lifelog) (s : Db) :
  exists s' a b e,
    (a + b + e = 1)%nat
    /\ forall c, processLifelog c l s = (s', Return (bump a b e c)).
Proof.
  unfold processLifelog, try_catch.
  destruct (negb (truthy (l_id l))).
  { exists s, 0%nat, 0%nat, 1%nat. split; [reflexivity|]. reflexivity. }
  destruct (isNaN_getTime (newDate (start_of l)) || isNaN_getTime (newDate (end_of l))).
  { exists s, 0%nat, 0%nat, 1%nat. split; reflexivity. }
  unfold bind at 1, lift.
  destruct (toISOString (newDate (start_of l))) as [st|]; simpl;
    [|exists s, 0%nat, 0%nat, 1%nat; split; reflexivity].
  unfold bind at 1.
  destruct (toISOString (newDate (end_of l))) as [en|]; simpl;
    [|exists s, 0%nat, 0%nat, 1%nat; split; reflexivity].
  unfold bind at 1.
  destruct (upsert_limitless_entry _ _ _ _ _ _ s) as [s0 [[dbEntryId inserted]|]];
    [|exists s0, 0%nat, 0%nat, 1%nat; split; reflexivity].
  unfold bind.
  pose proof (processContentNodes_returns (l_contents l) dbEntryId None s0) as Hr.
  destruct (processContentNodes (l_contents l) dbEntryId None s0) as [s1 r1].
  unfold outcome in Hr. simpl in Hr. subst r1.
  destruct inserted.
  - exists s1, 1%nat, 0%nat, 0%nat. split; reflexivity.
  - exists s1, 0%nat, 1%nat, 0%nat. split; reflexivity.
Qed.

(** The loop of [processData] counts every lifelog once. *)
Lemma lifelog_loop_counts (lifelogs : list Lifelog) (s : Db) :
  exists s' a b e,
    (a + b + e = length lifelogs)%nat
    /\ forall c, for_of processLifelog c lifelogs s = (s', Return (bump a b e c)).
Proof.
  revert s. induction lifelogs as [|l rest IH]; intros s.
  - exists s, 0%nat, 0%nat, 0%nat. split; [reflexivity|]. intros [n u e]. reflexivity.
  - destruct (processLifelog_counts_one l s) as (s1 & a1 & b1 & e1 & H1 & Hl).
    destruct (IH s1) as (s2 & a2 & b2 & e2 & H2 & Hrest).
    exists s2, (a2 + a1)%nat, (b2 + b1)%nat, (e2 + e1)%nat. split; [simpl; lia|].
    intros c. simpl. unfold bind. rewrite Hl, Hrest. rewrite bump_bump. reflexivity.
Qed.

Lemma updateLastSyncTime_frame (source : string) (d : Date) (s : Db) :
  without_metadata (store_after (updateLastSyncTime source d s)) = without_metadata s.
Proof.
  unfold updateLastSyncTime, bind, lift, store_after.
  destruct (toISOString d); simpl; [|reflexivity].
  unfold upsert_metadata, query, pg_reject, throw.
  destruct (pool s); [|reflexivity]. destruct (negb _); reflexivity.
Qed.



(** What [processData] does after its loop reaches only [system_metadata]. *)
Lemma processData_records (lifelogs : list Lifelog) (options : Options) (s : Db) :
  without_metadata (store_after (processData lifelogs options s))
  = without_metadata
      (store_after (for_of processLifelog (mkProcessResult 0 0 0) lifelogs s)).
Proof.
  destruct lifelogs as [|l ls]; [reflexivity|].
  destruct (lifelog_loop_counts (l :: ls) s) as (s1 & a & b & e & _ & Hloop).
  unfold processData. unfold bind at 1. rewrite Hloop.
  unfold store_after at 2. cbn [fst].
  destruct (_ && _); [|reflexivity].
  unfold bind at 1. unfold bind at 1.
  match goal with |- context [(if ?g then ?m else ret tt) s1] =>
    assert (Hm : without_metadata (store_after ((if g then m else ret tt) s1))
                 = without_metadata s1)
      by (destruct g; [apply updateLastSyncTime_frame|reflexivity]);
    destruct ((if g then m else ret tt) s1) as [s2 [[]|err]]
  end; unfold store_after in Hm; cbn [fst] in Hm; [|exact Hm].
  unfold bind at 1, lift.
  destruct (map_throwing _ _) as [days|err]; [|exact Hm].
  rewrite rollup_days_noop. exact Hm.
Qed.


End Limitless.

Section Bee.
Import BeeConnector.

Lemma processConversation_rejects (c : ProcessResult) (t : Date)
    (convo : Conversation) (s : Db) :
  conversation_rejected convo ->
  processConversation (c, t) convo s
  = (s, Return (count_error c,
                later (_getTimestamp [c_updated_at convo; c_end_time convo;
                                      c_start_time convo]) t)).
Proof.
  intros Hrej. unfold processConversation, try_catch.
  destruct (truthy (c_id convo)) eqn:Hid; simpl; [|reflexivity].
  destruct Hrej as [H|[H|H]]; [congruence| |].
  - rewrite H. reflexivity.
  - rewrite H. rewrite orb_true_r. reflexivity.
Qed.


(** Every conversation moves exactly one counter, and the loop body never
    throws. *)
Lemma processConversation_counts_one (convo : Conversation) (s : Db) :
  exists s' a b e,
    (a + b + e = 1)%nat
    /\ forall c t,
         processConversation (c, t) convo s
         = (s', Return (bump a b e c,
                        later (_getTimestamp [c_updated_at convo; c_end_time convo;
                                              c_start_time convo]) t)).
Proof.
  unfold processConversation, try_catch.
  destruct (negb (truthy (c_id convo)) || isNaN_getTime (newDate (start_of convo))
            || isNaN_getTime (newDate (end_of convo))).
  { exists s, 0%nat, 0%nat, 1%nat. split; reflexivity. }
  unfold bind at 1, lift.
  destruct (toISOString (newDate (start_of convo))) as [st|]; simpl;
    [|exists s, 0%nat, 0%nat, 1%nat; split; reflexivity].
  unfold bind at 1.
  destruct (toISOString (newDate (end_of convo))) as [en|]; simpl;
    [|exists s, 0%nat, 0%nat, 1%nat; split; reflexivity].
  unfold bind at 1.
  destruct (upsert_conversation _ _ _ _ _ _ _ _ s) as [s0 [[dbConvoId inserted]|]];
    [|exists s0, 0%nat, 0%nat, 1%nat; split; reflexivity].
  unfold bind.
  assert (Hu : outcome ((match utterances_of convo with
                         | Some us => _processUtterances us dbConvoId
                         | None => ret tt
                         end) s0) = Return tt).
  { destruct (utterances_of convo); [apply _processUtterances_returns|reflexivity]. }
  destruct ((match utterances_of convo with
             | Some us => _processUtterances us dbConvoId
             | None => ret tt
             end) s0) as [s1 r1].
  unfold outcome in Hu. simpl in Hu. subst r1.
  destruct inserted.
  - exists s1, 1%nat, 0%nat, 0%nat. split; reflexivity.
  - exists s1, 0%nat, 1%nat, 0%nat. split; reflexivity.
Qed.

(** Every fact moves exactly one counter. *)
Lemma processFact_counts_one (fact : Fact) (s : Db) :
  exists s' a b e,
    (a + b + e = 1)%nat
    /\ forall c t,
         processFact (c, t) fact s
         = (s', Return (bump a b e c,
                        later (_getTimestamp [f_updated_at fact; f_created_at fact]) t)).
Proof.
  unfold processFact, try_catch.
  destruct (negb (truthy (f_id fact))).
  { exists s, 0%nat, 0%nat, 1%nat. split; reflexivity. }
  unfold bind.
  destruct (upsert_fact _ _ _ s) as [s0 [[|]|]].
  - exists s0, 1%nat, 0%nat, 0%nat. split; reflexivity.
  - exists s0, 0%nat, 1%nat, 0%nat. split; reflexivity.
  - exists s0, 0%nat, 0%nat, 1%nat. split; reflexivity.
Qed.

Lemma processFact_rejects (c : ProcessResult) (t : Date) (fact : Fact) (s : Db) :
  fact_rejected fact ->
  processFact (c, t) fact s
  = (s, Return (count_error c,
                later (_getTimestamp [f_updated_at fact; f_created_at fact]) t)).
Proof.
  intros Hrej. unfold processFact, try_catch. red in Hrej. rewrite Hrej. reflexivity.
Qed.

(** Every todo moves exactly one counter. *)
Lemma processTodo_counts_one (todo : Todo) (s : Db) :
  exists s' a b e,
    (a + b + e = 1)%nat
    /\ forall c t,
         processTodo (c, t) todo s
         = (s', Return (bump a b e c,
                        later (_getTimestamp [t_updated_at todo; t_created_at todo;
                                              t_alarm_at todo]) t)).
Proof.
  unfold processTodo, try_catch.
  destruct (negb (truthy (t_id todo))).
  { exists s, 0%nat, 0%nat, 1%nat. split; reflexivity. }
  unfold bind at 1, lift.
  destruct (optional_instant (t_alarm_at todo)) as [alarm|];
    [|exists s, 0%nat, 0%nat, 1%nat; split; reflexivity].
  unfold bind.
  destruct (upsert_todo _ _ _ _ s) as [s0 [[|]|]].
  - exists s0, 1%nat, 0%nat, 0%nat. split; reflexivity.
  - exists s0, 0%nat, 1%nat, 0%nat. split; reflexivity.
  - exists s0, 0%nat, 0%nat, 1%nat. split; reflexivity.
Qed.

Lemma processTodo_rejects (c : ProcessResult) (t : Date) (todo : Todo) (s : Db) :
  todo_rejected todo ->
  processTodo (c, t) todo s
  = (s, Return (count_error c,
                later (_getTimestamp [t_updated_at todo; t_created_at todo;
                                      t_alarm_at todo]) t)).
Proof.
  intros Hrej. unfold processTodo, try_catch.
  destruct (negb (truthy (t_id todo))) eqn:Hid; [reflexivity|].
  destruct Hrej as [H|[Ha Hd]].
  - rewrite H in Hid. discriminate.
  - unfold bind, lift, optional_instant. rewrite Ha, Hd. reflexivity.
Qed.

(** Every location moves exactly one counter. *)
Lemma processLocation_counts_one (loc : Location) (s : Db) :
  exists s' a b e,
    (a + b + e = 1)%nat
    /\ forall c t,
         processLocation (c, t) loc s
         = (s', Return (bump a b e c, later (newDate (recorded_of loc)) t)).
Proof.
  unfold processLocation, try_catch, recorded_of.
  destruct (negb (truthy (loc_id loc)) || is_undefined (loc_latitude loc)
            || is_undefined (loc_longitude loc) || isNaN_getTime _).
  { exists s, 0%nat, 0%nat, 1%nat. split; reflexivity. }
  unfold bind at 1, lift.
  destruct (toISOString _) as [iso|];
    [|exists s, 0%nat, 0%nat, 1%nat; split; reflexivity].
  unfold bind. unfold upsert_location, query, pg_reject, throw.
  destruct (pool s); [|exists s, 0%nat, 0%nat, 1%nat; split; reflexivity].
  destruct (pg_param (loc_id loc)) as [k|];
    [|exists s, 0%nat, 0%nat, 1%nat; split; reflexivity].
  destruct (pg_param (loc_latitude loc)) as [la|];
    [|exists s, 0%nat, 0%nat, 1%nat; split; reflexivity].
  destruct (pg_param (loc_longitude loc)) as [lo|];
    [|exists s, 0%nat, 0%nat, 1%nat; split; reflexivity].
  destruct (negb (bigint k));
    [exists s, 0%nat, 0%nat, 1%nat; split; reflexivity|].
  destruct (bee_locations s !! k).
  - eexists _, 0%nat, 1%nat, 0%nat. split; reflexivity.
  - eexists _, 1%nat, 0%nat, 0%nat. split; reflexivity.
Qed.

Lemma processLocation_rejects (c : ProcessResult) (t : Date) (loc : Location) (s : Db) :
  location_rejected loc ->
  processLocation (c, t) loc s
  = (s, Return (count_error c, later (newDate (recorded_of loc)) t)).
Proof.
  intros Hrej. unfold processLocation, try_catch, recorded_of in *.
  destruct (negb (truthy (loc_id loc))) eqn:Hid; [reflexivity|].
  destruct Hrej as [H|H].
  - rewrite H in Hid. discriminate.
  - unfold location_rejected, recorded_of in H. rewrite H. simpl.
    rewrite !orb_true_r. reflexivity.
Qed.

(** A loop whose body moves one counter for each record and never throws. *)
Section CountingLoop.
Context {A : Type} (body : Stats -> A -> M Stats) (ts : A -> Date).
Hypothesis body_counts_one : forall x s,
  exists s' a b e,
    (a + b + e = 1)%nat
    /\ forall c t, body (c, t) x s = (s', Return (bump a b e c, later (ts x) t)).

Lemma loop_counts (records : list A) (s : Db) :
  exists s' a b e,
    (a + b + e = length records)%nat
    /\ forall c t, exists t',
         for_of body (c, t) records s = (s', Return (bump a b e c, t')).
Proof.
  revert s. induction records as [|x rest IH]; intros s.
  - exists s, 0%nat, 0%nat, 0%nat. split; [reflexivity|].
    intros [n u e] t. exists t. reflexivity.
  - destruct (body_counts_one x s) as (s1 & a1 & b1 & e1 & H1 & Hx).
    destruct (IH s1) as (s2 & a2 & b2 & e2 & H2 & Hrest).
    exists s2, (a2 + a1)%nat, (b2 + b1)%nat, (e2 + e1)%nat. split; [simpl; lia|].
    intros c t. cbn [for_of]. unfold bind at 1. rewrite Hx.
    destruct (Hrest (bump a1 b1 e1 c) (later (ts x) t)) as [t' Ht'].
    exists t'. rewrite Ht', bump_bump. reflexivity.
Qed.

Lemma loop_skips (before after : list A) (bad : A) (current : Date) (s : Db) :
  (forall c t s0, body (c, t) bad s0 = (s0, Return (count_error c, later (ts bad) t))) ->
  record_skipped
    (fun records current =>
       let* st := for_of body (mkProcessResult 0 0 0, epoch) records in
       ret (finish current st))
    before after bad current s.
Proof.
  intros Hrej. unfold record_skipped.
  destruct (loop_counts before s) as (s1 & a1 & b1 & e1 & _ & H1).
  destruct (loop_counts after s1) as (s2 & a2 & b2 & e2 & _ & H2).
  destruct (H1 (mkProcessResult 0 0 0) epoch) as [t1 Ht1].
  destruct (H2 (bump a1 b1 e1 (mkProcessResult 0 0 0)) t1) as [t2 Ht2].
  destruct (H2 (count_error (bump a1 b1 e1 (mkProcessResult 0 0 0)))
              (later (ts bad) t1)) as [t3 Ht3].
  exists s2, (bump a2 b2 e2 (bump a1 b1 e1 (mkProcessResult 0 0 0))),
    (later t2 current), (later t3 current).
  unfold bind. rewrite !for_of_app, Ht1. split.
  - rewrite Ht2. reflexivity.
  - cbn [for_of]. unfold bind at 1. rewrite Hrej, Ht3.
    assert (Hb : bump a2 b2 e2 (count_error (bump a1 b1 e1 (mkProcessResult 0 0 0)))
                 = count_error (bump a2 b2 e2 (bump a1 b1 e1 (mkProcessResult 0 0 0)))).
    { unfold bump, count_error. simpl. f_equal. lia. }
    rewrite Hb. reflexivity.
Qed.

End CountingLoop.

End Bee.

End RecordFacts.

(** ** What a batch is reconciled to *)

Module ReconcileFacts.
Import Stated ChildFacts RecordFacts.

Section Counting.
Context {K : Type} {K_eq : EqDecision K} {K_countable : Countable K}.










End Counting.


Section Limitless.
Import LimitlessConnector.









End Limitless.

Section Bee.
Import BeeConnector.








End Bee.

End ReconcileFacts.

(** ** Records of one batch *)

Module BatchClaims.
Import Stated Scenario RecordFacts ChildFacts.





Lemma bump_count_error a b e c :
  bump a b e (count_error c) = count_error (bump a b e c).
Proof. unfold bump, count_error. simpl. f_equal. lia. Qed.

Lemma rejected_lifelog_skipped (before after : list LimitlessConnector.Lifelog)
    (bad : LimitlessConnector.Lifelog) (c : ProcessResult) (options : Options)
    (s : Db) :
  lifelog_rejected bad -> lifelog_skipped before after bad c options s.
Proof.
  intros Hrej.
  assert (Hloops : forall c0, exists s' c',
            for_of LimitlessConnector.processLifelog c0 (before ++ after) s
            = (s', Return c')
            /\ for_of LimitlessConnector.processLifelog c0 (before ++ bad :: after) s
               = (s', Return (count_error c'))).
  { intros c0.
    destruct (lifelog_loop_counts before s) as (s1 & a1 & b1 & e1 & _ & H1).
    destruct (lifelog_loop_counts after s1) as (s2 & a2 & b2 & e2 & _ & H2).
    exists s2, (bump a2 b2 e2 (bump a1 b1 e1 c0)).
    rewrite !for_of_app, H1. split; [apply H2|].
    cbn [for_of]. unfold bind at 1.
    rewrite (processLifelog_rejects _ bad s1 Hrej), H2, bump_count_error.
    reflexivity. }
  split; [apply Hloops|].
  rewrite !processData_records.
  destruct (Hloops (mkProcessResult 0 0 0)) as (s' & c' & -> & ->). reflexivity.
Qed.

(** What the loops do with a record that their checks reject (no usable
    id, or dates that [isNaN] finds unreadable): it is counted as an error,
    nothing of it is stored, and the other records of the batch are
    processed as they would be without it.  This holds for the lifelogs of
    the Limitless connector and for the conversations, facts, todos and
    locations of the Bee connector. *)
Lemma rejected_records_are_skipped_by_the_loops
    (before after : list LimitlessConnector.Lifelog) (bad : LimitlessConnector.Lifelog)
    (c : ProcessResult) (options : Options) (s : Db)
    (before_c after_c : list BeeConnector.Conversation)
    (bad_c : BeeConnector.Conversation)
    (before_f after_f : list BeeConnector.Fact) (bad_f : BeeConnector.Fact)
    (before_t after_t : list BeeConnector.Todo) (bad_t : BeeConnector.Todo)
    (before_l after_l : list BeeConnector.Location) (bad_l : BeeConnector.Location)
    (current : Date) (sb : Db) :
  lifelog_rejected bad ->
  conversation_rejected bad_c ->
  fact_rejected bad_f ->
  todo_rejected bad_t ->
  location_rejected bad_l ->
  lifelog_skipped before after bad c options s
  /\ record_skipped BeeConnector._processConversations before_c after_c bad_c current sb
  /\ record_skipped BeeConnector._processFacts before_f after_f bad_f current sb
  /\ record_skipped BeeConnector._processTodos before_t after_t bad_t current sb
  /\ record_skipped BeeConnector._processLocations before_l after_l bad_l current sb.
Proof.
  intros Hl Hc Hf Ht Hloc. split; [|split; [|split; [|split]]].
  - apply rejected_lifelog_skipped. exact Hl.
  - apply (loop_skips BeeConnector.processConversation
             (fun x => BeeConnector._getTimestamp
                         [BeeConnector.c_updated_at x; BeeConnector.c_end_time x;
                          BeeConnector.c_start_time x])).
    + apply processConversation_counts_one.
    + intros c0 t s0. apply processConversation_rejects. exact Hc.
  - apply (loop_skips BeeConnector.processFact
             (fun x => BeeConnector._getTimestamp
                         [BeeConnector.f_updated_at x; BeeConnector.f_created_at x])).
    + apply processFact_counts_one.
    + intros c0 t s0. apply processFact_rejects. exact Hf.
  - apply (loop_skips BeeConnector.processTodo
             (fun x => BeeConnector._getTimestamp
                         [BeeConnector.t_updated_at x; BeeConnector.t_created_at x;
                          BeeConnector.t_alarm_at x])).
    + apply processTodo_counts_one.
    + intros c0 t s0. apply processTodo_rejects. exact Ht.
  - apply (loop_skips BeeConnector.processLocation
             (fun x => newDate (recorded_of x))).
    + apply processLocation_counts_one.
    + intros c0 t s0. apply processLocation_rejects. exact Hloc.
Qed.

End BatchClaims.

(** ** Fetch errors *)

Module FetchClaims.
Import Stated Scenario PaginationFacts.

Lemma getLastSyncTime_reads (source : string) (s : Db) :
  store_after (getLastSyncTime source s) = s.
Proof.
  unfold getLastSyncTime, bind, select_metadata, query, store_after.
  destruct (pool s); [|reflexivity].
  destruct (system_metadata s !! _); reflexivity.
Qed.

(** The Limitless [fetchData] only reads the store. *)
Lemma limitless_fetchData_reads cfg api options s :
  store_after (LimitlessConnector.fetchData cfg api options s) = s.
Proof.
  unfold LimitlessConnector.fetchData.
  destruct (_ || _); [reflexivity|].
  unfold bind at 1.
  assert (Hl : store_after ((if forceFullSync options then ret epoch
                             else getLastSyncTime LimitlessConnector.sourceName) s) = s).
  { destruct (forceFullSync options); [reflexivity|apply getLastSyncTime_reads]. }
  destruct ((if forceFullSync options then ret epoch
             else getLastSyncTime LimitlessConnector.sourceName) s) as [s1 [t|e]];
    unfold store_after in *; cbn [fst] in *; subst s1; [|reflexivity].
  unfold bind, lift. destruct (toISOString t); [|reflexivity].
  destruct (LimitlessConnector.fetched _); reflexivity.
Qed.

(** A failing request makes the Limitless [fetchData] throw. *)
Lemma limitless_fetchData_throws cfg api options s e :
  isEnabled cfg = true -> truthy (apiKey cfg) = true ->
  LimitlessConnector.fetched (LimitlessConnector.fetch_walk api options) = Throw e ->
  exists e', outcome (LimitlessConnector.fetchData cfg api options s) = Throw e'.
Proof.
  intros He Hk Hf. unfold LimitlessConnector.fetchData. rewrite He, Hk. simpl.
  unfold bind at 1.
  destruct ((if forceFullSync options then ret epoch
             else getLastSyncTime LimitlessConnector.sourceName) s) as [s1 [t|e1]];
    [|eexists; reflexivity].
  unfold bind, lift. destruct (toISOString t); [|eexists; reflexivity].
  rewrite Hf. eexists; reflexivity.
Qed.

Lemma limitless_fetch_error_fatal cfg api options s e :
  isEnabled cfg = true -> truthy (apiKey cfg) = true ->
  LimitlessConnector.fetched (LimitlessConnector.fetch_walk api options) = Throw e ->
  fatal_run (LimitlessConnector.sync cfg api options s) s.
Proof.
  intros He Hk Hf.
  destruct (limitless_fetchData_throws cfg api options s e He Hk Hf) as [e' He'].
  pose proof (limitless_fetchData_reads cfg api options s) as Hs.
  unfold fatal_run, LimitlessConnector.sync, BaseConnector.sync. rewrite He. simpl.
  unfold try_catch, bind.
  destruct (LimitlessConnector.fetchData cfg api options s) as [s1 r1].
  unfold outcome, store_after in *. simpl in *. subst s1 r1.
  split; [reflexivity|]. eexists; reflexivity.
Qed.

(** A failing request is the last of the Limitless walk. *)
Lemma limitless_walk_fails (api : LimitlessConnector.Api) (options : Options)
    (before : list (field string)) (c : field string) (after : list (field string))
    (detail : string) :
  LimitlessConnector.requests (LimitlessConnector.fetch_walk api options)
  = before ++ c :: after ->
  api c (or_default (limit options) 50%nat) = LimitlessConnector.Failed detail ->
  after = []
  /\ LimitlessConnector.fetched (LimitlessConnector.fetch_walk api options)
     = Throw (NetworkError detail).
Proof.
  set (lim := or_default (limit options) 50%nat).
  set (mx := or_default (maxPages options) 10%nat).
  assert (Hmax : (1 <= mx)%nat).
  { subst mx. destruct (maxPages options) as [| |[|n]]; cbn; lia. }
  destruct (fetch_loop_fuel api lim mx mx (cursor options) 1 []) as [w Hw]; [lia|].
  assert (Hwalk : LimitlessConnector.fetch_walk api options = w).
  { unfold LimitlessConnector.fetch_walk. fold lim mx. rewrite Hw. reflexivity. }
  rewrite Hwalk. exact (fetch_loop_fails api lim mx _ _ _ _ _ Hw before c after detail).
Qed.

(** With the watermark readable, the error of the walk is the error that
    [sync] reports. *)
Lemma limitless_fetch_error_reported cfg api options s detail :
  isEnabled cfg = true -> truthy (apiKey cfg) = true ->
  Terms.limitless_watermark_readable options s ->
  LimitlessConnector.fetched (LimitlessConnector.fetch_walk api options)
  = Throw (NetworkError detail) ->
  LimitlessConnector.sync cfg api options s
  = (s, Return (mkSyncResult false (Some detail) (mkProcessResult 0 0 1))).
Proof.
  intros He Hk Hw Hf.
  unfold LimitlessConnector.sync, BaseConnector.sync. rewrite He. cbn [negb].
  unfold try_catch, bind at 1, LimitlessConnector.fetchData. rewrite He, Hk.
  cbn [negb orb]. unfold bind at 1.
  assert (Hl : exists ms,
             (if forceFullSync options then ret epoch
              else getLastSyncTime LimitlessConnector.sourceName) s
             = (s, Return (ValidDate ms))).
  { destruct Hw as [Hforce|[ms Hms]].
    - rewrite Hforce. exists 0. reflexivity.
    - destruct (forceFullSync options); [exists 0; reflexivity|eauto]. }
  destruct Hl as [ms ->]. unfold bind, lift. cbn [toISOString]. rewrite Hf.
  reflexivity.
Qed.

(** A failing request ends the Bee walk with the pages before it. *)
Lemma bee_walk_keeps_pages {A} (get : nat -> nat -> BeeConnector.http (list A))
    (options : Options) (before : list nat) (p : nat) (after : list nat)
    (detail : string) :
  BeeConnector.requests (BeeConnector._fetchPaginatedData_walk get options)
  = before ++ p :: after ->
  get p (or_default (limit options) 50%nat) = BeeConnector.Failed detail ->
  after = []
  /\ BeeConnector.allData (BeeConnector._fetchPaginatedData_walk get options)
     = concat (map (pageData get (or_default (limit options) 50%nat)) before).
Proof.
  intros Hreq Hfail.
  set (pg := or_default (page options) 1%nat).
  set (lim := or_default (limit options) 50%nat) in *.
  set (mx := or_default (maxPages options) 10%nat).
  destruct (paginate_fuel get lim mx (S (mx - pg)) pg []) as [w Hw]; [lia|].
  assert (Hwalk : BeeConnector._fetchPaginatedData_walk get options = w).
  { unfold BeeConnector._fetchPaginatedData_walk. fold pg lim mx. rewrite Hw.
    reflexivity. }
  rewrite Hwalk in *.
  assert (Hlast : after = []).
  { apply (paginate_goes_on get lim mx _ _ _ _ Hw before p after Hreq).
    unfold bee_page_is_last. rewrite Hfail. exact I. }
  split; [exact Hlast|]. subst after.
  destruct (paginate_spec get lim mx _ _ _ _ Hw) as (_ & _ & _ & Hdata).
  rewrite Hdata, Hreq. simpl. rewrite map_app, concat_app. simpl.
  unfold pageData at 2. rewrite Hfail. simpl. rewrite app_nil_r. reflexivity.
Qed.

Lemma bee_fetch_errors_swallowed cfg api options s :
  isEnabled cfg = true -> truthy (apiKey cfg) = true ->
  bee_watermark_readable options s ->
  bee_run_on_fetched cfg api options s.
Proof.
  intros He Hk Hw.
  assert (Hfetch : BeeConnector.fetchData cfg api options s
                   = (s, Return (Some (bee_fetched cfg api options)))).
  { unfold BeeConnector.fetchData. rewrite He, Hk. simpl.
    unfold bind at 1.
    assert (Hl : exists ms,
               (if forceFullSync options then ret epoch
                else getLastSyncTime BeeConnector.sourceName) s
               = (s, Return (ValidDate ms))).
    { destruct Hw as [Hf|[ms Hms]].
      - rewrite Hf. exists 0. reflexivity.
      - destruct (forceFullSync options); [exists 0; reflexivity|eauto]. }
    destruct Hl as [ms ->].
    unfold bee_fetched, BeeConnector._fetchPaginatedData, bind, lift, ret. simpl.
    destruct (sub_conversations cfg), (sub_facts cfg), (sub_todos cfg),
      (sub_locations cfg); reflexivity. }
  split; [exact Hfetch|].
  unfold BeeConnector.sync, BaseConnector.sync. rewrite He. simpl.
  unfold try_catch, bind. rewrite Hfetch. unfold sync_of, store_after, outcome.
  destruct (BeeConnector.processData _ _ _) as [s1 [r|e]]; reflexivity.
Qed.

(** C7, amended. A fetch error is handled per connector.  In the Limitless
    connector a request that fails is the last one and its error leaves the
    pagination loop: the lifelogs of the pages already fetched are dropped,
    [sync] reports a failure with one error (with the message of the
    request when the watermark could be read), and the store is as before
    the run.  In the Bee connector a request that fails is the last one of
    the walk of that endpoint only: [_fetchPaginatedData] returns the
    records of the pages before it, the error reaches no caller,
    [fetchData] returns what the walks accumulated, and the run is the run
    of [processData] on it. *)
Theorem fetch_error_by_connector
    (cfg : SourceConfig) (api : LimitlessConnector.Api) (options : Options)
    (s : Db) (before_l : list (field string)) (c : field string)
    (after_l : list (field string)) (detail_l : string)
    (A : Type) (get : nat -> nat -> BeeConnector.http (list A))
    (options_w : Options) (before : list nat) (p : nat) (after : list nat)
    (detail : string)
    (cfg_b : SourceConfig) (api_b : BeeConnector.Api) (options_b : Options)
    (sb : Db) :
  isEnabled cfg = true -> truthy (apiKey cfg) = true ->
  LimitlessConnector.requests (LimitlessConnector.fetch_walk api options)
  = before_l ++ c :: after_l ->
  api c (or_default (limit options) 50%nat) = LimitlessConnector.Failed detail_l ->
  BeeConnector.requests (BeeConnector._fetchPaginatedData_walk get options_w)
  = before ++ p :: after ->
  get p (or_default (limit options_w) 50%nat) = BeeConnector.Failed detail ->
  isEnabled cfg_b = true -> truthy (apiKey cfg_b) = true ->
  bee_watermark_readable options_b sb ->
  (after_l = []
   /\ LimitlessConnector.fetched (LimitlessConnector.fetch_walk api options)
      = Throw (NetworkError detail_l)
   /\ fatal_run (LimitlessConnector.sync cfg api options s) s
   /\ (Terms.limitless_watermark_readable options s ->
       LimitlessConnector.sync cfg api options s
       = (s, Return (mkSyncResult false (Some detail_l) (mkProcessResult 0 0 1)))))
  /\ (after = []
      /\ BeeConnector.allData (BeeConnector._fetchPaginatedData_walk get options_w)
         = concat (map (pageData get (or_default (limit options_w) 50%nat)) before))
  /\ bee_run_on_fetched cfg_b api_b options_b sb.
Proof.
  intros He Hk Hreq_l Hfail_l Hreq Hfail Heb Hkb Hw.
  destruct (limitless_walk_fails api options before_l c after_l detail_l Hreq_l Hfail_l)
    as [Hlast Hthrow].
  split; [|split].
  - split; [exact Hlast|]. split; [exact Hthrow|]. split.
    + exact (limitless_fetch_error_fatal cfg api options s _ He Hk Hthrow).
    + intros Hread.
      exact (limitless_fetch_error_reported cfg api options s detail_l He Hk Hread Hthrow).
  - exact (bee_walk_keeps_pages get options_w before p after detail Hreq Hfail).
  - exact (bee_fetch_errors_swallowed cfg_b api_b options_b sb Heb Hkb Hw).
Qed.

Lemma fetch_error_by_connector_witness :
  (isEnabled enabledConfig = true /\ truthy (apiKey enabledConfig) = true
   /\ LimitlessConnector.requests
        (LimitlessConnector.fetch_walk secondPageFails noOptions)
      = [Absent] ++ Val "c1" :: []
   /\ secondPageFails (Val "c1") (or_default (limit noOptions) 50%nat)
      = LimitlessConnector.Failed "ECONNRESET"
   /\ BeeConnector.requests
        (BeeConnector._fetchPaginatedData_walk (beeSecondPageFails (fun n => n)) noOptions)
      = [1%nat] ++ 2%nat :: []
   /\ beeSecondPageFails (fun n => n) 2%nat (or_default (limit noOptions) 50%nat)
      = BeeConnector.Failed "ECONNRESET"
   /\ bee_watermark_readable fullSync emptyDb)
  /\ (LimitlessConnector.fetched
        (LimitlessConnector.fetch_walk secondPageFails noOptions)
      = Throw (NetworkError "ECONNRESET")
      /\ fatal_run
           (LimitlessConnector.sync enabledConfig secondPageFails noOptions emptyDb)
           emptyDb)
  /\ BeeConnector.allData
       (BeeConnector._fetchPaginatedData_walk (beeSecondPageFails (fun n => n)) noOptions)
     = concat (map (pageData (beeSecondPageFails (fun n => n))
                      (or_default (limit noOptions) 50%nat)) [1%nat])
  /\ bee_run_on_fetched enabledConfig beeFlakyApi fullSync emptyDb.
Proof.
  assert (H1 : LimitlessConnector.requests
                 (LimitlessConnector.fetch_walk secondPageFails noOptions)
               = [Absent] ++ Val "c1" :: []) by (vm_compute; reflexivity).
  assert (H2 : BeeConnector.requests
                 (BeeConnector._fetchPaginatedData_walk
                    (beeSecondPageFails (fun n => n)) noOptions)
               = [1%nat] ++ 2%nat :: []) by (vm_compute; reflexivity).
  assert (H3 : bee_watermark_readable fullSync emptyDb) by (left; reflexivity).
  split; [exact (conj eq_refl (conj eq_refl (conj H1 (conj eq_refl
                   (conj H2 (conj eq_refl H3))))))|].
  destruct (fetch_error_by_connector enabledConfig secondPageFails noOptions emptyDb
              [Absent] (Val "c1") [] "ECONNRESET"
              nat (beeSecondPageFails (fun n => n)) noOptions
              [1%nat] 2%nat [] "ECONNRESET" enabledConfig beeFlakyApi fullSync emptyDb
              eq_refl eq_refl H1 eq_refl H2 eq_refl eq_refl eq_refl H3)
    as ((_ & Hthrow & Hfatal & _) & (_ & Hdata) & Hbee).
  exact (conj (conj Hthrow Hfatal) (conj Hdata Hbee)).
Defined.

End FetchClaims.

(** ** Values for omitted properties *)

Module DefaultClaims.
Import Stated Scenario ChildFacts RecordFacts.








End DefaultClaims.

(** ** The watermark *)

Module WatermarkFacts.
Import Stated DataProcessorFacts.

Create HintDb watermark.

Lemma keeps_ret {A} (a : A) : keeps_watermarks (ret a).
Proof. intros s. split; reflexivity. Qed.

Lemma keeps_throw {A} (e : exn) : keeps_watermarks (@throw A e).
Proof. intros s. split; reflexivity. Qed.

Lemma keeps_lift {A} (r : result A) : keeps_watermarks (lift r).
Proof. intros s. split; reflexivity. Qed.

Lemma keeps_bind {A B} (m : M A) (k : A -> M B) :
  keeps_watermarks m -> (forall a, keeps_watermarks (k a)) ->
  keeps_watermarks (bind m k).
Proof.
  unfold keeps_watermarks. intros Hm Hk s. unfold bind, store_after in *.
  specialize (Hm s). destruct (m s) as [s1 [a|e]]; cbn [fst] in *; [|exact Hm].
  destruct (Hk a s1) as [H1 H2]. destruct Hm as [H3 H4]. split; congruence.
Qed.

Lemma keeps_try_catch {A} (m : M A) (h : exn -> M A) :
  keeps_watermarks m -> (forall e, keeps_watermarks (h e)) ->
  keeps_watermarks (try_catch m h).
Proof.
  unfold keeps_watermarks. intros Hm Hh s. unfold try_catch, store_after in *.
  specialize (Hm s). destruct (m s) as [s1 [a|e]]; cbn [fst] in *; [exact Hm|].
  destruct (Hh e s1) as [H1 H2]. destruct Hm as [H3 H4]. split; congruence.
Qed.

Lemma keeps_for_of {A St} (body : St -> A -> M St) (l : list A) :
  (forall acc x, keeps_watermarks (body acc x)) ->
  forall acc, keeps_watermarks (for_of body acc l).
Proof.
  intros Hb. induction l as [|x l IH]; intros acc; [apply keeps_ret|].
  simpl. apply keeps_bind; [apply Hb|apply IH].
Qed.

#[local] Hint Resolve keeps_ret keeps_throw keeps_lift : watermark.
#[local] Hint Extern 2 (keeps_watermarks (bind _ _)) =>
  apply keeps_bind; [|intros] : watermark.
#[local] Hint Extern 2 (keeps_watermarks (try_catch _ _)) =>
  apply keeps_try_catch; [|intros] : watermark.

Ltac keeps_statement :=
  intros s; unfold query, pg_reject, throw, store_after;
  repeat match goal with
         | |- context [if ?b then _ else _] => destruct b eqn:?
         | |- context [match ?x with _ => _ end] => destruct x eqn:?
         end; split; simpl; congruence.

Lemma keeps_upsert_conversation a b c d e f g h :
  keeps_watermarks (upsert_conversation a b c d e f g h).
Proof. unfold upsert_conversation. keeps_statement. Qed.

Lemma keeps_insert_utterance a b c d e f g h :
  keeps_watermarks (insert_utterance a b c d e f g h).
Proof. unfold insert_utterance. keeps_statement. Qed.

Lemma keeps_upsert_fact a b c : keeps_watermarks (upsert_fact a b c).
Proof. unfold upsert_fact. keeps_statement. Qed.

Lemma keeps_upsert_todo a b c d : keeps_watermarks (upsert_todo a b c d).
Proof. unfold upsert_todo. keeps_statement. Qed.

Lemma keeps_upsert_location a b c d e : keeps_watermarks (upsert_location a b c d e).
Proof. unfold upsert_location. keeps_statement. Qed.

#[local] Hint Resolve keeps_upsert_conversation keeps_insert_utterance
  keeps_upsert_fact keeps_upsert_todo keeps_upsert_location : watermark.

Section Bee.
Import BeeConnector.

Lemma keeps_processUtterances us dbConvoId :
  keeps_watermarks (_processUtterances us dbConvoId).
Proof.
  induction us as [|u rest IH]; [apply keeps_ret|].
  simpl. apply keeps_bind; [|intros; exact IH].
  unfold processUtterance. apply keeps_try_catch; [|auto with watermark].
  destruct (_ || _); auto with watermark.
Qed.

Lemma keeps_processConversation st convo :
  keeps_watermarks (processConversation st convo).
Proof.
  destruct st as [c t]. unfold processConversation.
  apply keeps_try_catch; [|auto with watermark].
  destruct (_ || _); [auto with watermark|].
  apply keeps_bind; [auto with watermark|intros st0].
  apply keeps_bind; [auto with watermark|intros en0].
  apply keeps_bind; [auto with watermark|intros [dbConvoId inserted]].
  apply keeps_bind; [|auto with watermark].
  destruct (utterances_of convo); [apply keeps_processUtterances|auto with watermark].
Qed.

Lemma keeps_processFact st fact : keeps_watermarks (processFact st fact).
Proof.
  destruct st as [c t]. unfold processFact.
  apply keeps_try_catch; [|auto with watermark].
  destruct (negb _); auto with watermark.
Qed.

Lemma keeps_processTodo st todo : keeps_watermarks (processTodo st todo).
Proof.
  destruct st as [c t]. unfold processTodo.
  apply keeps_try_catch; [|auto with watermark].
  destruct (negb _); [auto with watermark|].
  apply keeps_bind; [auto with watermark|intros alarm].
  auto with watermark.
Qed.

Lemma keeps_processLocation st loc : keeps_watermarks (processLocation st loc).
Proof.
  destruct st as [c t]. unfold processLocation.
  apply keeps_try_catch; [|auto with watermark].
  destruct (_ || _); [auto with watermark|].
  apply keeps_bind; [auto with watermark|intros iso].
  apply keeps_bind; [auto with watermark|intros [rowCount inserted]].
  auto with watermark.
Qed.

Lemma keeps_add_stats {A} (process : list A -> Date -> M Stats) (xs : list A)
    (acc : Stats) :
  (forall l t, keeps_watermarks (process l t)) ->
  keeps_watermarks (add_stats process xs acc).
Proof.
  intros Hp. destruct acc as [total t]. unfold add_stats.
  destruct xs; [apply keeps_ret|].
  apply keeps_bind; [apply Hp|intros; apply keeps_ret].
Qed.

Lemma keeps_process_loop {A} (body : Stats -> A -> M Stats) (l : list A) (t : Date) :
  (forall acc x, keeps_watermarks (body acc x)) ->
  keeps_watermarks (let* st := for_of body (mkProcessResult 0 0 0, epoch) l in
                    ret (finish t st)).
Proof.
  intros Hb. apply keeps_bind; [apply keeps_for_of; exact Hb|intros; apply keeps_ret].
Qed.

Lemma getLastSyncTime_run (source : string) (s : Db) :
  getLastSyncTime source s = (s, outcome (getLastSyncTime source s)).
Proof.
  unfold getLastSyncTime, bind, select_metadata, query, outcome.
  destruct (pool s); [|reflexivity].
  destruct (system_metadata s !! _); reflexivity.
Qed.

Lemma getLastSyncTime_same (source : string) (s s' : Db) :
  system_metadata s' = system_metadata s -> pool s' = pool s ->
  outcome (getLastSyncTime source s') = outcome (getLastSyncTime source s).
Proof.
  intros Hm Hp. unfold getLastSyncTime, bind, select_metadata, query, outcome.
  rewrite Hp, Hm. destruct (pool s); [|reflexivity].
  destruct (system_metadata s !! _); reflexivity.
Qed.

Lemma watermark_kept {A} (m : M A) (s : Db) :
  keeps_watermarks m ->
  outcome (getLastSyncTime sourceName (store_after (m s)))
  = outcome (getLastSyncTime sourceName s).
Proof. intros Hk. destruct (Hk s). apply getLastSyncTime_same; assumption. Qed.

Lemma getLastSyncTime_needs_pool (source : string) (s : Db) (d : Date) :
  outcome (getLastSyncTime source s) = Return d -> pool s = true.
Proof.
  unfold getLastSyncTime, bind, select_metadata, query, outcome.
  destruct (pool s); [reflexivity|discriminate].
Qed.

Lemma updateLastSyncTime_bee_sets (ms : Z) (s : Db) :
  pool s = true ->
  outcome (getLastSyncTime sourceName
             (store_after (updateLastSyncTime sourceName (ValidDate ms) s)))
  = Return (ValidDate ms).
Proof.
  intros Hp. unfold updateLastSyncTime, bind, lift, store_after. simpl.
  unfold upsert_metadata, query. rewrite Hp. simpl.
  unfold getLastSyncTime, bind, select_metadata, query, outcome. simpl.
  rewrite Hp. rewrite lookup_insert_eq. reflexivity.
Qed.

(** The sibling path of the watermark: the Bee [processData] reads the
    stored value and writes only a later one. *)
Lemma bee_watermark_never_moves_back (data : Data) (options : Options) (s : Db)
    (t0 t1 : Z) :
  outcome (getLastSyncTime sourceName s) = Return (ValidDate t0) ->
  outcome (getLastSyncTime sourceName (store_after (processData data options s)))
  = Return (ValidDate t1) ->
  t0 <= t1.
Proof.
  intros H0. unfold processData.
  unfold bind at 1. rewrite (getLastSyncTime_run sourceName s), H0.
  set (P := fun s' : Db =>
              outcome (getLastSyncTime sourceName s') = Return (ValidDate t0)).
  assert (Hstep : forall {A} (m : M A) s', keeps_watermarks m -> P s' ->
                    P (store_after (m s'))).
  { intros A m s' Hk Hs'. unfold P. rewrite (watermark_kept m s' Hk). exact Hs'. }
  assert (Hend : forall s', P s' ->
            outcome (getLastSyncTime sourceName s') = Return (ValidDate t1) ->
            t0 <= t1).
  { intros s' Hs' Ht1. unfold P in Hs'. rewrite Hs' in Ht1.
    injection Ht1 as ->. lia. }
  assert (Hloop : forall {A} (body : Stats -> A -> M Stats) (l : list A) (t : Date),
            (forall acc x, keeps_watermarks (body acc x)) ->
            keeps_watermarks (let* st := for_of body (mkProcessResult 0 0 0, epoch) l in
                              ret (finish t st))).
  { intros A body l t Hb. apply keeps_process_loop. exact Hb. }
  unfold bind at 1.
  pose proof (Hstep _ (add_stats _processConversations (conversations data)
                         (mkProcessResult 0 0 0, ValidDate t0)) s
                (keeps_add_stats _ _ _
                   (fun l t => Hloop _ processConversation l t keeps_processConversation))
                H0) as H1.
  destruct (add_stats _processConversations _ _ s) as [s1 [acc1|e1]];
    unfold store_after in H1 at 1; cbn [fst] in H1;
    [|intros Ht1; exact (Hend s1 H1 Ht1)].
  unfold bind at 1.
  pose proof (Hstep _ (add_stats _processFacts (facts data) acc1) s1
                (keeps_add_stats _ _ _
                   (fun l t => Hloop _ processFact l t keeps_processFact)) H1) as H2.
  destruct (add_stats _processFacts _ _ s1) as [s2 [acc2|e2]];
    unfold store_after in H2 at 1; cbn [fst] in H2;
    [|intros Ht1; exact (Hend s2 H2 Ht1)].
  unfold bind at 1.
  pose proof (Hstep _ (add_stats _processTodos (todos data) acc2) s2
                (keeps_add_stats _ _ _
                   (fun l t => Hloop _ processTodo l t keeps_processTodo)) H2) as H3.
  destruct (add_stats _processTodos _ _ s2) as [s3 [acc3|e3]];
    unfold store_after in H3 at 1; cbn [fst] in H3;
    [|intros Ht1; exact (Hend s3 H3 Ht1)].
  unfold bind at 1.
  pose proof (Hstep _ (add_stats _processLocations (locations data) acc3) s3
                (keeps_add_stats _ _ _
                   (fun l t => Hloop _ processLocation l t keeps_processLocation)) H3)
    as H4.
  destruct (add_stats _processLocations _ _ s3) as [s4 [[total latest]|e4]];
    unfold store_after in H4 at 1; cbn [fst] in H4;
    [|intros Ht1; exact (Hend s4 H4 Ht1)].
  unfold bind at 1. rewrite (getLastSyncTime_run sourceName s4). unfold P in H4.
  rewrite H4.
  unfold bind at 1.
  destruct (date_gt latest (ValidDate t0)) eqn:Hgt.
  - destruct latest as [|tl]; [discriminate Hgt|].
    simpl in Hgt. apply Z.ltb_lt in Hgt.
    pose proof (updateLastSyncTime_bee_sets tl s4
                  (getLastSyncTime_needs_pool _ _ _ H4)) as Hset.
    destruct (updateLastSyncTime sourceName (ValidDate tl) s4) as [s5 [[]|e5]];
      unfold store_after in Hset at 1; cbn [fst] in Hset.
    + unfold bind at 1, lift.
      destruct (map_throwing _ _) as [days|e6].
      * unfold bind. rewrite rollup_days_noop. unfold store_after, ret. cbn [fst].
        rewrite Hset. intros [= <-]. lia.
      * unfold store_after. cbn [fst]. rewrite Hset. intros [= <-]. lia.
    + unfold store_after. cbn [fst]. rewrite Hset. intros [= <-]. lia.
  - unfold ret at 1. unfold bind at 1, lift.
    destruct (map_throwing _ _) as [days|e6].
    + unfold bind. rewrite rollup_days_noop. unfold store_after, ret. cbn [fst].
      intros Ht1. exact (Hend s4 H4 Ht1).
    + unfold store_after. cbn [fst]. intros Ht1. exact (Hend s4 H4 Ht1).
Qed.

End Bee.

End WatermarkFacts.

(** * Further properties of the code *)

(** ** What a run may change *)

Module StepFacts.
Import Terms Stated.

Section Steps.
Context (R : Db -> Db -> Prop).
Hypothesis R_refl : forall s, R s s.
Hypothesis R_trans : forall s1 s2 s3, R s1 s2 -> R s2 s3 -> R s1 s3.

Lemma steps_ret {A} (a : A) : steps R (ret a).
Proof. intros s. apply R_refl. Qed.

Lemma steps_throw {A} (e : exn) : steps R (@throw A e).
Proof. intros s. apply R_refl. Qed.

Lemma steps_lift {A} (r : result A) : steps R (lift r).
Proof. intros s. apply R_refl. Qed.

Lemma steps_same {A} (m : M A) :
  (forall s, store_after (m s) = s) -> steps R m.
Proof. intros H s. rewrite H. apply R_refl. Qed.

Lemma steps_bind {A B} (m : M A) (k : A -> M B) :
  steps R m -> (forall a, steps R (k a)) -> steps R (bind m k).
Proof.
  intros Hm Hk s. specialize (Hm s). unfold bind, store_after in *.
  destruct (m s) as [s1 [a|e]]; cbn [fst] in *; [|exact Hm].
  eapply R_trans; [exact Hm|apply Hk].
Qed.

Lemma steps_try_catch {A} (m : M A) (h : exn -> M A) :
  steps R m -> (forall e, steps R (h e)) -> steps R (try_catch m h).
Proof.
  intros Hm Hh s. specialize (Hm s). unfold try_catch, store_after in *.
  destruct (m s) as [s1 [a|e]]; cbn [fst] in *; [exact Hm|].
  eapply R_trans; [exact Hm|apply Hh].
Qed.

Lemma steps_for_of {A St} (body : St -> A -> M St) (l : list A) :
  (forall acc x, steps R (body acc x)) -> forall acc, steps R (for_of body acc l).
Proof.
  intros Hb. induction l as [|x l IH]; intros acc; [apply steps_ret|].
  simpl. apply steps_bind; [apply Hb|apply IH].
Qed.

(** [BaseConnector.sync] moves the store as [fetchData] and [processData]
    do. *)
Lemma steps_sync {Raw} (sourceName : string) (cfg : SourceConfig)
    (fetchData : Options -> M (option Raw))
    (processData : Raw -> Options -> M ProcessResult) (options : Options) :
  steps R (fetchData options) ->
  (forall data, steps R (processData data options)) ->
  steps R (sync sourceName cfg fetchData processData options).
Proof.
  intros Hf Hp. unfold sync.
  destruct (negb (isEnabled cfg)); [apply steps_ret|].
  apply steps_try_catch; [|intros; apply steps_ret].
  apply steps_bind; [exact Hf|]. intros [data|]; [|apply steps_ret].
  apply steps_bind; [apply Hp|intros; apply steps_ret].
Qed.

Section Limitless.
Import LimitlessConnector.

Hypothesis R_upsert_limitless_entry :
  forall a b c d e f, steps R (upsert_limitless_entry a b c d e f).
Hypothesis R_insert_content_node :
  forall a b c d e f g h i j, steps R (insert_content_node a b c d e f g h i j).
Hypothesis R_updateLastSyncTime :
  forall d, steps R (updateLastSyncTime sourceName d).

Lemma steps_processContentNode (node : ContentNode) :
  forall entryId parent, steps R (processContentNode entryId parent node).
Proof.
  induction node as [f children IH] using ChildFacts.ContentNode_rect_children.
  intros entryId parent. simpl.
  apply steps_try_catch; [|intros; apply steps_ret].
  apply steps_bind; [apply steps_lift|intros start_time].
  apply steps_bind; [apply steps_lift|intros end_time].
  apply steps_bind; [apply R_insert_content_node|intros nid].
  induction IH as [|c rest Hc _ IHrest]; [apply steps_ret|].
  apply steps_bind; [apply Hc|intros; exact IHrest].
Qed.

Lemma steps_processContentNodes (nodes : list ContentNode) (entryId : nat)
    (parent : option nat) :
  steps R (processContentNodes nodes entryId parent).
Proof.
  induction nodes as [|n rest IH]; [apply steps_ret|].
  simpl. apply steps_bind; [apply steps_processContentNode|intros; exact IH].
Qed.

Lemma steps_processLifelog (c : ProcessResult) (lifelog : Lifelog) :
  steps R (processLifelog c lifelog).
Proof.
  unfold processLifelog.
  apply steps_try_catch; [|intros; apply steps_ret].
  destruct (negb _); [apply steps_ret|].
  destruct (_ || _); [apply steps_ret|].
  apply steps_bind; [apply steps_lift|intros].
  apply steps_bind; [apply steps_lift|intros].
  apply steps_bind; [apply R_upsert_limitless_entry|intros [dbEntryId inserted]].
  apply steps_bind; [apply steps_processContentNodes|intros; apply steps_ret].
Qed.

Lemma steps_limitless_processData (lifelogs : list Lifelog) (options : Options) :
  steps R (processData lifelogs options).
Proof.
  unfold processData. destruct lifelogs as [|l ls]; [apply steps_ret|].
  apply steps_bind; [apply steps_for_of; intros; apply steps_processLifelog|intros c].
  apply steps_bind; [|intros; apply steps_ret].
  destruct (_ && _); [|apply steps_ret].
  apply steps_bind.
  - destruct (date_gt _ _); [apply R_updateLastSyncTime|apply steps_ret].
  - intros _. apply steps_bind; [apply steps_lift|intros days].
    apply steps_same. intros s.
    rewrite DataProcessorFacts.rollup_days_noop. reflexivity.
Qed.

Lemma steps_limitless_sync (cfg : SourceConfig) (api : Api) (options : Options) :
  steps R (LimitlessConnector.sync cfg api options).
Proof.
  apply steps_sync.
  - apply steps_same. intros s. apply FetchClaims.limitless_fetchData_reads.
  - intros data. apply steps_limitless_processData.
Qed.

End Limitless.

Section Bee.
Import BeeConnector.

Hypothesis R_upsert_conversation :
  forall a b c d e f g h, steps R (upsert_conversation a b c d e f g h).
Hypothesis R_insert_utterance :
  forall a b c d e f g h, steps R (insert_utterance a b c d e f g h).
Hypothesis R_upsert_fact : forall a b c, steps R (upsert_fact a b c).
Hypothesis R_upsert_todo : forall a b c d, steps R (upsert_todo a b c d).
Hypothesis R_upsert_location : forall a b c d e, steps R (upsert_location a b c d e).
Hypothesis R_updateLastSyncTime_bee :
  forall d, steps R (updateLastSyncTime sourceName d).

Lemma steps_getLastSyncTime (source : string) : steps R (getLastSyncTime source).
Proof. apply steps_same. intros s. apply FetchClaims.getLastSyncTime_reads. Qed.

Lemma steps_processUtterances (utterances : list Utterance) (dbConvoId : nat) :
  steps R (_processUtterances utterances dbConvoId).
Proof.
  induction utterances as [|utt rest IH]; [apply steps_ret|].
  simpl. apply steps_bind; [|intros; exact IH].
  unfold processUtterance.
  apply steps_try_catch; [|intros; apply steps_ret].
  destruct (_ || _); [apply steps_ret|].
  apply steps_bind; [apply steps_lift|intros; apply R_insert_utterance].
Qed.

Lemma steps_processConversation (st : Stats) (convo : Conversation) :
  steps R (processConversation st convo).
Proof.
  destruct st as [c latest]. unfold processConversation.
  apply steps_try_catch; [|intros; apply steps_ret].
  destruct (_ || _); [apply steps_ret|].
  apply steps_bind; [apply steps_lift|intros].
  apply steps_bind; [apply steps_lift|intros].
  apply steps_bind; [apply R_upsert_conversation|intros [dbConvoId inserted]].
  apply steps_bind; [|intros; apply steps_ret].
  destruct (utterances_of convo); [apply steps_processUtterances|apply steps_ret].
Qed.

Lemma steps_processFact (st : Stats) (fact : Fact) : steps R (processFact st fact).
Proof.
  destruct st as [c latest]. unfold processFact.
  apply steps_try_catch; [|intros; apply steps_ret].
  destruct (negb _); [apply steps_ret|].
  apply steps_bind; [apply R_upsert_fact|intros; apply steps_ret].
Qed.

Lemma steps_processTodo (st : Stats) (todo : Todo) : steps R (processTodo st todo).
Proof.
  destruct st as [c latest]. unfold processTodo.
  apply steps_try_catch; [|intros; apply steps_ret].
  destruct (negb _); [apply steps_ret|].
  apply steps_bind; [apply steps_lift|intros].
  apply steps_bind; [apply R_upsert_todo|intros; apply steps_ret].
Qed.

Lemma steps_processLocation (st : Stats) (loc : Location) :
  steps R (processLocation st loc).
Proof.
  destruct st as [c latest]. unfold processLocation.
  apply steps_try_catch; [|intros; apply steps_ret].
  destruct (_ || _); [apply steps_ret|].
  apply steps_bind; [apply steps_lift|intros].
  apply steps_bind; [apply R_upsert_location|intros [rowCount inserted]; apply steps_ret].
Qed.

Lemma steps_add_stats {A} (process : list A -> Date -> M Stats) (xs : list A)
    (acc : Stats) :
  (forall l t, steps R (process l t)) -> steps R (add_stats process xs acc).
Proof.
  intros Hp. destruct acc as [total latest]. unfold add_stats.
  destruct xs; [apply steps_ret|].
  apply steps_bind; [apply Hp|intros; apply steps_ret].
Qed.

Lemma steps_process_loop {A} (body : Stats -> A -> M Stats) (l : list A) (t : Date) :
  (forall acc x, steps R (body acc x)) ->
  steps R (let* st := for_of body (mkProcessResult 0 0 0, epoch) l in
           ret (finish t st)).
Proof.
  intros Hb. apply steps_bind; [apply steps_for_of; exact Hb|intros; apply steps_ret].
Qed.

Lemma steps_bee_processData (data : Data) (options : Options) :
  steps R (processData data options).
Proof.
  unfold processData.
  apply steps_bind; [apply steps_getLastSyncTime|intros t0].
  apply steps_bind.
  { apply steps_add_stats. intros l t.
    apply (steps_process_loop processConversation). apply steps_processConversation. }
  intros acc1. apply steps_bind.
  { apply steps_add_stats. intros l t.
    apply (steps_process_loop processFact). apply steps_processFact. }
  intros acc2. apply steps_bind.
  { apply steps_add_stats. intros l t.
    apply (steps_process_loop processTodo). apply steps_processTodo. }
  intros acc3. apply steps_bind.
  { apply steps_add_stats. intros l t.
    apply (steps_process_loop processLocation). apply steps_processLocation. }
  intros [total latest].
  apply steps_bind; [apply steps_getLastSyncTime|intros stored].
  apply steps_bind.
  { destruct (date_gt _ _); [apply R_updateLastSyncTime_bee|apply steps_ret]. }
  intros _. apply steps_bind; [apply steps_lift|intros days].
  apply steps_bind; [|intros; apply steps_ret].
  apply steps_same. intros s. rewrite DataProcessorFacts.rollup_days_noop. reflexivity.
Qed.

Lemma steps_bee_fetchData (cfg : SourceConfig) (api : Api) (options : Options) :
  steps R (fetchData cfg api options).
Proof.
  unfold fetchData. destruct (_ || _); [apply steps_ret|].
  apply steps_bind.
  { destruct (forceFullSync options); [apply steps_ret|apply steps_getLastSyncTime]. }
  intros lastSyncTime.
  apply steps_bind; [apply steps_lift|intros _].
  apply steps_bind.
  { destruct (sub_conversations cfg); [|apply steps_ret].
    apply steps_bind; [apply steps_lift|intros; apply steps_ret]. }
  intros convos. apply steps_bind.
  { destruct (sub_facts cfg); [apply steps_lift|apply steps_ret]. }
  intros facts. apply steps_bind.
  { destruct (sub_todos cfg); [apply steps_lift|apply steps_ret]. }
  intros todos. apply steps_bind.
  { destruct (sub_locations cfg); [apply steps_lift|apply steps_ret]. }
  intros locations. apply steps_ret.
Qed.

Lemma steps_bee_sync (cfg : SourceConfig) (api : Api) (options : Options) :
  steps R (BeeConnector.sync cfg api options).
Proof.
  apply steps_sync.
  - apply steps_bee_fetchData.
  - intros data. apply steps_bee_processData.
Qed.

End Bee.

End Steps.


Lemma limitless_run_refl (s : Db) : limitless_run s s.
Proof. repeat split; reflexivity. Qed.

Lemma limitless_run_trans (s1 s2 s3 : Db) :
  limitless_run s1 s2 -> limitless_run s2 s3 -> limitless_run s1 s3.
Proof.
  intros (H1 & H2 & H3 & H4 & H5) (G1 & G2 & G3 & G4 & G5).
  repeat split; try congruence. etransitivity; eassumption.
Qed.

Lemma bee_run_refl (s : Db) : bee_run s s.
Proof. repeat split; reflexivity. Qed.

Lemma bee_run_trans (s1 s2 s3 : Db) :
  bee_run s1 s2 -> bee_run s2 s3 -> bee_run s1 s3.
Proof.
  intros (H1 & H2 & H3 & H4 & H5) (G1 & G2 & G3 & G4 & G5).
  repeat split; try congruence. etransitivity; eassumption.
Qed.

(** A statement of [DatabaseManager] either leaves the store or changes
    the one table it names. *)
Ltac run_statement :=
  intros s; unfold query, pg_reject, throw, store_after;
  repeat match goal with
         | |- context [if ?b then _ else _] => destruct b eqn:?
         | |- context [match ?x with _ => _ end] => destruct x eqn:?
         end;
  cbn [fst];
  first [apply limitless_run_refl | apply bee_run_refl | idtac].

Lemma limitless_run_upsert_limitless_entry a b c d e f :
  steps limitless_run (upsert_limitless_entry a b c d e f).
Proof.
  unfold upsert_limitless_entry. run_statement; repeat split; reflexivity.
Qed.

Lemma limitless_run_insert_content_node a b c d e f g h i j :
  steps limitless_run (insert_content_node a b c d e f g h i j).
Proof.
  unfold insert_content_node. run_statement.
  repeat split; try reflexivity. simpl. apply prefix_app_r. reflexivity.
Qed.

Lemma limitless_run_updateLastSyncTime d :
  steps limitless_run (updateLastSyncTime LimitlessConnector.sourceName d).
Proof.
  unfold updateLastSyncTime, bind, lift, upsert_metadata. run_statement.
  repeat split; try reflexivity.
  unfold other_watermarks. simpl. apply delete_insert_eq.
Qed.

Lemma limitless_sync_run cfg api options s :
  limitless_run s (store_after (LimitlessConnector.sync cfg api options s)).
Proof.
  apply (steps_limitless_sync limitless_run limitless_run_refl limitless_run_trans
           limitless_run_upsert_limitless_entry limitless_run_insert_content_node
           limitless_run_updateLastSyncTime).
Qed.

Lemma bee_run_upsert_conversation a b c d e f g h :
  steps bee_run (upsert_conversation a b c d e f g h).
Proof. unfold upsert_conversation. run_statement; repeat split; reflexivity. Qed.

Lemma bee_run_insert_utterance a b c d e f g h :
  steps bee_run (insert_utterance a b c d e f g h).
Proof.
  unfold insert_utterance. run_statement.
  repeat split; try reflexivity. simpl. apply insert_subseteq. assumption.
Qed.

Lemma bee_run_upsert_fact a b c : steps bee_run (upsert_fact a b c).
Proof. unfold upsert_fact. run_statement; repeat split; reflexivity. Qed.

Lemma bee_run_upsert_todo a b c d : steps bee_run (upsert_todo a b c d).
Proof. unfold upsert_todo. run_statement; repeat split; reflexivity. Qed.

Lemma bee_run_upsert_location a b c d e : steps bee_run (upsert_location a b c d e).
Proof. unfold upsert_location. run_statement; repeat split; reflexivity. Qed.

Lemma bee_run_updateLastSyncTime d :
  steps bee_run (updateLastSyncTime BeeConnector.sourceName d).
Proof.
  unfold updateLastSyncTime, bind, lift, upsert_metadata. run_statement.
  repeat split; try reflexivity.
  unfold other_watermarks. simpl. apply delete_insert_eq.
Qed.

Lemma bee_sync_run cfg api options s :
  bee_run s (store_after (BeeConnector.sync cfg api options s)).
Proof.
  apply (steps_bee_sync bee_run bee_run_refl bee_run_trans
           bee_run_upsert_conversation bee_run_insert_utterance bee_run_upsert_fact
           bee_run_upsert_todo bee_run_upsert_location bee_run_updateLastSyncTime).
Qed.

End StepFacts.

(** ** Content nodes *)

Module ContentNodeFacts.
Import Terms Stated LimitlessConnector.

(** The loop over the children of a node is [processContentNodes]. *)
Lemma children_loop_eq (entryId : nat) (parent : option nat)
    (children : list ContentNode) (s : Db) :
  (fix each (nodes : list ContentNode) : M unit :=
     match nodes with
     | [] => ret tt
     | child :: rest => processContentNode entryId parent child ;; each rest
     end) children s
  = processContentNodes children entryId parent s.
Proof.
  revert s. induction children as [|c rest IH]; intros s; [reflexivity|].
  cbn [processContentNodes]. unfold bind.
  destruct (processContentNode entryId parent c s) as [s1 [[]|e]]; [apply IH|reflexivity].
Qed.

Lemma processContentNode_eq (entryId : nat) (parent : option nat) (f : NodeFields)
    (children : list ContentNode) (s : Db) :
  processContentNode entryId parent (Node f children) s
  = try_catch
      (let* start_time := lift (optional_instant (n_start_time f)) in
       let* end_time := lift (optional_instant (n_end_time f)) in
       let* contentNodeDbId :=
         insert_content_node entryId parent
           (or_default (or_else (n_node_type f) (n_type f)) "unknown")
           (or_else (n_content f) (n_text f)) start_time end_time
           (or_else (n_start_offset_ms f) (n_startOffsetMs f))
           (or_else (n_end_offset_ms f) (n_endOffsetMs f))
           (or_else (n_speaker_name f) (n_speakerName f))
           (or_else (n_speaker_identifier f) (n_speakerIdentifier f)) in
       processContentNodes children entryId (Some contentNodeDbId))
      (fun _ => ret tt) s.
Proof.
  cbn [processContentNode]. unfold try_catch.
  match goal with |- match ?a with _ => _ end = match ?b with _ => _ end =>
    assert (Heq : a = b); [|rewrite Heq; reflexivity] end.
  unfold bind at 1 5, lift.
  destruct (optional_instant (n_start_time f)) as [start_time|]; [|reflexivity].
  unfold bind at 1 4.
  destruct (optional_instant (n_end_time f)) as [end_time|]; [|reflexivity].
  unfold bind.
  match goal with |- context [insert_content_node ?a ?b ?c ?d ?e ?g ?h ?i ?j ?k s] =>
    destruct (insert_content_node a b c d e g h i j k s) as [s0 [nid|e0]]
  end; [|reflexivity].
  apply children_loop_eq.
Qed.

Lemma stored_under_nil (entryId : nat) (parent : option nat) (s : Db) :
  stored_under entryId parent s s [].
Proof.
  unfold stored_under. simpl. rewrite app_nil_r, Nat.add_0_r.
  repeat split; constructor.
Qed.

Lemma stored_under_app (entryId : nat) (parent : option nat) (s s1 s2 : Db)
    (a1 a2 : list ContentNodeRow) :
  stored_under entryId parent s s1 a1 -> stored_under entryId parent s1 s2 a2 ->
  stored_under entryId parent s s2 (a1 ++ a2).
Proof.
  intros (H1 & H2 & H3 & H4 & H5 & H6) (G1 & G2 & G3 & G4 & G5 & G6).
  unfold stored_under. rewrite length_app.
  split; [rewrite G1, H1, app_assoc; reflexivity|].
  split; [lia|]. split; [congruence|].
  split; [rewrite fmap_app, seq_app, H4, G4, H2; reflexivity|].
  split; [apply Forall_app; split; assumption|].
  apply Forall_app. split.
  - eapply Forall_impl; [exact H6|]. intros r [Hp|(r' & Hin & Hp & Hlt)]; [left; exact Hp|].
    right. exists r'. split; [apply elem_of_app; left; exact Hin|]. split; assumption.
  - eapply Forall_impl; [exact G6|]. intros r [Hp|(r' & Hin & Hp & Hlt)]; [left; exact Hp|].
    right. exists r'. split; [apply elem_of_app; right; exact Hin|]. split; assumption.
Qed.

Lemma stored_under_node (entryId : nat) (parent : option nat) (s s0 s' : Db)
    (row : ContentNodeRow) (added : list ContentNodeRow) :
  cn_id row = next_id s -> cn_entry_id row = entryId -> cn_parent_id row = parent ->
  limitless_content_nodes s0 = limitless_content_nodes s ++ [row] ->
  next_id s0 = S (next_id s) -> pool s0 = pool s ->
  stored_under entryId (Some (next_id s)) s0 s' added ->
  stored_under entryId parent s s' (row :: added).
Proof.
  intros Hid He Hp Hrows Hnext Hpool (G1 & G2 & G3 & G4 & G5 & G6).
  unfold stored_under. rewrite fmap_cons. cbn [length seq].
  split; [rewrite G1, Hrows, <- app_assoc; reflexivity|].
  split; [lia|]. split; [congruence|].
  split; [rewrite Hid, G4, Hnext; reflexivity|].
  split; [constructor; assumption|].
  constructor; [left; exact Hp|].
  assert (Hids : Forall (fun r => (next_id s < cn_id r)%nat) added).
  { apply Forall_forall. intros r Hr.
    assert (Hin : cn_id r ∈ cn_id <$> added).
    { apply list_elem_of_fmap_2, Hr. }
    rewrite G4, Hnext in Hin. apply elem_of_seq in Hin. lia. }
  apply Forall_forall. intros r Hr.
  pose proof (proj1 (Forall_forall _ _) G6 r Hr) as [Hpr|(r' & Hin & Hpr & Hlt)].
  - right. exists row. split; [left|]. rewrite Hid. split; [exact Hpr|].
    exact (proj1 (Forall_forall _ _) Hids r Hr).
  - right. exists r'. split; [right; exact Hin|]. split; assumption.
Qed.

(** What [insert_content_node] does: with the pool up, values that fit
    the columns and references that are there, it appends one row under
    the next id; otherwise it throws and leaves the store. *)
Lemma insert_content_node_result entryId parent node_type content st en so eo sn si s :
  if pool s
     && ((varchar 50 (Some node_type) && varchar 255 (pg_param sn)
          && varchar 50 (pg_param si))
         && (integer (pg_param so) && integer (pg_param eo)))
     && (references_entry entryId s && references_content_node parent s)
  then
    insert_content_node entryId parent node_type content st en so eo sn si s
    = (set_limitless_content_nodes
         (limitless_content_nodes s
          ++ [mkContentNodeRow (next_id s) entryId parent node_type (pg_param content)
                st en (pg_param so) (pg_param eo) (pg_param sn) (pg_param si)])
         (set_next_id (S (next_id s)) s),
       Return (next_id s))
  else
    exists e,
      insert_content_node entryId parent node_type content st en so eo sn si s
      = (s, Throw e).
Proof.
  unfold insert_content_node, query, pg_reject, throw.
  destruct (pool s); cbn [andb]; [|eexists; reflexivity].
  destruct (varchar 50 (Some node_type) && varchar 255 (pg_param sn)
            && varchar 50 (pg_param si)); cbn [andb negb]; [|eexists; reflexivity].
  destruct (integer (pg_param so) && integer (pg_param eo)); cbn [andb negb];
    [|eexists; reflexivity].
  destruct (references_entry entryId s && references_content_node parent s);
    cbn [negb]; [reflexivity|eexists; reflexivity].
Qed.

Lemma forest_size_cons (node : ContentNode) (rest : list ContentNode) :
  forest_size (node :: rest) = (tree_size node + forest_size rest)%nat.
Proof. reflexivity. Qed.

Lemma tree_size_node (f : NodeFields) (children : list ContentNode) :
  tree_size (Node f children) = S (forest_size children).
Proof. reflexivity. Qed.

Lemma forest_rows (nodes : list ContentNode) :
  Forall node_rows nodes ->
  forall entryId parent s,
    exists added,
      stored_under entryId parent s
        (store_after (processContentNodes nodes entryId parent s)) added
      /\ (length added <= forest_size nodes)%nat.
Proof.
  induction 1 as [|n rest Hn _ IH]; intros entryId parent s.
  - exists []. split; [apply stored_under_nil|]. simpl; lia.
  - cbn [processContentNodes]. unfold bind, store_after.
    destruct (Hn entryId parent s) as (a1 & H1 & Hle1).
    pose proof (ChildFacts.processContentNode_returns entryId parent n s) as Hret.
    unfold store_after, outcome in *.
    destruct (processContentNode entryId parent n s) as [s1 r1].
    cbn [fst snd] in *. subst r1.
    destruct (IH entryId parent s1) as (a2 & H2 & Hle2).
    exists (a1 ++ a2). split; [eapply stored_under_app; eassumption|].
    rewrite forest_size_cons, length_app. lia.
Qed.

Lemma every_node_rows (node : ContentNode) : node_rows node.
Proof.
  induction node as [f children IH] using ChildFacts.ContentNode_rect_children.
  intros entryId parent s. rewrite processContentNode_eq.
  unfold try_catch, store_after. unfold bind at 1, lift.
  rewrite tree_size_node.
  destruct (optional_instant (n_start_time f)) as [st|];
    [|exists []; split; [apply stored_under_nil|simpl; lia]].
  unfold bind at 1.
  destruct (optional_instant (n_end_time f)) as [en|];
    [|exists []; split; [apply stored_under_nil|simpl; lia]].
  unfold bind at 1.
  match goal with |- context [insert_content_node ?a ?b ?c ?d ?e ?g ?h ?i ?j ?k s] =>
    pose proof (insert_content_node_result a b c d e g h i j k s) as Hins
  end.
  match type of Hins with (if ?b then _ else _) => destruct b end.
  2:{ destruct Hins as (e & ->). exists []. split; [apply stored_under_nil|simpl; lia]. }
  rewrite Hins. clear Hins.
  set (row := mkContentNodeRow _ _ _ _ _ _ _ _ _ _ _).
  set (s0 := set_limitless_content_nodes _ _).
  destruct (forest_rows children IH entryId (Some (next_id s)) s0)
    as (added & Hunder & Hle).
  pose proof (ChildFacts.processContentNodes_returns children entryId
                (Some (next_id s)) s0) as Hret.
  unfold store_after, outcome in *.
  destruct (processContentNodes children entryId (Some (next_id s)) s0) as [s' r'].
  cbn [fst snd] in *. subst r'. cbn [fst].
  exists (row :: added). split.
  - apply (stored_under_node entryId parent s s0 s' row added); try reflexivity.
    exact Hunder.
  - cbn [length]. lia.
Qed.

(** The references of a content node stay good while content nodes are
    added. *)
Lemma references_entry_same (entryId : nat) (s s' : Db) :
  limitless_entries s' = limitless_entries s ->
  references_entry entryId s' = references_entry entryId s.
Proof. unfold references_entry. intros ->. reflexivity. Qed.

Lemma references_content_node_more (parent : option nat) (s s' : Db)
    (added : list ContentNodeRow) :
  limitless_content_nodes s' = limitless_content_nodes s ++ added ->
  references_content_node parent s = true ->
  references_content_node parent s' = true.
Proof.
  unfold references_content_node. intros ->. destruct parent as [id|]; [|reflexivity].
  rewrite existsb_app. intros ->. reflexivity.
Qed.

Lemma rows_of_forest_app (entryId : nat) (parent : option nat)
    (nodes1 nodes2 : list ContentNode) (rows1 rows2 : list ContentNodeRow) :
  rows_of_forest entryId parent nodes1 rows1 ->
  rows_of_forest entryId parent nodes2 rows2 ->
  rows_of_forest entryId parent (nodes1 ++ nodes2) (rows1 ++ rows2).
Proof.
  intros H1 H2.
  induction H1 as [|parent f children rest id row below after Hrow Hbelow _ _ IH];
    [exact H2|].
  cbn [app]. rewrite <- app_assoc.
  econstructor; [exact Hrow|exact Hbelow|exact (IH H2)].
Qed.

Lemma rows_of_forest_length (entryId : nat) (parent : option nat)
    (nodes : list ContentNode) (rows : list ContentNodeRow) :
  rows_of_forest entryId parent nodes rows -> length rows = forest_size nodes.
Proof.
  induction 1 as [|parent f children rest id row below after _ _ IHb _ IHa];
    [reflexivity|].
  rewrite forest_size_cons, tree_size_node. cbn [length].
  rewrite length_app, IHb, IHa. reflexivity.
Qed.

Lemma processContentNodes_one (node : ContentNode) (entryId : nat)
    (parent : option nat) (s : Db) :
  store_after (processContentNodes [node] entryId parent s)
  = store_after (processContentNode entryId parent node s).
Proof.
  cbn [processContentNodes]. unfold bind, store_after.
  destruct (processContentNode entryId parent node s) as [s1 [[]|e]]; reflexivity.
Qed.

Lemma processContentNodes_cons (node : ContentNode) (rest : list ContentNode)
    (entryId : nat) (parent : option nat) (s : Db) :
  store_after (processContentNodes (node :: rest) entryId parent s)
  = store_after (processContentNodes rest entryId parent
                   (store_after (processContentNode entryId parent node s))).
Proof.
  cbn [processContentNodes]. unfold bind, store_after.
  pose proof (ChildFacts.processContentNode_returns entryId parent node s) as Hret.
  unfold outcome in Hret.
  destruct (processContentNode entryId parent node s) as [s1 r1].
  cbn [snd] in Hret. subst r1. reflexivity.
Qed.

Lemma storable_forest_stored (nodes : list ContentNode) :
  Forall (fun node => forest_stored [node]) nodes -> forest_stored nodes.
Proof.
  induction 1 as [|n rest Hn _ IH]; intros entryId parent s Hpool Hs Hentry Hparent.
  - exists []. cbn. rewrite app_nil_r. repeat split; [constructor|exact Hpool].
  - cbn [forallb] in Hs. apply andb_prop in Hs as [Hs1 Hs2].
    destruct (Hn entryId parent s Hpool) as (a1 & H1 & Hrows1 & Hp1 & He1);
      [cbn [forallb]; rewrite Hs1; reflexivity|exact Hentry|exact Hparent|].
    rewrite processContentNodes_one in H1, Hp1, He1.
    rewrite processContentNodes_cons.
    set (s1 := store_after (processContentNode entryId parent n s)) in *.
    destruct (IH entryId parent s1 Hp1 Hs2) as (a2 & H2 & Hrows2 & Hp2 & He2).
    { rewrite (references_entry_same entryId s s1 He1). exact Hentry. }
    { exact (references_content_node_more parent s s1 a1 H1 Hparent). }
    exists (a1 ++ a2).
    split; [rewrite H2, H1, app_assoc; reflexivity|].
    split; [exact (rows_of_forest_app entryId parent [n] rest a1 a2 Hrows1 Hrows2)|].
    split; [exact Hp2|congruence].
Qed.

(** A node that can be stored: its row is appended under the next id, and
    its children are processed under that id. *)
Lemma processContentNode_stores (entryId : nat) (parent : option nat) (f : NodeFields)
    (children : list ContentNode) (s : Db) :
  pool s = true -> node_storable f = true ->
  references_entry entryId s = true -> references_content_node parent s = true ->
  exists row,
    row_of_node (next_id s) entryId parent f = Some row
    /\ processContentNode entryId parent (Node f children) s
       = processContentNodes children entryId (Some (next_id s))
           (set_limitless_content_nodes (limitless_content_nodes s ++ [row])
              (set_next_id (S (next_id s)) s)).
Proof.
  intros Hpool Hf Hentry Hparent.
  rewrite processContentNode_eq. unfold row_of_node, node_storable in *.
  unfold try_catch. unfold bind at 1, lift.
  destruct (optional_instant (n_start_time f)) as [st|]; [|discriminate Hf].
  unfold bind at 1.
  destruct (optional_instant (n_end_time f)) as [en|]; [|discriminate Hf].
  unfold bind at 1.
  match goal with |- context [insert_content_node ?a ?b ?c ?d ?e ?g ?h ?i ?j ?k s] =>
    pose proof (insert_content_node_result a b c d e g h i j k s) as Hins
  end.
  rewrite Hpool, Hf, Hentry, Hparent in Hins. cbn [andb] in Hins.
  rewrite Hins. clear Hins.
  eexists. split; [reflexivity|].
  match goal with |- context [processContentNodes ?n ?i ?p ?s0] =>
    pose proof (ChildFacts.processContentNodes_returns n i p s0) as Hret;
    destruct (processContentNodes n i p s0) as [s' r']
  end.
  unfold outcome in Hret. cbn [snd] in Hret. subst r'. reflexivity.
Qed.

Lemma storable_node_stored (node : ContentNode) : forest_stored [node].
Proof.
  induction node as [f children IH] using ChildFacts.ContentNode_rect_children.
  intros entryId parent s Hpool Hs Hentry Hparent.
  cbn [forallb tree_storable] in Hs. rewrite andb_true_r in Hs.
  apply andb_prop in Hs as [Hf Hchildren].
  rewrite processContentNodes_one.
  destruct (processContentNode_stores entryId parent f children s Hpool Hf Hentry Hparent)
    as (row & Hrow & ->).
  set (s0 := set_limitless_content_nodes _ _).
  destruct (storable_forest_stored children IH entryId (Some (next_id s)) s0)
    as (below & Hbelow & Hrows & Hp' & He'); [exact Hpool|exact Hchildren|exact Hentry|..].
  { cbn [references_content_node]. subst s0. cbn [limitless_content_nodes
      set_limitless_content_nodes]. rewrite existsb_app. cbn [existsb].
    assert (Hid : cn_id row = next_id s).
    { unfold row_of_node in Hrow.
      destruct (optional_instant (n_start_time f)); [|discriminate Hrow].
      destruct (optional_instant (n_end_time f)); [|discriminate Hrow].
      injection Hrow as <-. reflexivity. }
    rewrite Hid, Nat.eqb_refl. apply orb_true_r. }
  exists (row :: below ++ []). rewrite app_nil_r at 1.
  split; [rewrite Hbelow; subst s0; cbn [limitless_content_nodes
            set_limitless_content_nodes]; rewrite <- app_assoc; reflexivity|].
  split; [|split; [exact Hp'|exact He']].
  apply (rows_of_node entryId parent f children [] (next_id s) row below []).
  - exact Hrow.
  - exact Hrows.
  - constructor.
Qed.

(** X1. [processContentNodes] on a forest all of whose nodes can be stored,
    with the pool up, for an entry that is stored and under a parent that
    is stored (or none): it appends exactly one row per node of the
    forest, in the order in which it visits them (a node, then its
    descendants, then the nodes after it).  The row of a node holds the
    normalised values of the node and belongs to the entry; the row of a
    node at the top names the given parent, and the row of a child names
    the id that the row of its parent node got.  The rows that were there,
    the entries and the rest of the store stay as they were. *)
Theorem storable_content_nodes_are_stored (nodes : list ContentNode) (entryId : nat)
    (parent : option nat) (s : Db) :
  pool s = true ->
  forallb tree_storable nodes = true ->
  references_entry entryId s = true ->
  references_content_node parent s = true ->
  let s' := store_after (processContentNodes nodes entryId parent s) in
  exists added,
    limitless_content_nodes s' = limitless_content_nodes s ++ added
    /\ rows_of_forest entryId parent nodes added
    /\ length added = forest_size nodes
    /\ without_content_nodes s' = without_content_nodes s.
Proof.
  intros Hpool Hs Hentry Hparent s'.
  destruct (storable_forest_stored nodes) with (entryId := entryId) (parent := parent)
    (s := s) as (added & Hadded & Hrows & _ & _); try assumption.
  { apply Forall_forall. intros n _. apply storable_node_stored. }
  exists added. split; [exact Hadded|]. split; [exact Hrows|].
  split; [exact (rows_of_forest_length entryId parent nodes added Hrows)|].
  apply ChildFacts.processContentNodes_frame.
Qed.

Lemma storable_content_nodes_are_stored_witness :
  (pool Examples.walkStored = true
   /\ forallb tree_storable Examples.walkNotes = true
   /\ references_entry 0 Examples.walkStored = true
   /\ references_content_node None Examples.walkStored = true)
  /\ exists added,
       limitless_content_nodes
         (store_after (processContentNodes Examples.walkNotes 0 None Examples.walkStored))
       = limitless_content_nodes Examples.walkStored ++ added
       /\ rows_of_forest 0 None Examples.walkNotes added
       /\ length added = forest_size Examples.walkNotes
       /\ without_content_nodes
            (store_after
               (processContentNodes Examples.walkNotes 0 None Examples.walkStored))
          = without_content_nodes Examples.walkStored.
Proof.
  split; [repeat split; vm_compute; reflexivity|].
  apply (storable_content_nodes_are_stored Examples.walkNotes 0%nat None
           Examples.walkStored); vm_compute; reflexivity.
Defined.

(** X2. A content node that cannot be stored (a time that cannot be read, a
    value that does not fit its column) is skipped together with all its
    descendants: the store stays as it was, and nothing is thrown. *)
Theorem unstorable_node_drops_its_subtree (f : NodeFields)
    (children : list ContentNode) (entryId : nat) (parent : option nat) (s : Db) :
  node_storable f = false ->
  processContentNode entryId parent (Node f children) s = (s, Return tt).
Proof.
  intros Hf. rewrite processContentNode_eq. unfold node_storable in Hf.
  unfold try_catch. unfold bind at 1, lift.
  destruct (optional_instant (n_start_time f)) as [st|]; [|reflexivity].
  unfold bind at 1.
  destruct (optional_instant (n_end_time f)) as [en|]; [|reflexivity].
  unfold bind at 1.
  match goal with |- context [insert_content_node ?a ?b ?c ?d ?e ?g ?h ?i ?j ?k s] =>
    pose proof (insert_content_node_result a b c d e g h i j k s) as Hins
  end.
  rewrite Hf, andb_false_r in Hins. cbn [andb] in Hins.
  destruct Hins as (e & ->). reflexivity.
Qed.

Lemma unstorable_node_drops_its_subtree_witness :
  node_storable Examples.unreadableNode = false
  /\ processContentNode 0 None (Node Examples.unreadableNode [Scenario.headingNode])
       emptyDb
     = (emptyDb, Return tt).
Proof.
  split; [reflexivity|].
  apply (unstorable_node_drops_its_subtree Examples.unreadableNode
           [Scenario.headingNode] 0%nat None emptyDb).
  reflexivity.
Defined.

End ContentNodeFacts.

(** ** Runs of the two connectors *)

Module RunProperties.
Import Terms Stated StepFacts ContentNodeFacts.

(** X3. A run of one connector keeps to its own data.  A run of the
    Limitless connector leaves every table of the Bee connector, the
    rollup table, the pool and the watermarks of the other sources as they
    were; a run of the Bee connector does the same for the Limitless
    tables.  This holds for every configuration, remote API, option and
    store, also when the run fails. *)
Theorem connectors_keep_to_their_tables
    (cfg : SourceConfig) (limitlessApi : LimitlessConnector.Api)
    (beeApi : BeeConnector.Api) (options : Options) (s : Db) :
  let after_limitless :=
    store_after (LimitlessConnector.sync cfg limitlessApi options s) in
  let after_bee := store_after (BeeConnector.sync cfg beeApi options s) in
  (bee_tables after_limitless = bee_tables s
   /\ other_watermarks "limitless" after_limitless = other_watermarks "limitless" s
   /\ daily_aggregations after_limitless = daily_aggregations s
   /\ pool after_limitless = pool s)
  /\ (limitless_tables after_bee = limitless_tables s
      /\ other_watermarks "bee" after_bee = other_watermarks "bee" s
      /\ daily_aggregations after_bee = daily_aggregations s
      /\ pool after_bee = pool s).
Proof.
  intros after_limitless after_bee.
  destruct (limitless_sync_run cfg limitlessApi options s) as (L1 & L2 & L3 & L4 & _).
  destruct (bee_sync_run cfg beeApi options s) as (B1 & B2 & B3 & B4 & _).
  repeat split; assumption.
Qed.

(** X4. The table [limitless_content_nodes] is only ever appended to.
    [processContentNodes] adds at most one row per node of the forest it
    is given, all of them for the entry it is given, and no run of the
    Limitless connector changes or removes a row that was there. *)
Theorem content_nodes_are_only_appended :
  (forall (nodes : list LimitlessConnector.ContentNode) (entryId : nat)
          (parent : option nat) (s : Db),
     exists added,
       limitless_content_nodes
         (store_after (LimitlessConnector.processContentNodes nodes entryId parent s))
       = limitless_content_nodes s ++ added
       /\ (length added <= forest_size nodes)%nat
       /\ Forall (fun r => cn_entry_id r = entryId) added)
  /\ (forall (cfg : SourceConfig) (api : LimitlessConnector.Api) (options : Options)
             (s : Db),
        limitless_content_nodes s
          `prefix_of` limitless_content_nodes
                        (store_after (LimitlessConnector.sync cfg api options s))).
Proof.
  split.
  - intros nodes entryId parent s.
    destruct (forest_rows nodes) with (entryId := entryId) (parent := parent) (s := s)
      as (added & (Hrows & _ & _ & _ & Hentry & _) & Hle).
    { apply Forall_forall. intros n _. apply every_node_rows. }
    exists added. repeat split; assumption.
  - intros cfg api options s.
    destruct (limitless_sync_run cfg api options s) as (_ & _ & _ & _ & H). exact H.
Qed.

(** X5. A stored utterance is never changed or removed: the insert is
    [ON CONFLICT ... DO NOTHING], so the first delivery of an utterance
    wins, and after [_processUtterances], and after any run of the Bee
    connector, every row of [bee_utterances] is as it was. *)
Theorem stored_utterances_are_never_changed :
  (forall (utterances : list BeeConnector.Utterance) (dbConvoId : nat) (s : Db),
     bee_utterances s
       ⊆ bee_utterances
           (store_after (BeeConnector._processUtterances utterances dbConvoId s)))
  /\ (forall (cfg : SourceConfig) (api : BeeConnector.Api) (options : Options) (s : Db),
        bee_utterances s
          ⊆ bee_utterances (store_after (BeeConnector.sync cfg api options s))).
Proof.
  split.
  - intros utterances dbConvoId s.
    destruct (steps_processUtterances bee_run bee_run_refl bee_run_trans
                bee_run_insert_utterance utterances dbConvoId s) as (_ & _ & _ & _ & H).
    exact H.
  - intros cfg api options s.
    destruct (bee_sync_run cfg api options s) as (_ & _ & _ & _ & H). exact H.
Qed.

End RunProperties.

(** ** BaseConnector.js: [sync] and the watermark *)

Module BaseConnectorProperties.
Import Terms Stated.

(** X6. [BaseConnector.sync] never throws, whatever [fetchData] and
    [processData] do.  For a disabled source it returns a failure without
    calling either, so that the store is untouched; for an enabled source
    a failure is always the report of an exception: it carries the message
    of the exception, no stored record and exactly one error, whatever
    the run had stored before the exception. *)
Theorem sync_never_throws {Raw : Type} (sourceName : string) (cfg : SourceConfig)
    (fetchData : Options -> M (option Raw))
    (processData : Raw -> Options -> M ProcessResult)
    (options : Options) (s : Db) :
  let run := BaseConnector.sync sourceName cfg fetchData processData options s in
  exists r,
    outcome run = Return r
    /\ (isEnabled cfg = false ->
        run = (s, Return (mkSyncResult false (Some (sourceName +:+ " is disabled."))
                            (mkProcessResult 0 0 0))))
    /\ (isEnabled cfg = true -> success r = false ->
        exists e, r = mkSyncResult false (Some (message e)) (mkProcessResult 0 0 1)).
Proof.
  intros run. subst run. unfold BaseConnector.sync.
  destruct (isEnabled cfg); cbn [negb].
  2:{ eexists. split; [reflexivity|]. split; [reflexivity|discriminate]. }
  unfold try_catch, bind, outcome.
  destruct (fetchData options s) as [s1 [[data|]|e]]; cbn [snd].
  - destruct (processData data options s1) as [s2 [c|e]]; cbn [snd ret].
    + eexists. split; [reflexivity|]. split; [discriminate|]. intros _ H. discriminate H.
    + eexists. split; [reflexivity|]. split; [discriminate|]. intros _ _. eauto.
  - eexists. split; [reflexivity|]. split; [discriminate|]. intros _ H. discriminate H.
  - eexists. split; [reflexivity|]. split; [discriminate|]. intros _ _. eauto.
Qed.

(** X7. A source that is enabled but has no API key (none, [null] or the
    empty text) reports a success: [fetchData] returns [null] before it
    reads the watermark or sends a request, and [sync] answers
    [success: true] with the message "No new data fetched." and no counts.
    The store is untouched.  This holds for both connectors and for every
    remote API. *)
Theorem missing_api_key_is_reported_as_success
    (cfg : SourceConfig) (limitlessApi : LimitlessConnector.Api)
    (beeApi : BeeConnector.Api) (options : Options) (s : Db) :
  isEnabled cfg = true ->
  truthy (apiKey cfg) = false ->
  LimitlessConnector.sync cfg limitlessApi options s
  = (s, Return (mkSyncResult true (Some "No new data fetched.") (mkProcessResult 0 0 0)))
  /\ BeeConnector.sync cfg beeApi options s
     = (s, Return (mkSyncResult true (Some "No new data fetched.")
                     (mkProcessResult 0 0 0))).
Proof.
  intros He Hk.
  unfold LimitlessConnector.sync, BeeConnector.sync, BaseConnector.sync,
    LimitlessConnector.fetchData, BeeConnector.fetchData.
  rewrite He, Hk. split; reflexivity.
Qed.

Lemma missing_api_key_is_reported_as_success_witness :
  (isEnabled (mkSourceConfig (Val true) (Val "") true true true true) = true
   /\ truthy (apiKey (mkSourceConfig (Val true) (Val "") true true true true)) = false)
  /\ LimitlessConnector.sync (mkSourceConfig (Val true) (Val "") true true true true)
       Scenario.serveLifelogOfJune1 noOptions emptyDb
     = (emptyDb, Return (mkSyncResult true (Some "No new data fetched.")
                           (mkProcessResult 0 0 0))).
Proof.
  split; [split; reflexivity|].
  apply (missing_api_key_is_reported_as_success
           (mkSourceConfig (Val true) (Val "") true true true true)
           Scenario.serveLifelogOfJune1 Scenario.beeFlakyApi noOptions emptyDb);
    reflexivity.
Defined.

Lemma metadata_key_inj (a b : string) : metadata_key a = metadata_key b -> a = b.
Proof. unfold metadata_key. simpl. intros H. injection H as H. exact H. Qed.

Lemma metadata_key_length (a : string) :
  String.length (metadata_key a) = (15 + String.length a)%nat.
Proof. reflexivity. Qed.

(** X8. The watermark round trip: with the pool up and a source name that
    fits the key column, [updateLastSyncTime] of a valid date returns, and
    [getLastSyncTime] then gives that date back, whatever was stored
    before.  The watermark of every other source, and every other table,
    stays as it was. *)
Theorem watermark_round_trip (sourceName other : string) (ms : Z) (s : Db) :
  pool s = true ->
  (String.length sourceName <= 240)%nat ->
  other <> sourceName ->
  let run := updateLastSyncTime sourceName (ValidDate ms) s in
  outcome run = Return tt
  /\ getLastSyncTime sourceName (store_after run)
     = (store_after run, Return (ValidDate ms))
  /\ outcome (getLastSyncTime other (store_after run))
     = outcome (getLastSyncTime other s)
  /\ without_metadata (store_after run) = without_metadata s.
Proof.
  intros Hp Hlen Hother run. subst run.
  unfold updateLastSyncTime, bind, lift, upsert_metadata, query. cbn [toISOString].
  rewrite Hp. unfold varchar. rewrite metadata_key_length.
  destruct (Nat.leb_spec (15 + String.length sourceName) 255) as [_|Hbad]; [|lia].
  cbn [negb store_after outcome fst snd].
  unfold getLastSyncTime, bind, select_metadata, query. cbn [pool system_metadata
    set_system_metadata]. rewrite Hp.
  rewrite lookup_insert_eq. cbn [newDate ret].
  split; [reflexivity|]. split; [reflexivity|]. split; [|reflexivity].
  rewrite lookup_insert_ne.
  - destruct (system_metadata s !! metadata_key other); reflexivity.
  - intros Heq. apply Hother. symmetry. apply metadata_key_inj. exact Heq.
Qed.

Lemma watermark_round_trip_witness :
  (pool emptyDb = true /\ (String.length "limitless" <= 240)%nat /\ "bee" <> "limitless")
  /\ getLastSyncTime "limitless"
       (store_after (updateLastSyncTime "limitless" (ValidDate 1000) emptyDb))
     = (store_after (updateLastSyncTime "limitless" (ValidDate 1000) emptyDb),
        Return (ValidDate 1000)).
Proof.
  split; [split; [reflexivity|split; [vm_compute; lia|discriminate]]|].
  apply (watermark_round_trip "limitless" "bee" 1000 emptyDb);
    [reflexivity|vm_compute; lia|discriminate].
Defined.

End BaseConnectorProperties.

(** ** The watermark of the Bee connector *)

Module WatermarkProperties.
Import Terms Stated DataProcessorFacts WatermarkFacts.

Section Bee.
Import BeeConnector.

Lemma keeps_watermarks_run {A} (m : M A) (s0 s : Db) :
  keeps_watermarks m ->
  system_metadata s = system_metadata s0 /\ pool s = pool s0 ->
  system_metadata (store_after (m s)) = system_metadata s0
  /\ pool (store_after (m s)) = pool s0.
Proof. intros Hk [H1 H2]. destruct (Hk s) as [H3 H4]. split; congruence. Qed.

Lemma keeps_bee_loop {A} (body : Stats -> A -> M Stats) :
  (forall acc x, keeps_watermarks (body acc x)) ->
  forall l t, keeps_watermarks (let* st := for_of body (mkProcessResult 0 0 0, epoch) l in
                                ret (finish t st)).
Proof. intros Hb l t. apply keeps_process_loop. exact Hb. Qed.

(** The four [_process...] blocks of [processData] leave the watermarks
    alone; only the guarded [updateLastSyncTime] after them writes one. *)
Lemma bee_processData_watermark (data : Data) (options : Options) (s : Db)
    (stored : Date) :
  outcome (getLastSyncTime sourceName s) = Return stored ->
  watermark_moved_past stored s (store_after (processData data options s)).
Proof.
  intros H0. unfold processData.
  unfold bind at 1. rewrite (getLastSyncTime_run sourceName s), H0.
  assert (Hsame : forall s', system_metadata s' = system_metadata s /\ pool s' = pool s ->
                    watermark_moved_past stored s s').
  { intros s' [H1 H2]. split; [exact H2|left; exact H1]. }
  assert (Hs : system_metadata s = system_metadata s /\ pool s = pool s) by (split; reflexivity).
  unfold bind at 1.
  pose proof (keeps_watermarks_run
                (add_stats _processConversations (conversations data)
                   (mkProcessResult 0 0 0, stored)) s s
                (keeps_add_stats _ _ _ (keeps_bee_loop _ keeps_processConversation)) Hs)
    as H1.
  destruct (add_stats _processConversations _ _ s) as [s1 [acc1|e1]];
    unfold store_after in H1 at 1 2; cbn [fst] in H1; [|apply Hsame; exact H1].
  unfold bind at 1.
  pose proof (keeps_watermarks_run (add_stats _processFacts (facts data) acc1) s s1
                (keeps_add_stats _ _ _ (keeps_bee_loop _ keeps_processFact)) H1) as H2.
  destruct (add_stats _processFacts _ _ s1) as [s2 [acc2|e2]];
    unfold store_after in H2 at 1 2; cbn [fst] in H2; [|apply Hsame; exact H2].
  unfold bind at 1.
  pose proof (keeps_watermarks_run (add_stats _processTodos (todos data) acc2) s s2
                (keeps_add_stats _ _ _ (keeps_bee_loop _ keeps_processTodo)) H2) as H3.
  destruct (add_stats _processTodos _ _ s2) as [s3 [acc3|e3]];
    unfold store_after in H3 at 1 2; cbn [fst] in H3; [|apply Hsame; exact H3].
  unfold bind at 1.
  pose proof (keeps_watermarks_run (add_stats _processLocations (locations data) acc3)
                s s3
                (keeps_add_stats _ _ _ (keeps_bee_loop _ keeps_processLocation)) H3)
    as H4.
  destruct (add_stats _processLocations _ _ s3) as [s4 [[total latest]|e4]];
    unfold store_after in H4 at 1 2; cbn [fst] in H4; [|apply Hsame; exact H4].
  assert (Hread : outcome (getLastSyncTime sourceName s4) = Return stored).
  { rewrite <- H0. destruct H4 as [Hm Hp]. apply getLastSyncTime_same; assumption. }
  unfold bind at 1. rewrite (getLastSyncTime_run sourceName s4), Hread.
  assert (Hrest : forall s5,
            watermark_moved_past stored s s5 ->
            watermark_moved_past stored s
              (store_after
                 ((let* days := lift (map_throwing (fun c => isoDay (start_of c))
                                        (conversations data)) in
                   DataProcessor.rollup_days sourceName days (new_Set days) ;; ret total)
                    s5))).
  { intros s5 H5. unfold bind at 1, lift.
    destruct (map_throwing _ _) as [days|e6]; [|exact H5].
    unfold bind. rewrite rollup_days_noop. exact H5. }
  unfold bind at 1.
  destruct (date_gt latest stored) eqn:Hgt.
  - destruct latest as [|tl]; [discriminate Hgt|].
    unfold updateLastSyncTime, bind at 1, lift. cbn [toISOString].
    unfold upsert_metadata, query, pg_reject, throw.
    rewrite (getLastSyncTime_needs_pool _ _ _ Hread).
    destruct (negb _); lazy beta iota; [apply Hsame; exact H4|].
    apply Hrest. destruct H4 as [Hm Hp]. split; [cbn; congruence|].
    right. exists tl. split; [exact Hgt|]. cbn. rewrite Hm. reflexivity.
  - unfold ret at 1. apply Hrest. apply Hsame. exact H4.
Qed.

End Bee.

(** X9. The watermark of the Bee connector only moves forward.  When
    [getLastSyncTime] reads a valid instant before [processData], it
    reads a valid instant after it, and that instant is not earlier:
    whatever the batch holds, and also when [processData] throws. *)
Theorem bee_watermark_only_advances (data : BeeConnector.Data) (options : Options)
    (s : Db) (before : Z) :
  outcome (getLastSyncTime BeeConnector.sourceName s) = Return (ValidDate before) ->
  exists after,
    outcome (getLastSyncTime BeeConnector.sourceName
               (store_after (BeeConnector.processData data options s)))
    = Return (ValidDate after)
    /\ before <= after.
Proof.
  intros H0.
  destruct (bee_processData_watermark data options s _ H0) as [Hp [Hm|(tl & Hgt & Hm)]].
  - exists before. split; [|lia]. rewrite <- H0. apply getLastSyncTime_same; assumption.
  - exists tl. cbn in Hgt. apply Z.ltb_lt in Hgt. split; [|lia].
    pose proof (getLastSyncTime_needs_pool _ _ _ H0) as Hpool.
    unfold getLastSyncTime, bind, select_metadata, query, outcome.
    rewrite Hp, Hpool, Hm, lookup_insert_eq. reflexivity.
Qed.

Lemma bee_watermark_only_advances_witness :
  outcome (getLastSyncTime BeeConnector.sourceName emptyDb) = Return (ValidDate 0)
  /\ exists after,
       outcome (getLastSyncTime BeeConnector.sourceName
                  (store_after
                     (BeeConnector.processData
                        (BeeConnector.mkData [Scenario.firstConversation42] [] [] [])
                        noOptions emptyDb)))
       = Return (ValidDate after)
       /\ 0 <= after.
Proof.
  split; [reflexivity|].
  apply (bee_watermark_only_advances
           (BeeConnector.mkData [Scenario.firstConversation42] [] [] [])
           noOptions emptyDb 0).
  reflexivity.
Defined.

(** X10. A watermark that cannot be read blocks the source.  When the text
    stored under the key of a source is not a date, every run without
    [forceFullSync] fails at the first step of [fetchData] with "Invalid
    time value", sends no request and leaves the store as it was, for both
    connectors.  The Bee connector never repairs it: after any
    [processData], forced or not, the stored text is still unreadable. *)
Theorem unreadable_watermark_blocks_the_source
    (cfg : SourceConfig) (limitlessApi : LimitlessConnector.Api)
    (beeApi : BeeConnector.Api) (options : Options) (s : Db)
    (data : BeeConnector.Data) (anyOptions : Options) (sb : Db) :
  isEnabled cfg = true ->
  truthy (apiKey cfg) = true ->
  forceFullSync options = false ->
  watermark_unreadable LimitlessConnector.sourceName s ->
  watermark_unreadable BeeConnector.sourceName sb ->
  LimitlessConnector.sync cfg limitlessApi options s
  = (s, Return (mkSyncResult false (Some "Invalid time value") (mkProcessResult 0 0 1)))
  /\ BeeConnector.sync cfg beeApi options sb
     = (sb, Return (mkSyncResult false (Some "Invalid time value")
                      (mkProcessResult 0 0 1)))
  /\ watermark_unreadable BeeConnector.sourceName
       (store_after (BeeConnector.processData data anyOptions sb)).
Proof.
  intros He Hk Hf (Hp & t & Ht) (Hpb & tb & Htb).
  split; [|split].
  - unfold LimitlessConnector.sync, BaseConnector.sync, LimitlessConnector.fetchData.
    rewrite He, Hk, Hf. cbn [negb orb].
    unfold try_catch, bind at 1 2.
    unfold getLastSyncTime, bind, select_metadata, query. rewrite Hp, Ht. reflexivity.
  - unfold BeeConnector.sync, BaseConnector.sync, BeeConnector.fetchData.
    rewrite He, Hk, Hf. cbn [negb orb].
    unfold try_catch, bind at 1 2.
    unfold getLastSyncTime, bind, select_metadata, query. rewrite Hpb, Htb. reflexivity.
  - assert (H0 : outcome (getLastSyncTime BeeConnector.sourceName sb) = Return InvalidDate).
    { unfold getLastSyncTime, bind, select_metadata, query, outcome.
      rewrite Hpb, Htb. reflexivity. }
    destruct (bee_processData_watermark data anyOptions sb _ H0)
      as [Hp' [Hm|(tl & Hgt & _)]]; [|discriminate Hgt].
    split; [congruence|]. exists tb. rewrite Hm. exact Htb.
Qed.

Lemma unreadable_watermark_blocks_the_source_witness :
  (isEnabled Scenario.enabledConfig = true
   /\ truthy (apiKey Scenario.enabledConfig) = true
   /\ forceFullSync noOptions = false
   /\ watermark_unreadable LimitlessConnector.sourceName Examples.limitlessWatermarkGarbled
   /\ watermark_unreadable BeeConnector.sourceName Examples.beeWatermarkGarbled)
  /\ LimitlessConnector.sync Scenario.enabledConfig Scenario.serveLifelogOfJune1
       noOptions Examples.limitlessWatermarkGarbled
     = (Examples.limitlessWatermarkGarbled,
        Return (mkSyncResult false (Some "Invalid time value") (mkProcessResult 0 0 1))).
Proof.
  assert (Hl : watermark_unreadable LimitlessConnector.sourceName
                 Examples.limitlessWatermarkGarbled).
  { split; [reflexivity|]. exists "yesterday". reflexivity. }
  assert (Hb : watermark_unreadable BeeConnector.sourceName Examples.beeWatermarkGarbled).
  { split; [reflexivity|]. exists "yesterday". reflexivity. }
  split;
    [split; [reflexivity|split; [reflexivity|split; [reflexivity|split; [exact Hl|exact Hb]]]]|].
  apply (unreadable_watermark_blocks_the_source Scenario.enabledConfig
           Scenario.serveLifelogOfJune1 Scenario.beeFlakyApi noOptions
           Examples.limitlessWatermarkGarbled
           (BeeConnector.mkData [] [] [] []) noOptions Examples.beeWatermarkGarbled);
    try reflexivity; assumption.
Defined.

End WatermarkProperties.

(** ** Runs that store nothing *)

Module QuietRuns.
Import Terms Stated StepFacts.

Lemma processLifelog_without_pool (c : ProcessResult)
    (l : LimitlessConnector.Lifelog) (s : Db) :
  pool s = false ->
  LimitlessConnector.processLifelog c l s = (s, Return (count_error c)).
Proof.
  intros Hp. unfold LimitlessConnector.processLifelog, try_catch.
  destruct (negb (truthy (LimitlessConnector.l_id l))); [reflexivity|].
  destruct (newDate (LimitlessConnector.start_of l)) as [|t1]; [reflexivity|].
  destruct (newDate (LimitlessConnector.end_of l)) as [|t2]; [reflexivity|].
  cbn [isNaN_getTime orb toISOString]. unfold bind at 1 2, lift. unfold bind at 1.
  unfold upsert_limitless_entry, query. rewrite Hp. reflexivity.
Qed.

Lemma lifelog_loop_without_pool (lifelogs : list LimitlessConnector.Lifelog)
    (c : ProcessResult) (s : Db) :
  pool s = false ->
  for_of LimitlessConnector.processLifelog c lifelogs s
  = (s, Return (mkProcessResult (newEntries c) (updatedEntries c)
                  (errors c + length lifelogs))).
Proof.
  intros Hp. revert c. induction lifelogs as [|l ls IH]; intros c.
  - cbn [for_of length]. rewrite Nat.add_0_r. destruct c; reflexivity.
  - cbn [for_of length]. unfold bind. rewrite (processLifelog_without_pool c l s Hp).
    rewrite IH. cbn [count_error newEntries updatedEntries errors].
    do 3 f_equal. lia.
Qed.

(** X11. After [close()] the pool is gone: every statement is refused with
    "Database pool not initialized." and a second [close()] does nothing.
    The connectors then store nothing: the Limitless [processData] counts
    every lifelog of the batch as an error and returns, while the Bee
    [processData] throws before it looks at the batch. *)
Theorem closed_pool_stores_nothing (s : Db)
    (lifelogs : list LimitlessConnector.Lifelog) (data : BeeConnector.Data)
    (options : Options) :
  let closed := store_after (Shutdown.close s) in
  Shutdown.close closed = (closed, Return tt)
  /\ (forall (A : Type) (statement : M A),
        query statement closed = (closed, Throw PoolNotInitialized))
  /\ LimitlessConnector.processData lifelogs options closed
     = (closed, Return (mkProcessResult 0 0 (length lifelogs)))
  /\ BeeConnector.processData data options closed
     = (closed, Throw PoolNotInitialized).
Proof.
  intros closed.
  assert (Hp : pool closed = false).
  { subst closed. unfold Shutdown.close. destruct (pool s) eqn:E; [reflexivity|exact E]. }
  split; [unfold Shutdown.close; rewrite Hp; reflexivity|].
  split; [intros A statement; unfold query; rewrite Hp; reflexivity|].
  split.
  - unfold LimitlessConnector.processData.
    destruct lifelogs as [|l ls]; [reflexivity|].
    unfold bind at 1. rewrite (lifelog_loop_without_pool (l :: ls) _ closed Hp).
    reflexivity.
  - unfold BeeConnector.processData, bind at 1.
    unfold getLastSyncTime, bind, select_metadata, query. rewrite Hp. reflexivity.
Qed.

Lemma walk_of_empty_first_page {A} (get : nat -> nat -> BeeConnector.http (list A))
    (options : Options) :
  first_page_empty get options ->
  BeeConnector.allData (BeeConnector._fetchPaginatedData_walk get options) = [].
Proof.
  unfold first_page_empty, pageData, BeeConnector._fetchPaginatedData_walk.
  cbn [BeeConnector.paginate].
  destruct (get _ _) as [detail|[|x d]]; [reflexivity|reflexivity|discriminate].
Qed.

Lemma getLastSyncTime_with_pool (source : string) (s : Db) :
  pool s = true -> exists d, getLastSyncTime source s = (s, Return d).
Proof.
  intros Hp. unfold getLastSyncTime, bind, select_metadata, query. rewrite Hp.
  destruct (system_metadata s !! metadata_key source); eexists; reflexivity.
Qed.

Lemma date_gt_irrefl (d : Date) : date_gt d d = false.
Proof. destruct d; [reflexivity|]. apply Z.ltb_irrefl. Qed.

Lemma bee_processData_of_nothing (options : Options) (s : Db) :
  pool s = true ->
  BeeConnector.processData (BeeConnector.mkData [] [] [] []) options s
  = (s, Return (mkProcessResult 0 0 0)).
Proof.
  intros Hp.
  destruct (getLastSyncTime_with_pool BeeConnector.sourceName s Hp) as [d Hd].
  unfold BeeConnector.processData.
  cbn [BeeConnector.conversations BeeConnector.facts BeeConnector.todos
       BeeConnector.locations BeeConnector.add_stats].
  unfold bind. rewrite Hd. cbn [ret BeeConnector.add_stats].
  rewrite Hd, date_gt_irrefl. reflexivity.
Qed.

(** X12. A run that fetches nothing changes nothing and is reported as a
    success with no counts.  For the Limitless connector this is a first
    page without lifelogs.  For the Bee connector it is enough that the
    first page of every enabled endpoint is empty or fails: a Bee run in
    which every request fails is reported like a run that found nothing
    new. *)
Theorem empty_fetch_is_a_no_op
    (cfg : SourceConfig) (limitlessApi : LimitlessConnector.Api)
    (response : LimitlessConnector.LifelogsResponse) (options : Options) (s : Db)
    (beeCfg : SourceConfig) (beeApi : BeeConnector.Api) (beeOptions : Options)
    (sb : Db) :
  isEnabled cfg = true -> truthy (apiKey cfg) = true ->
  limitless_watermark_readable options s ->
  limitlessApi (cursor options) (or_default (limit options) 50%nat)
  = LimitlessConnector.Ok response ->
  LimitlessConnector.r_lifelogs response = [] ->
  isEnabled beeCfg = true -> truthy (apiKey beeCfg) = true ->
  pool sb = true ->
  bee_watermark_readable beeOptions sb ->
  (sub_conversations beeCfg = true ->
   first_page_empty (BeeConnector.get_conversations beeApi) beeOptions) ->
  (sub_facts beeCfg = true ->
   first_page_empty (BeeConnector.get_facts beeApi) beeOptions) ->
  (sub_todos beeCfg = true ->
   first_page_empty (BeeConnector.get_todos beeApi) beeOptions) ->
  (sub_locations beeCfg = true ->
   first_page_empty (BeeConnector.get_locations beeApi) beeOptions) ->
  LimitlessConnector.sync cfg limitlessApi options s
  = (s, Return (mkSyncResult true None (mkProcessResult 0 0 0)))
  /\ BeeConnector.sync beeCfg beeApi beeOptions sb
     = (sb, Return (mkSyncResult true None (mkProcessResult 0 0 0))).
Proof.
  intros He Hk Hread Hpage Hempty Heb Hkb Hpb Hreadb Hc Hf Ht Hl. split.
  - unfold LimitlessConnector.sync, BaseConnector.sync, LimitlessConnector.fetchData.
    rewrite He, Hk. cbn [negb orb]. unfold try_catch. unfold bind at 1 2.
    assert (Hwalk : LimitlessConnector.fetched
                      (LimitlessConnector.fetch_walk limitlessApi options) = Return []).
    { unfold LimitlessConnector.fetch_walk.
      pose proof (PaginationClaims.or_default_nat_positive (maxPages options) 10
                    ltac:(lia)) as Hm.
      destruct (or_default (maxPages options) 10%nat) as [|fuel]; [lia|].
      cbn [LimitlessConnector.fetch_loop]. rewrite Hpage, Hempty. reflexivity. }
    destruct Hread as [Hforce|(ms & Hms)].
    + rewrite Hforce. cbn [ret]. unfold bind at 1, lift. cbn [toISOString epoch].
      rewrite Hwalk. reflexivity.
    + destruct (forceFullSync options).
      * cbn [ret]. unfold bind at 1, lift. cbn [toISOString epoch].
        rewrite Hwalk. reflexivity.
      * rewrite Hms. unfold bind at 1, lift. cbn [toISOString].
        rewrite Hwalk. reflexivity.
  - destruct (FetchClaims.bee_fetch_errors_swallowed beeCfg beeApi beeOptions sb
                Heb Hkb Hreadb) as [_ Hsync].
    rewrite Hsync.
    assert (Hdata : bee_fetched beeCfg beeApi beeOptions
                    = BeeConnector.mkData [] [] [] []).
    { unfold bee_fetched.
      destruct (sub_conversations beeCfg);
        [rewrite (walk_of_empty_first_page _ _ (Hc eq_refl))|];
      (destruct (sub_facts beeCfg);
        [rewrite (walk_of_empty_first_page _ _ (Hf eq_refl))|]);
      (destruct (sub_todos beeCfg);
        [rewrite (walk_of_empty_first_page _ _ (Ht eq_refl))|]);
      (destruct (sub_locations beeCfg);
        [rewrite (walk_of_empty_first_page _ _ (Hl eq_refl))|]);
      reflexivity. }
    rewrite Hdata, (bee_processData_of_nothing beeOptions sb Hpb). reflexivity.
Qed.

Lemma empty_fetch_is_a_no_op_witness :
  (limitless_watermark_readable noOptions emptyDb
   /\ bee_watermark_readable noOptions emptyDb
   /\ first_page_empty (BeeConnector.get_conversations Examples.beeServesNothing) noOptions
   /\ first_page_empty (BeeConnector.get_facts Examples.beeServesNothing) noOptions)
  /\ LimitlessConnector.sync Scenario.enabledConfig Examples.limitlessServesNothing
       noOptions emptyDb
     = (emptyDb, Return (mkSyncResult true None (mkProcessResult 0 0 0)))
  /\ BeeConnector.sync Scenario.enabledConfig Examples.beeServesNothing noOptions emptyDb
     = (emptyDb, Return (mkSyncResult true None (mkProcessResult 0 0 0))).
Proof.
  assert (Hl : limitless_watermark_readable noOptions emptyDb).
  { right. exists 0. reflexivity. }
  assert (Hb : bee_watermark_readable noOptions emptyDb).
  { right. exists 0. reflexivity. }
  split; [split; [exact Hl|split; [exact Hb|split; reflexivity]]|].
  apply (empty_fetch_is_a_no_op Scenario.enabledConfig Examples.limitlessServesNothing
           (LimitlessConnector.mkLifelogsResponse [] Absent Absent) noOptions emptyDb
           Scenario.enabledConfig Examples.beeServesNothing noOptions emptyDb);
    try reflexivity; try assumption; intros _; reflexivity.
Defined.

End QuietRuns.

(** ** The watermark of the Limitless connector *)

Module LimitlessWatermark.
Import Terms Stated StepFacts QuietRuns LimitlessConnector.

Lemma latest_of_fold (lifelogs : list Lifelog) : forall a : Z,
  exists ms,
    fold_left (fun latest item =>
                 if date_gt (itemTime item) latest then itemTime item else latest)
      lifelogs (ValidDate a) = ValidDate ms
    /\ a <= ms
    /\ (forall item t, item ∈ lifelogs -> itemTime item = ValidDate t -> t <= ms)
    /\ (ms = a \/ exists item, item ∈ lifelogs /\ itemTime item = ValidDate ms).
Proof.
  induction lifelogs as [|l ls IH]; intros a.
  - exists a. cbn [fold_left]. split; [reflexivity|]. split; [lia|].
    split; [|left; reflexivity]. intros item t Hin. inversion Hin.
  - cbn [fold_left]. destruct (itemTime l) as [|t0] eqn:Ht0; cbn [date_gt].
    + destruct (IH a) as (ms & Hf & Hle & Hall & Hex). exists ms.
      split; [exact Hf|]. split; [exact Hle|]. split.
      * intros item t Hin Ht. apply elem_of_cons in Hin as [->|Hin]; [congruence|].
        exact (Hall item t Hin Ht).
      * destruct Hex as [->|(item & Hin & Hit)]; [left; reflexivity|].
        right. exists item. split; [right; exact Hin|exact Hit].
    + destruct (a <? t0) eqn:Hlt.
      * apply Z.ltb_lt in Hlt.
        destruct (IH t0) as (ms & Hf & Hle & Hall & Hex). exists ms.
        split; [exact Hf|]. split; [lia|]. split.
        -- intros item t Hin Ht. apply elem_of_cons in Hin as [->|Hin].
           ++ rewrite Ht0 in Ht. injection Ht as <-. exact Hle.
           ++ exact (Hall item t Hin Ht).
        -- right. destruct Hex as [->|(item & Hin & Hit)].
           ++ exists l. split; [left|exact Ht0].
           ++ exists item. split; [right; exact Hin|exact Hit].
      * apply Z.ltb_ge in Hlt.
        destruct (IH a) as (ms & Hf & Hle & Hall & Hex). exists ms.
        split; [exact Hf|]. split; [exact Hle|]. split.
        -- intros item t Hin Ht. apply elem_of_cons in Hin as [->|Hin].
           ++ rewrite Ht0 in Ht. injection Ht as <-. lia.
           ++ exact (Hall item t Hin Ht).
        -- destruct Hex as [->|(item & Hin & Hit)]; [left; reflexivity|].
           right. exists item. split; [right; exact Hin|exact Hit].
Qed.

(** X13. [latestEntryTime], the instant that the Limitless [processData]
    writes as the watermark, is always a valid date: the latest of the
    item times ([updated_at || created_at || end_time]) of the batch that
    can be read, and the epoch when none is later than the epoch.  Items
    whose time cannot be read are passed over. *)
Theorem latestEntryTime_is_the_latest_item_time (lifelogs : list Lifelog) :
  exists ms,
    latestEntryTime lifelogs = ValidDate ms
    /\ 0 <= ms
    /\ (forall item t, item ∈ lifelogs -> itemTime item = ValidDate t -> t <= ms)
    /\ (ms = 0 \/ exists item, item ∈ lifelogs /\ itemTime item = ValidDate ms).
Proof. apply (latest_of_fold lifelogs 0). Qed.

Lemma same_watermarks_refl (s : Db) : same_watermarks s s.
Proof. split; reflexivity. Qed.

Lemma same_watermarks_trans (s1 s2 s3 : Db) :
  same_watermarks s1 s2 -> same_watermarks s2 s3 -> same_watermarks s1 s3.
Proof. intros [H1 H2] [G1 G2]. split; congruence. Qed.

Lemma same_watermarks_upsert_limitless_entry a b c d e f :
  steps same_watermarks (upsert_limitless_entry a b c d e f).
Proof.
  unfold upsert_limitless_entry. intros s. unfold query, pg_reject, throw, store_after.
  repeat match goal with
         | |- context [if ?b then _ else _] => destruct b eqn:?
         | |- context [match ?x with _ => _ end] => destruct x eqn:?
         end; split; reflexivity.
Qed.

Lemma same_watermarks_insert_content_node a b c d e f g h i j :
  steps same_watermarks (insert_content_node a b c d e f g h i j).
Proof.
  unfold insert_content_node. intros s. unfold query, pg_reject, throw, store_after.
  repeat match goal with
         | |- context [if ?b then _ else _] => destruct b eqn:?
         | |- context [match ?x with _ => _ end] => destruct x eqn:?
         end; split; reflexivity.
Qed.

(** The loop of [processData] leaves the watermarks and the pool alone. *)
Lemma lifelog_loop_keeps_watermarks (lifelogs : list Lifelog) (c : ProcessResult)
    (s : Db) :
  same_watermarks s (store_after (for_of processLifelog c lifelogs s)).
Proof.
  apply (steps_for_of same_watermarks same_watermarks_refl same_watermarks_trans).
  intros acc x.
  apply (steps_processLifelog same_watermarks same_watermarks_refl same_watermarks_trans
           same_watermarks_upsert_limitless_entry same_watermarks_insert_content_node).
Qed.

(** After the loop, only the guarded [updateLastSyncTime] moves the store. *)
Lemma processData_after_the_loop (l : Lifelog) (ls : list Lifelog) (options : Options)
    (s s1 : Db) (c : ProcessResult) :
  for_of processLifelog (mkProcessResult 0 0 0) (l :: ls) s = (s1, Return c) ->
  (0 < newEntries c + updatedEntries c)%nat ->
  store_after (processData (l :: ls) options s)
  = store_after ((if date_gt (latestEntryTime (l :: ls)) epoch
                  then updateLastSyncTime sourceName (latestEntryTime (l :: ls))
                  else ret tt) s1).
Proof.
  intros Hloop Hc. unfold processData. unfold bind at 1. rewrite Hloop.
  assert (Hcond : Nat.ltb 0 (length (l :: ls))
                  && (Nat.ltb 0 (newEntries c) || Nat.ltb 0 (updatedEntries c)) = true).
  { cbn [length]. destruct (newEntries c), (updatedEntries c); cbn in *; try reflexivity.
    lia. }
  rewrite Hcond. unfold bind at 1 2.
  destruct ((if date_gt (latestEntryTime (l :: ls)) epoch
             then updateLastSyncTime sourceName (latestEntryTime (l :: ls))
             else ret tt) s1) as [s2 [[]|e]]; [|reflexivity].
  unfold bind at 1, lift.
  destruct (map_throwing _ _) as [days|e]; [|reflexivity].
  rewrite DataProcessorFacts.rollup_days_noop. reflexivity.
Qed.

(** X14. The Limitless [processData] sets the watermark from the batch alone.
    When the loop stored at least one lifelog and some item time of the
    batch is later than the epoch, [getLastSyncTime] afterwards returns
    [latestEntryTime] of the batch, whatever the watermark was before, be
    it earlier or later; when no item time is later than the epoch the
    watermarks are left as they were. *)
Theorem limitless_watermark_follows_the_batch (lifelogs : list Lifelog)
    (options : Options) (s s1 : Db) (c : ProcessResult) :
  for_of processLifelog (mkProcessResult 0 0 0) lifelogs s = (s1, Return c) ->
  (0 < newEntries c + updatedEntries c)%nat ->
  let s' := store_after (processData lifelogs options s) in
  (date_gt (latestEntryTime lifelogs) epoch = true ->
   getLastSyncTime sourceName s' = (s', Return (latestEntryTime lifelogs)))
  /\ (date_gt (latestEntryTime lifelogs) epoch = false ->
      system_metadata s' = system_metadata s).
Proof.
  intros Hloop Hc s'.
  destruct lifelogs as [|l ls].
  { cbn in Hloop. injection Hloop as <- <-. cbn in Hc. lia. }
  assert (Hpool : pool s = true).
  { destruct (pool s) eqn:Hp; [reflexivity|].
    rewrite (lifelog_loop_without_pool (l :: ls) _ s Hp) in Hloop.
    injection Hloop as <- <-. cbn in Hc. lia. }
  destruct (lifelog_loop_keeps_watermarks (l :: ls) (mkProcessResult 0 0 0) s)
    as [Hm Hp1].
  rewrite Hloop in Hm, Hp1. unfold store_after in Hm, Hp1. cbn [fst] in Hm, Hp1.
  subst s'. rewrite (processData_after_the_loop l ls options s s1 c Hloop Hc).
  destruct (latest_of_fold (l :: ls) 0) as (ms & Hlatest & _).
  change (latestEntryTime (l :: ls) = ValidDate ms) in Hlatest.
  rewrite Hlatest. split.
  - intros Hgt. rewrite Hgt.
    unfold updateLastSyncTime, bind, lift. cbn [toISOString].
    unfold upsert_metadata, query. rewrite Hp1, Hpool.
    change (negb (varchar 255 (Some (metadata_key sourceName)))) with false.
    cbn [store_after fst].
    unfold getLastSyncTime, bind, select_metadata, query.
    cbn [pool system_metadata set_system_metadata]. rewrite Hp1, Hpool.
    rewrite lookup_insert_eq. reflexivity.
  - intros Hgt. rewrite Hgt. exact Hm.
Qed.

Lemma limitless_watermark_follows_the_batch_witness :
  (for_of processLifelog (mkProcessResult 0 0 0) [Scenario.lifelogOfJune1]
     Scenario.syncedUntilJune10
   = (store_after (for_of processLifelog (mkProcessResult 0 0 0)
                     [Scenario.lifelogOfJune1] Scenario.syncedUntilJune10),
      Return (mkProcessResult 1 0 0))
   /\ date_gt (latestEntryTime [Scenario.lifelogOfJune1]) epoch = true)
  /\ outcome (getLastSyncTime sourceName
                (store_after (processData [Scenario.lifelogOfJune1] noOptions
                                Scenario.syncedUntilJune10)))
     = Return (latestEntryTime [Scenario.lifelogOfJune1]).
Proof.
  split; [split; reflexivity|].
  destruct (limitless_watermark_follows_the_batch [Scenario.lifelogOfJune1] noOptions
              Scenario.syncedUntilJune10
              (store_after (for_of processLifelog (mkProcessResult 0 0 0)
                              [Scenario.lifelogOfJune1] Scenario.syncedUntilJune10))
              (mkProcessResult 1 0 0) eq_refl ltac:(cbn; lia)) as [H _].
  rewrite (H eq_refl). reflexivity.
Defined.

End LimitlessWatermark.

(** ** DataProcessor.js: the algebra of the rollup *)

Module RollupProperties.
Import Terms Stated DataProcessor.

(** [try { ... } catch { }] around a statement. *)
Lemma swallowed_statement (m : M unit) (s : Db) :
  try_catch m (fun _ => ret tt) s = (store_after (m s), Return tt).
Proof. unfold try_catch, store_after. destruct (m s) as [s' [[]|e]]; reflexivity. Qed.

(** What one call does, on every store: it throws before the [try]
    because the date cannot be read, or it does nothing, or it runs one
    statement under a [catch]. *)
Lemma updateDailyAggregation_in_cases (db : binding) (date : field jstext)
    (sourceType : field string) (itemCount : Z) :
  (newDate date = InvalidDate /\ truthy date = true
   /\ forall s, store_after (updateDailyAggregation_in db date sourceType itemCount s)
                = s)
  \/ (forall s, updateDailyAggregation_in db date sourceType itemCount s
                = (s, Return tt))
  \/ exists day f c n,
       0 <= n
       /\ forall s,
            updateDailyAggregation_in db date sourceType itemCount s
            = (store_after (updateQuery day f c true n s), Return tt).
Proof.
  unfold updateDailyAggregation_in.
  destruct (truthy date) eqn:Hd; cbn [negb orb]; [|right; left; reflexivity].
  destruct (newDate date) as [|ms] eqn:Hnew.
  { left. split; [reflexivity|]. split; [reflexivity|]. intros s.
    destruct (truthy sourceType); reflexivity. }
  right.
  destruct (truthy sourceType) eqn:Hs; cbn [negb]; [|left; reflexivity].
  unfold bind, lift. cbn [toISOString].
  destruct (columns_of (or_default sourceType "")) as [[f c]|]; [|left; reflexivity].
  destruct db.
  - left. reflexivity.
  - right. exists (isoDayOf ms), f, c, (if 0 <? itemCount then itemCount else 0).
    split; [destruct (0 <? itemCount) eqn:E; [apply Z.ltb_lt in E|]; lia|].
    intros s. apply swallowed_statement.
Qed.

(** The row that the statement leaves for its day. *)
Lemma updateQuery_store (day : Z) (f : flag_column) (c : option count_column)
    (n : Z) (s : Db) :
  store_after (updateQuery day f c true n s)
  = if pool s && match c with Some _ => integer (Some n) | None => true end
    then set_daily_aggregations
           (<[day := match daily_aggregations s !! day with
                     | None =>
                       let r := set_flag f (Some true) default_row in
                       match c with Some col => set_count col (Some n) r | None => r end
                     | Some old =>
                       let r := set_flag f (Some true) old in
                       match c with
                       | Some col =>
                         set_count col (Some (Z.max (coalesce0 (get_count col old)) n)) r
                       | None => r
                       end
                     end]> (daily_aggregations s)) s
    else s.
Proof.
  unfold updateQuery, query, pg_reject, throw, store_after.
  destruct (pool s); [|reflexivity]. cbn [andb].
  destruct c as [col|]; [destruct (integer (Some n))|]; reflexivity.
Qed.

Lemma same_store (s : Db) :
  set_daily_aggregations (daily_aggregations s) s = s.
Proof. destruct s; reflexivity. Qed.

Ltac rows_equal :=
  repeat match goal with
         | r : DailyRow |- _ => destruct r
         | f : flag_column |- _ => destruct f
         | c : count_column |- _ => destruct c
         | c : option count_column |- _ => destruct c
         end;
  cbn; f_equal; try reflexivity; f_equal; lia.

Lemma updateQuery_twice (day : Z) (f : flag_column) (c : option count_column)
    (n : Z) (s : Db) :
  store_after (updateQuery day f c true n (store_after (updateQuery day f c true n s)))
  = store_after (updateQuery day f c true n s).
Proof.
  rewrite !updateQuery_store.
  destruct (pool s && _) eqn:Hok; [|rewrite Hok; reflexivity].
  cbn [pool set_daily_aggregations daily_aggregations]. rewrite Hok.
  unfold set_daily_aggregations; cbn. f_equal.
  rewrite lookup_insert_eq, insert_insert_eq. f_equal.
  destruct (daily_aggregations s !! day) as [old|]; rows_equal.
Qed.

Lemma updateQuery_commute (day1 day2 : Z) (f1 f2 : flag_column)
    (c1 c2 : option count_column) (n1 n2 : Z) (s : Db) :
  0 <= n1 -> 0 <= n2 ->
  store_after (updateQuery day2 f2 c2 true n2
                 (store_after (updateQuery day1 f1 c1 true n1 s)))
  = store_after (updateQuery day1 f1 c1 true n1
                   (store_after (updateQuery day2 f2 c2 true n2 s))).
Proof.
  intros H1 H2. rewrite !updateQuery_store.
  destruct (pool s) eqn:Hp; cbn [andb].
  2:{ rewrite !Hp. reflexivity. }
  destruct (match c1 with Some _ => integer (Some n1) | None => true end) eqn:Hi1;
  destruct (match c2 with Some _ => integer (Some n2) | None => true end) eqn:Hi2;
    cbn [pool set_daily_aggregations daily_aggregations]; rewrite ?Hp, ?Hi1, ?Hi2;
    cbn [andb pool set_daily_aggregations daily_aggregations];
    try reflexivity.
  unfold set_daily_aggregations; cbn. f_equal.
  destruct (decide (day1 = day2)) as [->|Hne].
  - rewrite !lookup_insert_eq, !insert_insert_eq. f_equal.
    destruct (daily_aggregations s !! day2) as [old|]; rows_equal.
  - rewrite (lookup_insert_ne _ day1 day2) by exact Hne.
    rewrite (lookup_insert_ne _ day2 day1) by (intros E; apply Hne; symmetry; exact E).
    apply insert_insert_ne. intros E; apply Hne; symmetry; exact E.
Qed.

(** X15. The rollup is repeatable and independent of the order of its
    calls.  For either binding of [db], calling [updateDailyAggregation]
    twice with the same arguments leaves the store that one call leaves,
    and two calls whose dates can be read leave the same store in either
    order, whatever their days, sources and counts. *)
Theorem rollup_is_idempotent_and_commutative (db : binding)
    (date1 date2 : field jstext) (source1 source2 : field string) (n1 n2 : Z)
    (s : Db) :
  truthy date1 = false \/ newDate date1 <> InvalidDate ->
  truthy date2 = false \/ newDate date2 <> InvalidDate ->
  store_after ((updateDailyAggregation_in db date1 source1 n1 ;;
                updateDailyAggregation_in db date1 source1 n1) s)
  = store_after (updateDailyAggregation_in db date1 source1 n1 s)
  /\ store_after ((updateDailyAggregation_in db date1 source1 n1 ;;
                   updateDailyAggregation_in db date2 source2 n2) s)
     = store_after ((updateDailyAggregation_in db date2 source2 n2 ;;
                     updateDailyAggregation_in db date1 source1 n1) s).
Proof.
  intros Hd1 Hd2. unfold bind.
  destruct (updateDailyAggregation_in_cases db date1 source1 n1)
    as [(Hbad & Ht & _)|[H1|(day1 & f1 & c1 & m1 & Hm1 & H1)]].
  { destruct Hd1 as [Hd1|Hd1]; congruence. }
  - destruct (updateDailyAggregation_in_cases db date2 source2 n2)
      as [(Hbad & Ht & _)|[H2|(day2 & f2 & c2 & m2 & Hm2 & H2)]].
    { destruct Hd2 as [Hd2|Hd2]; congruence. }
    + rewrite !H1, !H2, !H1. split; reflexivity.
    + rewrite !H1, !H2, !H1. split; reflexivity.
  - destruct (updateDailyAggregation_in_cases db date2 source2 n2)
      as [(Hbad & Ht & _)|[H2|(day2 & f2 & c2 & m2 & Hm2 & H2)]].
    { destruct Hd2 as [Hd2|Hd2]; congruence. }
    + rewrite !H1, !H2, !H1. split; [|reflexivity].
      cbn [store_after fst]. apply updateQuery_twice.
    + rewrite !H1, !H2, !H1. cbn [store_after fst]. split.
      * apply updateQuery_twice.
      * apply updateQuery_commute; assumption.
Qed.

Lemma rollup_is_idempotent_and_commutative_witness :
  (truthy (Val (IsoDay Scenario.day_2025_06_01)) = false
   \/ newDate (Val (IsoDay Scenario.day_2025_06_01)) <> InvalidDate)
  /\ store_after ((updateDailyAggregation_in Bound (Val (IsoDay Scenario.day_2025_06_01))
                     (Val "limitless") 3 ;;
                   updateDailyAggregation_in Bound (Val (IsoDay Scenario.day_2025_06_01))
                     (Val "bee") 1) emptyDb)
     = store_after ((updateDailyAggregation_in Bound (Val (IsoDay Scenario.day_2025_06_01))
                       (Val "bee") 1 ;;
                     updateDailyAggregation_in Bound
                       (Val (IsoDay Scenario.day_2025_06_01)) (Val "limitless") 3)
                      emptyDb).
Proof.
  split; [right; discriminate|].
  apply (rollup_is_idempotent_and_commutative Bound
           (Val (IsoDay Scenario.day_2025_06_01)) (Val (IsoDay Scenario.day_2025_06_01))
           (Val "limitless") (Val "bee") 3 1 emptyDb); right; discriminate.
Defined.

Lemma nothing_lost_refl (row : DailyRow) : nothing_lost row row.
Proof. split; [auto|intros c; lia]. Qed.

Lemma nothing_lost_update (f : flag_column) (c : option count_column) (n : Z)
    (old : DailyRow) :
  nothing_lost old
    (let r := set_flag f (Some true) old in
     match c with
     | Some col => set_count col (Some (Z.max (coalesce0 (get_count col old)) n)) r
     | None => r
     end).
Proof.
  split.
  - intros g. destruct old, f, g, c as [[]|]; cbn; auto.
  - intros col. destruct old, f, col, c as [[]|]; cbn; lia.
Qed.

(** X16. The rollup never takes anything back, and touches nothing else.
    For either binding of [db] and every call of [updateDailyAggregation],
    a row that the rollup table holds is still there afterwards, every
    flag of it that was set is still set and no count of it is lower; the
    rest of the store is as it was. *)
Theorem rollup_never_loses_a_flag_or_count (db : binding) (date : field jstext)
    (sourceType : field string) (itemCount : Z) (s : Db) (day : Z) (row : DailyRow) :
  daily_aggregations s !! day = Some row ->
  let s' := store_after (updateDailyAggregation_in db date sourceType itemCount s) in
  without_rollups s' = without_rollups s
  /\ exists row', daily_aggregations s' !! day = Some row' /\ nothing_lost row row'.
Proof.
  intros Hrow s'. subst s'.
  destruct (updateDailyAggregation_in_cases db date sourceType itemCount)
    as [(_ & _ & H)|[H|(day0 & f & c & n & _ & H)]].
  - rewrite H. split; [reflexivity|]. exists row. split; [exact Hrow|apply nothing_lost_refl].
  - rewrite H. split; [reflexivity|]. exists row. split; [exact Hrow|apply nothing_lost_refl].
  - rewrite H. cbn [store_after fst]. rewrite updateQuery_store.
    destruct (pool s && _).
    2:{ split; [reflexivity|]. exists row. split; [exact Hrow|apply nothing_lost_refl]. }
    split; [reflexivity|]. cbn [daily_aggregations set_daily_aggregations].
    destruct (decide (day0 = day)) as [->|Hne].
    + rewrite lookup_insert_eq, Hrow. eexists. split; [reflexivity|].
      apply nothing_lost_update.
    + rewrite lookup_insert_ne by exact Hne. exists row.
      split; [exact Hrow|apply nothing_lost_refl].
Qed.

Lemma rollup_never_loses_a_flag_or_count_witness :
  daily_aggregations Examples.rolledUpJune1 !! Scenario.day_2025_06_01
  = Some Examples.rowOfJune1
  /\ exists row',
       daily_aggregations
         (store_after (updateDailyAggregation_in Bound
                         (Val (IsoDay Scenario.day_2025_06_01)) (Val "limitless") 1
                         Examples.rolledUpJune1))
         !! Scenario.day_2025_06_01 = Some row'
       /\ nothing_lost Examples.rowOfJune1 row'.
Proof.
  split; [reflexivity|].
  apply (rollup_never_loses_a_flag_or_count Bound (Val (IsoDay Scenario.day_2025_06_01))
           (Val "limitless") 1 Examples.rolledUpJune1 Scenario.day_2025_06_01
           Examples.rowOfJune1).
  reflexivity.
Defined.

End RollupProperties.

(** ** DataProcessor.js: [cleanText] *)

Module CleanTextProperties.
Import Terms DataProcessorText.

Lemma space_is_white : isWhiteSpace space = true.
Proof. reflexivity. Qed.

Lemma begins_replace_runs (text : jsstring) :
  begins_with_space (replace_runs text) = begins_with_space text.
Proof.
  induction text as [|c rest IH]; [reflexivity|].
  cbn [replace_runs]. destruct (isWhiteSpace c) eqn:Hc.
  - destruct rest as [|c' rest']; [cbn; rewrite Hc; reflexivity|].
    destruct (isWhiteSpace c') eqn:Hc'.
    + rewrite IH. cbn. rewrite Hc, Hc'. reflexivity.
    + cbn [begins_with_space]. rewrite Hc. reflexivity.
  - cbn [begins_with_space]. reflexivity.
Qed.

Lemma single_spaces_replace_runs (text : jsstring) :
  single_spaces (replace_runs text) = true.
Proof.
  induction text as [|c rest IH]; [reflexivity|].
  cbn [replace_runs]. destruct (isWhiteSpace c) eqn:Hc.
  - destruct rest as [|c' rest']; [reflexivity|].
    destruct (isWhiteSpace c') eqn:Hc'; [exact IH|].
    cbn [single_spaces]. rewrite space_is_white, IH, N.eqb_refl.
    assert (Hb : begins_with_space (replace_runs (c' :: rest')) = false).
    { rewrite begins_replace_runs. cbn [begins_with_space]. exact Hc'. }
    destruct (replace_runs (c' :: rest')) as [|d ds]; [reflexivity|].
    cbn [begins_with_space] in Hb. rewrite Hb. reflexivity.
  - cbn [single_spaces]. rewrite Hc, IH. reflexivity.
Qed.

Lemma words_replace_runs (text : jsstring) :
  words_of (replace_runs text) = words_of text.
Proof.
  unfold words_of. induction text as [|c rest IH]; [reflexivity|].
  cbn [replace_runs List.filter]. destruct (isWhiteSpace c) eqn:Hc; cbn [negb].
  - destruct rest as [|c' rest']; [reflexivity|].
    destruct (isWhiteSpace c') eqn:Hc'; [exact IH|].
    cbn [List.filter]. rewrite space_is_white. cbn [negb]. exact IH.
  - cbn [List.filter]. rewrite Hc. cbn [negb]. f_equal. exact IH.
Qed.

Lemma single_spaces_tail (c : N) (rest : jsstring) :
  single_spaces (c :: rest) = true -> single_spaces rest = true.
Proof. cbn [single_spaces]. intros H. apply andb_prop in H as [_ H]. exact H. Qed.

Lemma single_spaces_trimStart (text : jsstring) :
  single_spaces text = true -> single_spaces (trimStart text) = true.
Proof.
  induction text as [|c rest IH]; [reflexivity|].
  intros H. cbn [trimStart]. destruct (isWhiteSpace c); [|exact H].
  apply IH. exact (single_spaces_tail c rest H).
Qed.

Lemma begins_trimStart (text : jsstring) : begins_with_space (trimStart text) = false.
Proof.
  induction text as [|c rest IH]; [reflexivity|].
  cbn [trimStart]. destruct (isWhiteSpace c) eqn:Hc; [exact IH|].
  cbn [begins_with_space]. exact Hc.
Qed.

Lemma words_trimStart (text : jsstring) : words_of (trimStart text) = words_of text.
Proof.
  unfold words_of. induction text as [|c rest IH]; [reflexivity|].
  cbn [trimStart List.filter]. destruct (isWhiteSpace c) eqn:Hc; cbn [negb]; [exact IH|].
  cbn [List.filter]. rewrite Hc. reflexivity.
Qed.

Lemma trimStart_fixed (text : jsstring) :
  begins_with_space text = false -> trimStart text = text.
Proof.
  destruct text as [|c rest]; [reflexivity|].
  cbn [begins_with_space trimStart]. intros ->. reflexivity.
Qed.

(** [trimEnd] keeps a prefix: when something is left, it starts as the
    text does. *)
Lemma trimEnd_cons (c : N) (rest : jsstring) :
  trimEnd (c :: rest)
  = match trimEnd rest with
    | [] => if isWhiteSpace c then [] else [c]
    | kept => c :: kept
    end.
Proof. reflexivity. Qed.

Lemma begins_trimEnd (text : jsstring) :
  begins_with_space text = false -> begins_with_space (trimEnd text) = false.
Proof.
  destruct text as [|c rest]; [reflexivity|].
  cbn [begins_with_space]. intros Hc. rewrite trimEnd_cons.
  destruct (trimEnd rest); [rewrite Hc|]; cbn [begins_with_space]; exact Hc.
Qed.

Lemma ends_trimEnd (text : jsstring) : ends_with_space (trimEnd text) = false.
Proof.
  induction text as [|c rest IH]; [reflexivity|].
  rewrite trimEnd_cons. destruct (trimEnd rest) as [|d ds] eqn:Hrest.
  - destruct (isWhiteSpace c) eqn:Hc; [reflexivity|]. cbn [ends_with_space]. exact Hc.
  - cbn [ends_with_space]. exact IH.
Qed.

Lemma begins_of_trimEnd (text : jsstring) (d : N) (ds : jsstring) :
  trimEnd text = d :: ds -> exists rest, text = d :: rest.
Proof.
  destruct text as [|c rest]; [discriminate|].
  rewrite trimEnd_cons. destruct (trimEnd rest).
  - destruct (isWhiteSpace c); [discriminate|]. intros [= <- _]. eauto.
  - intros [= <- _]. eauto.
Qed.

Lemma single_spaces_trimEnd (text : jsstring) :
  single_spaces text = true -> single_spaces (trimEnd text) = true.
Proof.
  induction text as [|c rest IH]; [reflexivity|].
  intros H. pose proof (single_spaces_tail c rest H) as Hrest.
  specialize (IH Hrest). rewrite trimEnd_cons.
  destruct (trimEnd rest) as [|d ds] eqn:Htrim.
  - destruct (isWhiteSpace c) eqn:Hc; [reflexivity|].
    cbn [single_spaces]. rewrite Hc. reflexivity.
  - destruct (begins_of_trimEnd rest d ds Htrim) as [rest' ->].
    cbn [single_spaces] in H |- *. apply andb_prop in H as [H _].
    rewrite H. exact IH.
Qed.

Lemma words_trimEnd (text : jsstring) : words_of (trimEnd text) = words_of text.
Proof.
  unfold words_of. induction text as [|c rest IH]; [reflexivity|].
  rewrite trimEnd_cons. cbn [List.filter].
  destruct (trimEnd rest) as [|d ds].
  - cbn [List.filter] in IH. rewrite <- IH.
    destruct (isWhiteSpace c) eqn:Hc; cbn [negb List.filter]; [reflexivity|].
    rewrite Hc. reflexivity.
  - cbn [List.filter] in IH |- *. rewrite IH. reflexivity.
Qed.

Lemma trimEnd_fixed (text : jsstring) :
  ends_with_space text = false -> trimEnd text = text.
Proof.
  induction text as [|c rest IH]; [reflexivity|].
  rewrite trimEnd_cons. cbn [ends_with_space]. destruct rest as [|c' rest'].
  - intros ->. reflexivity.
  - intros H. rewrite (IH H). reflexivity.
Qed.

Lemma replace_runs_fixed (text : jsstring) :
  single_spaces text = true -> ends_with_space text = false ->
  replace_runs text = text.
Proof.
  induction text as [|c rest IH]; [reflexivity|].
  intros H He. pose proof (single_spaces_tail c rest H) as Hrest.
  cbn [single_spaces] in H. apply andb_prop in H as [H _].
  cbn [replace_runs]. destruct (isWhiteSpace c) eqn:Hc.
  - apply andb_prop in H as [Hsp Hnext]. apply N.eqb_eq in Hsp. subst c.
    destruct rest as [|c' rest'].
    + cbn [ends_with_space] in He. congruence.
    + apply negb_true_iff in Hnext. rewrite Hnext. f_equal. apply IH; assumption.
  - f_equal. destruct rest as [|c' rest']; [reflexivity|]. apply IH; assumption.
Qed.

(** What [cleanText] makes of a text that is not empty. *)
Lemma cleaned_is_tidy (text : jsstring) :
  tidy (trim (replace_runs text)) = true
  /\ words_of (trim (replace_runs text)) = words_of text.
Proof.
  unfold trim, tidy. split.
  - rewrite single_spaces_trimEnd, begins_trimEnd, ends_trimEnd; try reflexivity.
    + apply begins_trimStart.
    + apply single_spaces_trimStart, single_spaces_replace_runs.
  - rewrite words_trimEnd, words_trimStart. apply words_replace_runs.
Qed.

Lemma tidy_is_fixed (text : jsstring) :
  tidy text = true -> trim (replace_runs text) = text.
Proof.
  unfold tidy, trim. intros H.
  apply andb_prop in H as [H He]. apply andb_prop in H as [Hs Hb].
  apply negb_true_iff in He, Hb.
  rewrite (replace_runs_fixed text Hs He), (trimStart_fixed text Hb).
  apply trimEnd_fixed. exact He.
Qed.

(** X17. [cleanText] tidies a text.  The result holds no white space but
    single spaces, each between two characters that are not white space,
    so that it neither begins nor ends with one; and the characters that
    are not white space are those of the input, in the same order.  A
    missing, [null] or empty text comes back as it is. *)
Theorem cleanText_tidies (text : field jsstring) :
  match text with
  | Val (c :: rest) =>
    exists cleaned,
      cleanText text = Val cleaned
      /\ tidy cleaned = true
      /\ words_of cleaned = words_of (c :: rest)
  | _ => cleanText text = text
  end.
Proof.
  destruct text as [| |[|c rest]]; try reflexivity.
  exists (trim (replace_runs (c :: rest))). split; [reflexivity|].
  apply cleaned_is_tidy.
Qed.

(** X18. [cleanText] is idempotent: cleaning a cleaned text changes nothing;
    more generally, it leaves every tidy text as it is. *)
Theorem cleanText_is_idempotent :
  (forall text : field jsstring, cleanText (cleanText text) = cleanText text)
  /\ (forall text : jsstring, tidy text = true -> cleanText (Val text) = Val text).
Proof.
  assert (Hfix : forall text : jsstring, tidy text = true ->
                   cleanText (Val text) = Val text).
  { intros [|c rest] Ht; [reflexivity|].
    cbn [cleanText]. rewrite (tidy_is_fixed _ Ht). reflexivity. }
  split; [|exact Hfix].
  intros [| |[|c rest]]; try reflexivity.
  cbn [cleanText]. apply Hfix. apply cleaned_is_tidy.
Qed.

End CleanTextProperties.

(** ** DataSyncManager.js *)

Module DataSyncManagerProperties.
Import Terms DataSyncManager.

(** The connectors that [_initializeConnectors] registers have none of
    the inherited names. *)
Lemma inherited_name_is_not_registered (limitless bee weather : Connector)
    (sourceName : string) :
  existsb (String.eqb sourceName) Object_prototype = true ->
  get_connector (_initializeConnectors limitless bee weather) sourceName = Inherited.
Proof.
  intros Hin. unfold get_connector. rewrite Hin.
  assert (Hnot : forall name c,
            (name, c) ∈ _initializeConnectors limitless bee weather ->
            String.eqb name sourceName = false).
  { intros name c Hreg.
    assert (Hname : name = "limitless" \/ name = "bee" \/ name = "weather").
    { unfold _initializeConnectors in Hreg.
      destruct (connector_isEnabled limitless), (connector_isEnabled bee),
        (connector_isEnabled weather); cbn [app] in Hreg;
        repeat (apply elem_of_cons in Hreg as [Heq|Hreg];
                [injection Heq as -> _; tauto|]);
        inversion Hreg. }
    cbn [existsb Object_prototype] in Hin.
    repeat (apply orb_prop in Hin as [Hin|Hin];
            [apply String.eqb_eq in Hin; subst sourceName;
             destruct Hname as [ -> | [ -> | -> ] ]; reflexivity | ]).
    discriminate Hin. }
  destruct (List.find _ _) as [[name c]|] eqn:Hfind; [|reflexivity].
  apply find_some in Hfind as [Hreg Heq]. cbn [fst] in Heq.
  rewrite (Hnot name c) in Heq; [discriminate Heq|].
  apply list_elem_of_In. exact Hreg.
Qed.

(** X19. How [syncSource] settles.  For a name that an object inherits from
    [Object.prototype] ("constructor", "toString", "__proto__" and the
    like) the lookup in [this.connectors] finds something that is not a
    connector, and the promise is rejected with a [TypeError] before the
    [try]; the store is untouched.  For every other name the promise is
    fulfilled, whatever the connector does, be it by throwing; and a
    name that is not registered gives the failure "Connector <name> not
    found." without touching the store. *)
Theorem syncSource_settles (limitless bee weather : Connector) (sourceName : string)
    (options : Options) (s : Db) :
  let connectors := _initializeConnectors limitless bee weather in
  let run := syncSource connectors sourceName options s in
  if existsb (String.eqb sourceName) Object_prototype
  then run = (s, TypeError "connector.isEnabled is not a function")
  else
    (exists result, snd run = Fulfilled result)
    /\ (get_connector connectors sourceName = Missing ->
        run = (s, Fulfilled (mkSourceResult false
                               (Some ("Connector " +:+ sourceName +:+ " not found."))
                               None None))).
Proof.
  intros connectors run. subst run.
  destruct (existsb (String.eqb sourceName) Object_prototype) eqn:Hin.
  - unfold syncSource. subst connectors.
    rewrite (inherited_name_is_not_registered _ _ _ _ Hin). reflexivity.
  - unfold syncSource.
    destruct (get_connector connectors sourceName) as [c| |] eqn:Hget.
    + split; [|discriminate].
      destruct (connector_isEnabled c); cbn [negb]; [|eexists; reflexivity].
      destruct (connector_sync c options s) as [s' [r|e]]; eexists; reflexivity.
    + unfold get_connector in Hget. rewrite Hin in Hget.
      destruct (List.find _ _); discriminate Hget.
    + split; [eexists; reflexivity|]. intros _. reflexivity.
Qed.

(** A name that is registered is found, and its connector is enabled. *)
Lemma registered_is_enabled (limitless bee weather : Connector) (name : string) :
  In name (map fst (_initializeConnectors limitless bee weather)) ->
  exists connector,
    get_connector (_initializeConnectors limitless bee weather) name = Own connector
    /\ connector_isEnabled connector = true.
Proof.
  intros Hin. unfold get_connector.
  assert (Hall : Forall (fun entry => connector_isEnabled (snd entry) = true)
                   (_initializeConnectors limitless bee weather)).
  { unfold _initializeConnectors.
    destruct (connector_isEnabled limitless) eqn:Hl,
      (connector_isEnabled bee) eqn:Hb, (connector_isEnabled weather) eqn:Hw;
      cbn [app]; repeat constructor; assumption. }
  destruct (List.find _ _) as [entry|] eqn:Hfind.
  - exists (snd entry). split; [reflexivity|].
    apply find_some in Hfind as [Hreg _].
    rewrite List.Forall_forall in Hall. exact (Hall entry Hreg).
  - exfalso. apply in_map_iff in Hin as [entry [Hname Hreg]].
    pose proof (find_none _ _ Hfind entry Hreg) as Hno. cbn beta in Hno.
    rewrite Hname, String.eqb_refl in Hno. discriminate Hno.
Qed.

Lemma syncAllSources_loop_runs (limitless bee weather : Connector) (options : Options)
    (names : list string) :
  let connectors := _initializeConnectors limitless bee weather in
  (forall name, In name names -> In name (map fst connectors)) ->
  forall results s,
  exists more s',
    syncAllSources_loop connectors options names results s
    = (s', Fulfilled (results ++ more))
    /\ runs_in_turn connectors options names s more s'.
Proof.
  intros connectors. induction names as [|name rest IH]; intros Hreg results s.
  - exists [], s. cbn [syncAllSources_loop]. rewrite app_nil_r.
    split; [reflexivity|constructor].
  - destruct (registered_is_enabled limitless bee weather name) as [c [Hget Hon]].
    { apply Hreg. left. reflexivity. }
    fold connectors in Hget.
    cbn [syncAllSources_loop]. rewrite Hget, Hon.
    assert (Hsync : exists s1 result,
               syncSource connectors name options s = (s1, Fulfilled result)).
    { unfold syncSource. rewrite Hget, Hon. cbn [negb].
      destruct (connector_sync c options s) as [s1 [r|e]]; eauto. }
    destruct Hsync as [s1 [result Hsync]]. rewrite Hsync.
    destruct (IH (fun n Hn => Hreg n (or_intror Hn)) (results ++ [(name, result)]) s1)
      as [more [s' [Hloop Hturn]]].
    exists ((name, result) :: more), s'. split.
    + rewrite Hloop. rewrite <- app_assoc. reflexivity.
    + econstructor; eassumption.
Qed.

Lemma runs_in_turn_names (connectors : Connectors) (options : Options)
    (names : list string) (s s' : Db) (results : list (string * SourceResult)) :
  runs_in_turn connectors options names s results s' -> map fst results = names.
Proof.
  induction 1 as [|name rest s s1 s' result results _ _ IH]; [reflexivity|].
  cbn [map fst]. rewrite IH. reflexivity.
Qed.

(** X20. [syncAllSources] is always fulfilled: no connector can make it
    reject, be it by throwing.  It syncs every registered connector once,
    in the order limitless, bee, weather, each on the store that the one
    before left, and reports one result per connector under its name.
    The branch that reports "Disabled, skipped." is never taken, since a
    disabled connector is not registered. *)
Theorem syncAllSources_syncs_every_registered_connector
    (limitless bee weather : Connector) (options : Options) (s : Db) :
  let connectors := _initializeConnectors limitless bee weather in
  exists results s',
    syncAllSources connectors options s = (s', Fulfilled results)
    /\ runs_in_turn connectors options (map fst connectors) s results s'
    /\ map fst results
       = map fst (List.filter (fun entry => connector_isEnabled (snd entry))
                    (known_sources limitless bee weather)).
Proof.
  intros connectors.
  destruct (syncAllSources_loop_runs limitless bee weather options
              (map fst connectors) (fun _ H => H) [] s) as [results [s' [Hloop Hturn]]].
  exists results, s'. split; [exact Hloop|]. split; [exact Hturn|].
  rewrite (runs_in_turn_names _ _ _ _ _ _ Hturn).
  subst connectors. unfold _initializeConnectors, known_sources.
  cbn [List.filter snd].
  destruct (connector_isEnabled limitless), (connector_isEnabled bee),
    (connector_isEnabled weather); reflexivity.
Qed.

(** A source that is none of the enabled connectors, and no inherited
    name either, is not found. *)
Lemma unknown_or_disabled_is_missing (limitless bee weather : Connector)
    (source : string) :
  unknown_or_disabled limitless bee weather source = true ->
  existsb (String.eqb source) Object_prototype = false ->
  get_connector (_initializeConnectors limitless bee weather) source = Missing.
Proof.
  intros Hun Hproto. unfold get_connector. rewrite Hproto.
  destruct (List.find _ _) as [entry|] eqn:Hfind; [|reflexivity].
  exfalso. apply find_some in Hfind as [Hreg Hname]. 
  unfold unknown_or_disabled, known_sources in Hun. cbn [forallb fst snd] in Hun.
  unfold _initializeConnectors in Hreg.
  destruct (connector_isEnabled limitless), (connector_isEnabled bee),
    (connector_isEnabled weather); cbn [app In] in Hreg;
    repeat (destruct Hreg as [<-|Hreg];
            [cbn [fst] in Hname; rewrite Hname in Hun; cbn in Hun;
             rewrite ?andb_false_r in Hun; discriminate Hun|]);
    exact Hreg.
Qed.

(** X21. [POST /api/data/sync/:source] for a source that is unknown or
    disabled in the configuration: a disabled connector is not registered,
    so both get the status 500 with the detail "Connector <source> not
    found." (never "<source> is disabled."), and the store is untouched,
    whatever [forceFullSync] says. *)
Theorem sync_route_answers_500_for_an_unknown_or_disabled_source
    (limitless bee weather : Connector) (source : string)
    (forceFullSync : field string) (s : Db) :
  source <> "" ->
  existsb (String.eqb source) Object_prototype = false ->
  unknown_or_disabled limitless bee weather source = true ->
  post_sync (_initializeConnectors limitless bee weather) source forceFullSync s
  = (s, Json 500 (SyncFailed source (inl ("Connector " +:+ source +:+ " not found.")))).
Proof.
  intros Hsource Hproto Hun. unfold post_sync, syncSource.
  rewrite (unknown_or_disabled_is_missing _ _ _ _ Hun Hproto).
  destruct source as [|c rest]; [contradiction Hsource; reflexivity|].
  reflexivity.
Qed.

Lemma sync_route_answers_500_for_an_unknown_or_disabled_source_witness :
  post_sync
    (_initializeConnectors
       (limitlessConnector (mkSourceConfig (Val false) (Val "key") true true true true)
          Scenario.serveLifelogOfJune1)
       (beeConnector Scenario.enabledConfig Scenario.beeFlakyApi)
       (mkConnector false (fun _ => ret (mkSyncResult true None (mkProcessResult 0 0 0)))))
    "limitless" (Val "true") emptyDb
  = (emptyDb, Json 500 (SyncFailed "limitless" (inl "Connector limitless not found."))).
Proof.
  apply (sync_route_answers_500_for_an_unknown_or_disabled_source
           (limitlessConnector
              (mkSourceConfig (Val false) (Val "key") true true true true)
              Scenario.serveLifelogOfJune1)
           (beeConnector Scenario.enabledConfig Scenario.beeFlakyApi)
           (mkConnector false
              (fun _ => ret (mkSyncResult true None (mkProcessResult 0 0 0))))
           "limitless" (Val "true") emptyDb);
    [discriminate | reflexivity | reflexivity].
Defined.

(** X22. [POST /api/data/sync/:source] for a connector that is enabled but
    has no API key: [fetchData] gives up before any request, [sync]
    reports that as a success, and the route answers 200 "Sync initiated"
    with the details "No new data fetched."; nothing is stored. *)
Theorem sync_route_answers_200_without_an_api_key
    (cfg : SourceConfig) (limitlessApi : LimitlessConnector.Api)
    (beeApi : BeeConnector.Api) (weather : Connector)
    (forceFullSync : field string) (s : Db) :
  isEnabled cfg = true ->
  truthy (apiKey cfg) = false ->
  let connectors :=
    _initializeConnectors (limitlessConnector cfg limitlessApi)
      (beeConnector cfg beeApi) weather in
  let details :=
    mkSourceResult true (Some "No new data fetched.") (Some (mkProcessResult 0 0 0))
      None in
  post_sync connectors "limitless" forceFullSync s
  = (s, Json 200 (SyncInitiated "limitless" details))
  /\ post_sync connectors "bee" forceFullSync s
     = (s, Json 200 (SyncInitiated "bee" details)).
Proof.
  intros He Hk connectors details. subst connectors details.
  unfold post_sync, syncSource, get_connector, _initializeConnectors,
    limitlessConnector, beeConnector.
  cbn [connector_isEnabled connector_sync]. rewrite He.
  cbn [app List.find fst snd String.eqb Ascii.eqb Bool.eqb negb truthy truthy_string
       connector_isEnabled connector_sync].
  unfold LimitlessConnector.sync, BeeConnector.sync, BaseConnector.sync,
    LimitlessConnector.fetchData, BeeConnector.fetchData.
  rewrite He, Hk. split; reflexivity.
Qed.

Lemma sync_route_answers_200_without_an_api_key_witness :
  post_sync
    (_initializeConnectors
       (limitlessConnector (mkSourceConfig (Val true) (Val "") true true true true)
          Scenario.serveLifelogOfJune1)
       (beeConnector (mkSourceConfig (Val true) (Val "") true true true true)
          Scenario.beeFlakyApi)
       (mkConnector false (fun _ => ret (mkSyncResult true None (mkProcessResult 0 0 0)))))
    "bee" Absent emptyDb
  = (emptyDb,
     Json 200
       (SyncInitiated "bee"
          (mkSourceResult true (Some "No new data fetched.")
             (Some (mkProcessResult 0 0 0)) None))).
Proof.
  apply (sync_route_answers_200_without_an_api_key
           (mkSourceConfig (Val true) (Val "") true true true true)
           Scenario.serveLifelogOfJune1 Scenario.beeFlakyApi
           (mkConnector false
              (fun _ => ret (mkSyncResult true None (mkProcessResult 0 0 0))))
           Absent emptyDb); reflexivity.
Defined.

End DataSyncManagerProperties.

